(** * Function objects of the Micro Python runtime (py/objfun.c)

    A shallow embedding of the call path of byte code functions
    ([mp_setup_code_state], [fun_bc_call]) and of viper functions
    ([fun_viper_call]), together with the properties of argument binding,
    frame allocation and native marshalling that the runtime relies on. *)

From Stdlib Require Import ZArith Lia.
From stdpp Require Import base decidable countable list gmap.

Local Open Scope Z_scope.

(** ** Objects *)

(** [qstr] is an interned string, an unsigned index into the string pool. *)
Definition qstr := Z.

(** Addresses of heap blocks. *)
Definition addr := nat.

(** [mp_obj_t] is a machine word in C: the null pointer, a small integer,
    an interned string, or a pointer to an object (statically allocated
    singletons get a constructor each, heap objects carry their address). *)
Inductive mp_obj_t : Type :=
  | MP_OBJ_NULL
  | MP_OBJ_NEW_SMALL_INT (n : Z)
  | MP_OBJ_NEW_QSTR (q : qstr)
  | mp_const_none
  | mp_const_empty_tuple
  | MP_OBJ_PTR (a : addr).

#[global] Instance mp_obj_eq_dec : EqDecision mp_obj_t.
Proof. solve_decision. Defined.

Definition mp_obj_code (o : mp_obj_t) : Z + (Z + (Z + nat)) :=
  match o with
  | MP_OBJ_NULL => inl 0
  | mp_const_none => inl 1
  | mp_const_empty_tuple => inl 2
  | MP_OBJ_NEW_SMALL_INT n => inr (inl n)
  | MP_OBJ_NEW_QSTR q => inr (inr (inl q))
  | MP_OBJ_PTR a => inr (inr (inr a))
  end.

Definition mp_obj_decode (c : Z + (Z + (Z + nat))) : mp_obj_t :=
  match c with
  | inl 1 => mp_const_none
  | inl 2 => mp_const_empty_tuple
  | inl _ => MP_OBJ_NULL
  | inr (inl n) => MP_OBJ_NEW_SMALL_INT n
  | inr (inr (inl q)) => MP_OBJ_NEW_QSTR q
  | inr (inr (inr a)) => MP_OBJ_PTR a
  end.

#[global] Instance mp_obj_countable : Countable mp_obj_t.
Proof.
  apply (inj_countable' mp_obj_code mp_obj_decode).
  intros []; reflexivity.
Defined.

(** Objects that live on the heap.  A dict is a map from key objects to
    value objects ([mp_map_t]); a cell boxes one object. *)
Inductive heap_obj : Type :=
  | mp_obj_tuple_t (items : list mp_obj_t)
  | mp_obj_dict_t (map : gmap mp_obj_t mp_obj_t)
  | mp_obj_cell_t (obj : mp_obj_t).

(** ** Machine state *)

(** [mp_code_state] (bc.h), with the fields objfun.c uses.  [ip] is an
    offset into the function's byte code, [sp] an index into [state]
    ([-1]: empty stack), [exc_sp] an index into the exception stack that
    follows the [n_state] object slots. *)
Record mp_code_state : Type := Code_state {
  code_info : list Z;
  ip : Z;
  sp : Z;
  exc_sp : Z;
  n_state : Z;
  state : list mp_obj_t
}.

Definition set_state (c : mp_code_state) (s : list mp_obj_t) : mp_code_state :=
  Code_state (code_info c) (ip c) (sp c) (exc_sp c) (n_state c) s.
Definition set_ip (c : mp_code_state) (p : Z) : mp_code_state :=
  Code_state (code_info c) p (sp c) (exc_sp c) (n_state c) (state c).

(** Calls the frame allocator receives from [fun_bc_call]. *)
Inductive frame_event : Type :=
  | Ev_m_new_obj_var (state_size : Z)
  | Ev_alloca (state_size : Z)
  | Ev_m_del_var (state_size : Z).

#[global] Instance frame_event_eq_dec : EqDecision frame_event.
Proof. solve_decision. Defined.

(** The memory a call works on.  [frame] is the block the [code_state]
    pointer of the running call points to; it stays as it is when the call
    is left by a raise. *)
Record mem : Type := Mem {
  heap : list heap_obj;        (* the object heap, addressed by position *)
  frame : mp_code_state;       (* the call frame, *code_state *)
  mp_globals : mp_obj_t;       (* the active global namespace *)
  frame_log : list frame_event (* frame allocator calls, oldest first *)
}.

Definition set_heap (m : mem) (h : list heap_obj) : mem :=
  Mem h (frame m) (mp_globals m) (frame_log m).
Definition set_frame (m : mem) (c : mp_code_state) : mem :=
  Mem (heap m) c (mp_globals m) (frame_log m).
Definition set_globals (m : mem) (g : mp_obj_t) : mem :=
  Mem (heap m) (frame m) g (frame_log m).
Definition log_frame (m : mem) (e : frame_event) : mem :=
  Mem (heap m) (frame m) (mp_globals m) (frame_log m ++ [e]).

(** Exceptions raised with [nlr_raise].  The binder raises [TypeError]s that
    differ in their message; the message arguments are kept.  With terse
    error reporting [fun_pos_args_mismatch] drops its two numbers from the
    text, the condition raised is the same. *)
Inductive exc : Type :=
  | TypeError_pos_args_mismatch (expected given : Z)
      (* "function takes %d positional arguments but %d were given" *)
  | TypeError_multiple_values (arg_name : qstr)
      (* "function got multiple values for argument '%s'" *)
  | TypeError_no_keyword_args
      (* "function does not take keyword arguments" *)
  | TypeError_missing_positional (n : Z)
      (* "function missing required positional argument #%d" *)
  | TypeError_missing_keyword (arg_name : qstr)
      (* "function missing required keyword argument '%s'" *)
  | TypeError_missing_kwonly
      (* "function missing keyword-only argument" *)
  | TypeError_arg_check_num
      (* raised by mp_arg_check_num *)
  | Exc_object (o : mp_obj_t)
      (* an exception object handed back by the byte code engine *).

#[global] Instance exc_eq_dec : EqDecision exc.
Proof. solve_decision. Defined.

(** What a computation does: it returns, it raises (a non-local jump to the
    innermost handler), it reads or writes outside an array (undefined
    behaviour in C), or it stops at a failed [assert]. *)
Inductive outcome (A : Type) : Type :=
  | Ok (a : A) (m : mem)
  | Raise (e : exc) (m : mem)
  | Undefined
  | AssertFail.
Arguments Ok {A} a m.
Arguments Raise {A} e m.
Arguments Undefined {A}.
Arguments AssertFail {A}.

Definition M (A : Type) : Type := mem → outcome A.

#[global] Instance M_ret : MRet M := λ A a m, Ok a m.
#[global] Instance M_bind : MBind M := λ A B f c m,
  match c m with
  | Ok a m' => f a m'
  | Raise e m' => Raise e m'
  | Undefined => Undefined
  | AssertFail => AssertFail
  end.

Definition nlr_raise {A : Type} (e : exc) : M A := λ m, Raise e m.
Definition undefined {A : Type} : M A := λ _, Undefined.
Definition assert_fail {A : Type} : M A := λ _, AssertFail.
Definition get_mem : M mem := λ m, Ok m m.
Definition put_mem (m : mem) : M unit := λ _, Ok tt m.

(** [for (i = lo; i < hi; i++) body]. *)
Fixpoint for_iter (n : nat) (i : Z) (body : Z → M unit) : M unit :=
  match n with
  | O => mret tt
  | S n' => _ ← body i; for_iter n' (i + 1) body
  end.

Definition for_loop (lo hi : Z) (body : Z → M unit) : M unit :=
  for_iter (Z.to_nat (hi - lo)) lo body.

(** Reading [a[i]]; outside the array the behaviour is undefined. *)
Definition array_get {A : Type} (a : list A) (i : Z) : M A :=
  if 0 <=? i then
    match a !! Z.to_nat i with
    | Some x => mret x
    | None => undefined
    end
  else undefined.

(** [code_state->state[i]] and [code_state->state[i] = v]. *)
Definition state_get (i : Z) : M mp_obj_t := λ m,
  array_get (state (frame m)) i m.

Definition state_put (i : Z) (v : mp_obj_t) : M unit := λ m,
  if (0 <=? i) && (i <? Z.of_nat (length (state (frame m))))
  then Ok tt (set_frame m (set_state (frame m) (<[Z.to_nat i := v]> (state (frame m)))))
  else Undefined.

(** [unsigned int] arithmetic wraps modulo 2^32. *)
Definition uint (x : Z) : Z := x mod 2 ^ 32.

(** ** Collaborators from the object model *)

(** [m_new_obj]: a fresh heap block, placed after all existing ones. *)
Definition m_new_obj (o : heap_obj) : M mp_obj_t := λ m,
  Ok (MP_OBJ_PTR (length (heap m))) (set_heap m (heap m ++ [o])).

(** [mp_obj_new_tuple(n, items)] of objtuple.c.  [items] is the array the
    pointer argument points into; the first [n] elements are copied.  (The
    call with a null [items] leaves the elements unset and is not used by
    the code below.) *)
Definition mp_obj_new_tuple (n : Z) (items : list mp_obj_t) : M mp_obj_t :=
  if n =? 0 then mret mp_const_empty_tuple
  else if Z.of_nat (length items) <? n then undefined
  else m_new_obj (mp_obj_tuple_t (take (Z.to_nat n) items)).

(** Modelled from the spec: [mp_obj_new_dict] (objdict.c), the object
    model's constructor of an empty mapping object; the argument is only a
    capacity hint. *)
Definition mp_obj_new_dict (n_args : Z) : M mp_obj_t :=
  m_new_obj (mp_obj_dict_t ∅).

(** Modelled from the spec: [mp_obj_dict_store] (objdict.c), "insert
    (name,value) into that dict"; a later store under the same key replaces
    the earlier value. *)
Definition mp_obj_dict_store (self_in key value : mp_obj_t) : M mp_obj_t := λ m,
  match self_in with
  | MP_OBJ_PTR a =>
      match heap m !! a with
      | Some (mp_obj_dict_t map) =>
          Ok self_in (set_heap m (<[a := mp_obj_dict_t (<[key := value]> map)]> (heap m)))
      | _ => Undefined
      end
  | _ => Undefined
  end.

(** Modelled from the spec: [mp_map_lookup(.., MP_MAP_LOOKUP)] (map.c) on the
    map of the dict object [dict]: the element stored under [index], or
    [NULL]. *)
Definition mp_map_lookup (dict index : mp_obj_t) : M (option mp_obj_t) := λ m,
  match dict with
  | MP_OBJ_PTR a =>
      match heap m !! a with
      | Some (mp_obj_dict_t map) => Ok (map !! index) m
      | _ => Undefined
      end
  | _ => Undefined
  end.

(** Modelled from the spec: [mp_obj_new_cell] (objcell.c), "a newly
    allocated Closure Cell wrapping that value". *)
Definition mp_obj_new_cell (obj : mp_obj_t) : M mp_obj_t :=
  m_new_obj (mp_obj_cell_t obj).

(** [MP_OBJ_QSTR_VALUE]: the macro shifts the tag bits away without looking
    at them; the result only means something for a qstr object. *)
Definition MP_OBJ_QSTR_VALUE (o : mp_obj_t) : M qstr :=
  match o with
  | MP_OBJ_NEW_QSTR q => mret q
  | _ => undefined
  end.

(** ** Function objects *)

(** [mp_obj_fun_bc_t] (objfun.h), with the fields objfun.c reads.  The
    field [args] of the C struct, the table of parameter names, is called
    [arg_names] here as in [mp_raw_code_t]; [extra_args] holds the
    [n_def_args] default values and then, if [has_def_kw_args], the dict of
    keyword defaults. *)
Record mp_obj_fun_bc_t : Type := Fun_bc {
  globals : mp_obj_t;
  n_pos_args : Z;
  n_kwonly_args : Z;
  n_def_args : Z;
  has_def_kw_args : bool;
  takes_var_args : bool;
  takes_kw_args : bool;
  bytecode : list Z;
  arg_names : list qstr;
  extra_args : list mp_obj_t
}.

(** Scope flags (runtime0.h). *)
Definition MP_SCOPE_FLAG_VARARGS : Z := 0x04.
Definition MP_SCOPE_FLAG_VARKEYWORDS : Z := 0x08.

(** [mp_obj_new_fun_bc].  [def_args_in] is [MP_OBJ_NULL] or a tuple whose
    items are copied into [extra_args]; [def_kw_args] is [MP_OBJ_NULL] or a
    dict, kept by reference in the slot after them. *)
Definition mp_obj_new_fun_bc (scope_flags : Z) (args : list qstr)
    (n_pos_args n_kwonly_args : Z) (def_args_in def_kw_args : mp_obj_t)
    (code : list Z) : M mp_obj_fun_bc_t :=
  m ← get_mem;
  def_items ←
    match def_args_in with
    | MP_OBJ_NULL => mret []
    | mp_const_empty_tuple => mret []
    | MP_OBJ_PTR a =>
        match heap m !! a with
        | Some (mp_obj_tuple_t items) => mret items
        | _ => assert_fail
        end
    | _ => assert_fail
    end;
  let n_def_args := Z.of_nat (length def_items) in
  let o_extra_args :=
    def_items ++ (if decide (def_kw_args ≠ MP_OBJ_NULL) then [def_kw_args] else []) in
  mret {| globals := mp_globals m;
          arg_names := args;
          n_pos_args := n_pos_args;
          n_kwonly_args := n_kwonly_args;
          n_def_args := n_def_args;
          has_def_kw_args := bool_decide (def_kw_args ≠ MP_OBJ_NULL);
          takes_var_args := negb (Z.land scope_flags MP_SCOPE_FLAG_VARARGS =? 0);
          takes_kw_args := negb (Z.land scope_flags MP_SCOPE_FLAG_VARKEYWORDS =? 0);
          bytecode := code;
          extra_args := o_extra_args |}.

(** ** Argument binding *)

Definition fun_pos_args_mismatch {A : Type} (f : mp_obj_fun_bc_t) (expected given : Z) : M A :=
  nlr_raise (TypeError_pos_args_mismatch expected given).

(** The inner loop of the keyword pass: the first [j], from [j] on, with
    [arg_name == self->args[j]]; [None] when the loop runs to its end. *)
Fixpoint kw_find (self : mp_obj_fun_bc_t) (arg_name : qstr) (n : nat) (j : Z) : M (option Z) :=
  match n with
  | O => mret None
  | S n' =>
      a ← array_get (arg_names self) j;
      if arg_name =? a then mret (Some j) else kw_find self arg_name n' (j + 1)
  end.

(** One round of the keyword loop, for the pair [kwargs[2*i]],
    [kwargs[2*i+1]]; [kwargs] is the offset of the pairs in [args]. *)
Definition kw_body (self : mp_obj_fun_bc_t) (n_state kwargs : Z) (args : list mp_obj_t)
    (dict : mp_obj_t) (i : Z) : M unit :=
  k ← array_get args (kwargs + 2 * i);
  arg_name ← MP_OBJ_QSTR_VALUE k;
  r ← kw_find self arg_name (Z.to_nat (n_pos_args self + n_kwonly_args self)) 0;
  match r with
  | Some j =>
      x ← state_get (n_state - 1 - j);
      if decide (x ≠ MP_OBJ_NULL) then nlr_raise (TypeError_multiple_values arg_name)
      else
        v ← array_get args (kwargs + (2 * i + 1));
        state_put (n_state - 1 - j) v
  | None =>
      (* Didn't find name match with positional args *)
      if negb (takes_kw_args self) then nlr_raise TypeError_no_keyword_args
      else
        v ← array_get args (kwargs + (2 * i + 1));
        _ ← mp_obj_dict_store dict k v;
        mret tt
  end.

(** The loop over [i = n_def_args .. 1] that fills the empty slots among
    the last [n_def_args] positional parameters: [d] walks up [state], [s]
    walks down [extra_args], and a slot that is still null receives the
    default [s] points to.  Returns the final [d]. *)
Fixpoint fill_defaults (self : mp_obj_fun_bc_t) (i : nat) (d s : Z) : M Z :=
  match i with
  | O => mret d
  | S i' =>
      x ← state_get d;
      _ ← (if decide (x = MP_OBJ_NULL)
           then v ← array_get (extra_args self) s; state_put d v
           else mret tt);
      fill_defaults self i' (d + 1) (s - 1)
  end.

(** The loop that checks the mandatory positional parameters: [d] walks on
    up to the end of [state]; a null slot raises, reporting the distance
    from the incremented [d] to the end of [state]. *)
Fixpoint check_mandatory (n_state : Z) (n : nat) (d : Z) : M unit :=
  match n with
  | O => mret tt
  | S n' =>
      x ← state_get d;
      let d := d + 1 in
      if decide (x = MP_OBJ_NULL)
      then nlr_raise (TypeError_missing_positional (n_state - d))
      else check_mandatory n_state n' d
  end.

(** One round of the loop over the keyword-only parameters. *)
Definition kwonly_body (self : mp_obj_fun_bc_t) (n_state : Z) (i : Z) : M unit :=
  x ← state_get (n_state - 1 - n_pos_args self - i);
  if decide (x = MP_OBJ_NULL) then
    name ← array_get (arg_names self) (n_pos_args self + i);
    elem ←
      (if has_def_kw_args self then
         d ← array_get (extra_args self) (n_def_args self);
         mp_map_lookup d (MP_OBJ_NEW_QSTR name)
       else mret None);
    match elem with
    | Some value => state_put (n_state - 1 - n_pos_args self - i) value
    | None => nlr_raise (TypeError_missing_keyword name)
    end
  else mret tt.

(** The byte code prelude: [n_local] local numbers follow, each of these
    locals is boxed in a new cell.  Returns the advanced [ip]. *)
Fixpoint prelude_loop (self : mp_obj_fun_bc_t) (n_state : Z) (n_local : nat) (ip : Z) : M Z :=
  match n_local with
  | O => mret ip
  | S n' =>
      local_num ← array_get (bytecode self) ip;
      let ip := ip + 1 in
      x ← state_get (n_state - 1 - local_num);
      c ← mp_obj_new_cell x;
      _ ← state_put (n_state - 1 - local_num) c;
      prelude_loop self n_state n' ip
  end.

(** [mp_setup_code_state], working on the frame [code_state] points to.
    [args] holds [n_args] positional arguments and then [n_kw] pairs of a
    name and a value. *)
Definition mp_setup_code_state (self : mp_obj_fun_bc_t)
    (n_args n_kw : Z) (args : list mp_obj_t) : M unit :=
  m ← get_mem;
  let n_state := n_state (frame m) in
  let ip := ip (frame m) in
  (* code_info, sp, exc_sp; zero out the local stack to begin with *)
  _ ← put_mem (set_frame m
         (Code_state (bytecode self) ip (-1) (-1) n_state
            (replicate (Z.to_nat n_state) MP_OBJ_NULL)));
  let kwargs := n_args in
  (* var_pos_kw_args points to the stack where the var-args tuple, and var-kw
     dict, should go (if they are needed) *)
  let var_pos_kw_args := n_state - 1 - n_pos_args self - n_kwonly_args self in
  (* check positional arguments *)
  '(var_pos_kw_args, n_args) ←
    (if n_args >? n_pos_args self then
       (* given more than enough arguments *)
       if negb (takes_var_args self)
       then fun_pos_args_mismatch self (n_pos_args self) n_args
       else
         (* put extra arguments in varargs tuple *)
         t ← mp_obj_new_tuple (n_args - n_pos_args self)
               (drop (Z.to_nat (n_pos_args self)) args);
         _ ← state_put var_pos_kw_args t;
         mret (var_pos_kw_args - 1, n_pos_args self)
     else
       var_pos_kw_args ←
         (if takes_var_args self then
            _ ← state_put var_pos_kw_args mp_const_empty_tuple;
            mret (var_pos_kw_args - 1)
          else mret var_pos_kw_args);
       (* Apply processing and check below only if we don't have kwargs,
          otherwise, kw handling code below has own extensive checks. *)
       _ ← (if (n_kw =? 0) && negb (has_def_kw_args self) then
              if n_args >=? uint (n_pos_args self - n_def_args self) then
                (* given enough arguments, but may need to use some default arguments *)
                for_loop n_args (n_pos_args self) (λ i,
                  v ← array_get (extra_args self) (i - (n_pos_args self - n_def_args self));
                  state_put (n_state - 1 - i) v)
              else
                fun_pos_args_mismatch self (uint (n_pos_args self - n_def_args self)) n_args
            else mret tt);
       mret (var_pos_kw_args, n_args));
  (* copy positional args into state *)
  _ ← for_loop 0 n_args (λ i, v ← array_get args i; state_put (n_state - 1 - i) v);
  (* check keyword arguments *)
  _ ← (if negb (n_kw =? 0) || has_def_kw_args self then
         dict ←
           (if takes_kw_args self then
              dict ← mp_obj_new_dict n_kw;
              _ ← state_put var_pos_kw_args dict;
              mret dict
            else mret MP_OBJ_NULL);
         _ ← for_loop 0 n_kw (kw_body self n_state kwargs args dict);
         (* fill in defaults for positional args *)
         d ← fill_defaults self (Z.to_nat (n_def_args self))
               (n_state - n_pos_args self) (n_def_args self - 1);
         (* Check that all mandatory positional args are specified *)
         _ ← check_mandatory n_state (Z.to_nat (n_state - d)) d;
         (* Check that all mandatory keyword args are specified
            Fill in default kw args if we have them *)
         for_loop 0 (n_kwonly_args self) (kwonly_body self n_state)
       else
         (* no keyword arguments given *)
         if negb (n_kwonly_args self =? 0) then nlr_raise TypeError_missing_kwonly
         else if takes_kw_args self then
           dict ← mp_obj_new_dict 0;
           state_put var_pos_kw_args dict
         else mret tt);
  (* bytecode prelude: initialise closed over variables *)
  n_local ← array_get (bytecode self) ip;
  ip ← prelude_loop self n_state (Z.to_nat n_local) (ip + 1);
  (* now that we skipped over the prelude, set the ip for the VM *)
  m ← get_mem;
  put_mem (set_frame m (set_ip (frame m) ip)).

(** ** Calling a byte code function *)

Inductive mp_vm_return_kind_t : Type :=
  | MP_VM_RETURN_NORMAL
  | MP_VM_RETURN_YIELD
  | MP_VM_RETURN_EXCEPTION.

Section fun_bc.

(** Sizes of the target ([sizeof(mp_uint_t)], [sizeof(mp_obj_t)],
    [sizeof(mp_exc_stack_t)]). *)
Variables sizeof_mp_uint_t sizeof_mp_obj_t sizeof_mp_exc_stack_t : Z.

(** The byte code engine, [mp_execute_bytecode(code_state, inject_exc)]: from
    the heap, the active globals and the frame it computes how it completes,
    the new heap and the new frame.  It has no access to the frame
    allocator. *)
Variable mp_execute_bytecode :
  mp_obj_t → list heap_obj → mp_obj_t → mp_code_state →
  mp_vm_return_kind_t * list heap_obj * mp_code_state.

Definition VM_MAX_STATE_ON_STACK : Z := 10 * sizeof_mp_uint_t.

Definition mp_globals_get : M mp_obj_t := λ m, Ok (mp_globals m) m.
Definition mp_globals_set (g : mp_obj_t) : M unit := λ m, Ok tt (set_globals m g).

Definition execute_bytecode (inject_exc : mp_obj_t) : M mp_vm_return_kind_t := λ m,
  let '(kind, h, c) := mp_execute_bytecode inject_exc (heap m) (mp_globals m) (frame m) in
  Ok kind (set_frame (set_heap m h) c).

(** [m_new_obj_var(mp_code_state, byte, state_size)] and [alloca]: a fresh
    frame; its slots hold nothing meaningful until they are zeroed. *)
Definition new_frame (e : frame_event) (n_state : Z) : M unit := λ m,
  Ok tt (log_frame
           (set_frame m (Code_state [] 0 0 0 0 (replicate (Z.to_nat n_state) MP_OBJ_NULL)))
           e).

(** [m_del_var(mp_code_state, byte, state_size, code_state)]. *)
Definition m_del_var (state_size : Z) : M unit := λ m,
  Ok tt (log_frame m (Ev_m_del_var state_size)).

(** The header of the byte code: the size of the code info block (32 bits,
    little endian), which is skipped, then the state size and the exception
    stack size (16 bits each).  Returns [n_state], [n_exc_stack] and [ip]. *)
Definition read_prelude (self : mp_obj_fun_bc_t) : M (Z * Z * Z) :=
  let ip := 0 in
  (* get code info size, and skip line number table *)
  b0 ← array_get (bytecode self) ip;
  b1 ← array_get (bytecode self) (ip + 1);
  b2 ← array_get (bytecode self) (ip + 2);
  b3 ← array_get (bytecode self) (ip + 3);
  let code_info_size :=
    Z.lor (Z.lor (Z.lor b0 (Z.shiftl b1 8)) (Z.shiftl b2 16)) (Z.shiftl b3 24) in
  let ip := ip + code_info_size in
  (* bytecode prelude: state size and exception stack size; 16 bit uints *)
  c0 ← array_get (bytecode self) ip;
  c1 ← array_get (bytecode self) (ip + 1);
  c2 ← array_get (bytecode self) (ip + 2);
  c3 ← array_get (bytecode self) (ip + 3);
  let n_state := Z.lor c0 (Z.shiftl c1 8) in
  let n_exc_stack := Z.lor c2 (Z.shiftl c3 8) in
  mret (n_state, n_exc_stack, ip + 4).

(** [fun_bc_call] (with [VM_DETECT_STACK_OVERFLOW] off, as it is defined;
    [MP_STACK_CHECK] is left out). *)
Definition fun_bc_call (self : mp_obj_fun_bc_t) (n_args n_kw : Z)
    (args : list mp_obj_t) : M mp_obj_t :=
  '(n_state, n_exc_stack, ip) ← read_prelude self;
  (* allocate state for locals and stack *)
  let state_size := uint (n_state * sizeof_mp_obj_t + n_exc_stack * sizeof_mp_exc_stack_t) in
  _ ← (if state_size >? VM_MAX_STATE_ON_STACK
       then new_frame (Ev_m_new_obj_var state_size) n_state
       else new_frame (Ev_alloca state_size) n_state);
  m ← get_mem;
  _ ← put_mem (set_frame m
         (Code_state (code_info (frame m)) ip (sp (frame m)) (exc_sp (frame m))
            n_state (state (frame m))));
  _ ← mp_setup_code_state self n_args n_kw args;
  (* execute the byte code with the correct globals context *)
  old_globals ← mp_globals_get;
  _ ← mp_globals_set (globals self);
  vm_return_kind ← execute_bytecode MP_OBJ_NULL;
  _ ← mp_globals_set old_globals;
  '(result, vm_return_kind) ←
    match vm_return_kind with
    | MP_VM_RETURN_NORMAL =>
        (* return value is in *sp *)
        m ← get_mem;
        result ← state_get (sp (frame m));
        mret (result, MP_VM_RETURN_NORMAL)
    | MP_VM_RETURN_EXCEPTION =>
        (* return value is in state[n_state - 1] *)
        result ← state_get (n_state - 1);
        mret (result, MP_VM_RETURN_EXCEPTION)
    | MP_VM_RETURN_YIELD =>
        (* byte-code shouldn't yield *)
        assert_fail
    end;
  (* free the state if it was allocated on the heap *)
  _ ← (if state_size >? VM_MAX_STATE_ON_STACK then m_del_var state_size else mret tt);
  match vm_return_kind with
  | MP_VM_RETURN_NORMAL => mret result
  | _ => (* MP_VM_RETURN_EXCEPTION *) nlr_raise (Exc_object result)
  end.

End fun_bc.

(** ** Calling a viper function *)

(** Types for native (viper) function signatures (runtime0.h). *)
Definition MP_NATIVE_TYPE_OBJ : Z := 0x00.
Definition MP_NATIVE_TYPE_BOOL : Z := 0x01.
Definition MP_NATIVE_TYPE_INT : Z := 0x02.
Definition MP_NATIVE_TYPE_UINT : Z := 0x03.

(** Modelled from the spec: [mp_arg_check_num] (argcheck.c), the arity check
    of native callables: no keywords unless [takes_kw], and a number of
    positional arguments between [n_args_min] and [n_args_max]. *)
Definition mp_arg_check_num (n_args n_kw n_args_min n_args_max : Z) (takes_kw : bool) : M unit :=
  if negb (n_kw =? 0) && negb takes_kw then nlr_raise TypeError_arg_check_num
  else if (n_args <? n_args_min) || (n_args >? n_args_max) then nlr_raise TypeError_arg_check_num
  else mret tt.

Module fun_viper.

(** [mp_obj_fun_viper_t]; [fun_] is the native code behind the [fun]
    pointer, taking and returning machine words. *)
Record mp_obj_fun_viper_t : Type := Fun_viper {
  n_args : Z;
  fun_ : list Z → M Z;
  type_sig : Z
}.

(** C leaves the order in which the arguments of a call are evaluated to
    the compiler.  An order for up to three arguments: [Order_120] evaluates
    argument 1 first, then argument 2, then argument 0. *)
Inductive arg_order : Type :=
  | Order_012 | Order_021 | Order_102 | Order_120 | Order_201 | Order_210.

Definition positions (o : arg_order) : list nat :=
  match o with
  | Order_012 => [0; 1; 2]
  | Order_021 => [0; 2; 1]
  | Order_102 => [1; 0; 2]
  | Order_120 => [1; 2; 0]
  | Order_201 => [2; 0; 1]
  | Order_210 => [2; 1; 0]
  end%nat.

End fun_viper.

(** The argument expressions [cs] of a call evaluated in the order [order],
    their values put at their positions in [ws]; a position past the
    arguments of the call is passed over. *)
Fixpoint eval_in_order (order : list nat) (cs : list (M Z)) (ws : list Z) : M (list Z) :=
  match order with
  | [] => mret ws
  | i :: order =>
      match cs !! i with
      | Some c => w ← c; eval_in_order order cs (<[i := w]> ws)
      | None => eval_in_order order cs ws
      end
  end.

Section fun_viper_call.

(** The conversions between an object and a machine word for each of the
    four 2-bit type codes (object pointer passthrough, boolean, signed int,
    unsigned int). *)
Variable obj_to_native : Z → mp_obj_t → M Z.
Variable native_to_obj : Z → Z → M mp_obj_t.

(** Modelled from the spec: [mp_convert_obj_to_native] and
    [mp_convert_native_to_obj] (runtime.c), which convert "according to a
    2-bit type code sliced out of the packed type signature": the caller
    shifts the signature, the two low bits of what it passes are the code. *)
Definition mp_convert_obj_to_native (obj : mp_obj_t) (type : Z) : M Z :=
  obj_to_native (Z.land type 3) obj.

Definition mp_convert_native_to_obj (val : Z) (type : Z) : M mp_obj_t :=
  native_to_obj (Z.land type 3) val.

(** The order in which the compiled code evaluates the arguments of the
    native calls in [fun_viper_call]. *)
Variable order : fun_viper.arg_order.

(** The argument expression [mp_convert_obj_to_native(args[i], type_sig >> s)]. *)
Definition convert_arg (args : list mp_obj_t) (i : Z) (type : Z) : M Z :=
  a ← array_get args i;
  mp_convert_obj_to_native a type.

(** [fun_viper_call].  With two or three arguments, the conversions are the
    argument expressions of one call and run in the order of the
    compiler. *)
Definition fun_viper_call (self : fun_viper.mp_obj_fun_viper_t) (n_args n_kw : Z)
    (args : list mp_obj_t) : M mp_obj_t :=
  let type_sig := fun_viper.type_sig self in
  _ ← mp_arg_check_num n_args n_kw (fun_viper.n_args self) (fun_viper.n_args self) false;
  ret ←
    (if n_args =? 0 then
       fun_viper.fun_ self []
     else if n_args =? 1 then
       a0 ← array_get args 0;
       w0 ← mp_convert_obj_to_native a0 (Z.shiftr type_sig 2);
       fun_viper.fun_ self [w0]
     else if n_args =? 2 then
       ws ← eval_in_order (fun_viper.positions order)
               [convert_arg args 0 (Z.shiftr type_sig 2);
                convert_arg args 1 (Z.shiftr type_sig 4)]
               [0; 0];
       fun_viper.fun_ self ws
     else if n_args =? 3 then
       ws ← eval_in_order (fun_viper.positions order)
               [convert_arg args 0 (Z.shiftr type_sig 2);
                convert_arg args 1 (Z.shiftr type_sig 4);
                convert_arg args 2 (Z.shiftr type_sig 6)]
               [0; 0; 0];
       fun_viper.fun_ self ws
     else assert_fail);
  mp_convert_native_to_obj ret type_sig.

(** The 2-bit slot [k] of a packed signature, slot 0 being the least
    significant one. *)
Definition sig_slot (type_sig : Z) (k : Z) : Z :=
  Z.land (Z.shiftr type_sig (2 * k)) 3.

(** The layout as emitglue.h documents it for [n] arguments, "ret is MSB,
    then arg0, arg1, etc": the return type in the most significant of the
    [n + 1] slots, argument [i] in the slot [i + 1] places below it. *)
Definition sig_ret_documented (n type_sig : Z) : Z := sig_slot type_sig n.
Definition sig_arg_documented (n type_sig i : Z) : Z := sig_slot type_sig (n - 1 - i).

End fun_viper_call.

(** ** Vocabulary of the statements *)

(** The keyword pairs of a call as they lie in [args], after the positional
    arguments: the name as a qstr object, then the value. *)
Definition kw_flat (kws : list (qstr * mp_obj_t)) : list mp_obj_t :=
  flat_map (λ kv, [MP_OBJ_NEW_QSTR kv.1; kv.2]) kws.

(** The slot of local number [j]: [state[n_state - 1 - j]].  The parameters
    are the locals [0 .. n_pos_args + n_kwonly_args - 1]. *)
Definition local (m : mem) (j : Z) : option mp_obj_t :=
  if (0 <=? j) && (j <? n_state (frame m))
  then state (frame m) !! Z.to_nat (n_state (frame m) - 1 - j)
  else None.

(** The position of the first name equal to [name], counting from [j]. *)
Fixpoint find_name (name : qstr) (l : list qstr) (j : Z) : option Z :=
  match l with
  | [] => None
  | a :: l' => if name =? a then Some j else find_name name l' (j + 1)
  end.

(** The parameter a keyword [name] denotes: the first match in the table of
    the positional and then the keyword-only parameter names. *)
Definition param_index (self : mp_obj_fun_bc_t) (name : qstr) : option Z :=
  find_name name (take (Z.to_nat (n_pos_args self + n_kwonly_args self)) (arg_names self)) 0.

(** The error the keyword loop raises for a pair it cannot bind: a name in
    the table whose slot is taken, or a name outside the table when there
    is no dict for it. *)
Definition kw_error (self : mp_obj_fun_bc_t) (name : qstr) : exc :=
  match param_index self name with
  | Some _ => TypeError_multiple_values name
  | None => TypeError_no_keyword_args
  end.

(** The local numbers the prelude at offset [ip] lists. *)
Definition prelude_locals (self : mp_obj_fun_bc_t) (ip : Z) : option (list Z) :=
  if 0 <=? ip then
    match bytecode self !! Z.to_nat ip with
    | Some n =>
        let l := take (Z.to_nat n) (drop (Z.to_nat ip + 1) (bytecode self)) in
        if decide (length l = Z.to_nat n) then Some l else None
    | None => None
    end
  else None.

(** What a cell holds. *)
Definition cell_get (h : list heap_obj) (o : mp_obj_t) : option mp_obj_t :=
  match o with
  | MP_OBJ_PTR a =>
      match h !! a with
      | Some (mp_obj_cell_t v) => Some v
      | _ => None
      end
  | _ => None
  end.

(** The object reached from [o] through [n] cells. *)
Fixpoint deref (h : list heap_obj) (n : nat) (o : mp_obj_t) : option mp_obj_t :=
  match n with
  | O => Some o
  | S n' => o' ← deref h n' o; cell_get h o'
  end.

(** The value bound to local [j] once the prelude has run: the slot itself,
    or what the cell in the slot holds if the prelude boxed the local (one
    cell for each time the prelude lists it). *)
Definition bound (closed : list Z) (m : mem) (j : Z) : option mp_obj_t :=
  o ← local m j; deref (heap m) (length (filter (λ l, l = j) closed)) o.

(** The same through [c] cells. *)
Definition bound_at (c : nat) (m : mem) (j : Z) : option mp_obj_t :=
  o ← local m j; deref (heap m) c o.

Definition b2z (b : bool) : Z := if b then 1 else 0.

(** A well-formed function object with a frame that fits it: the default
    values belong to trailing positional parameters, the name table and
    [extra_args] have the sizes the counts announce, the keyword defaults are
    a dict, the frame has a slot for each parameter and for the [*args]
    tuple and the [**kw] dict if the function takes them, and the prelude at
    [ip] lists the locals [closed], all within the frame. *)
Record call_ok (self : mp_obj_fun_bc_t) (m : mem) (closed : list Z) : Prop := Call_ok {
  ok_def : 0 ≤ n_def_args self ≤ n_pos_args self;
  ok_kwonly : 0 ≤ n_kwonly_args self;
  ok_pos : n_pos_args self < 2 ^ 32;
  ok_names : Z.of_nat (length (arg_names self)) = n_pos_args self + n_kwonly_args self;
  ok_extra : Z.of_nat (length (extra_args self))
             = n_def_args self + b2z (has_def_kw_args self);
  ok_def_kw : has_def_kw_args self = true →
              ∃ a map, extra_args self !! Z.to_nat (n_def_args self) = Some (MP_OBJ_PTR a)
                       ∧ heap m !! a = Some (mp_obj_dict_t map);
  ok_frame : n_pos_args self + n_kwonly_args self
             + b2z (takes_var_args self) + b2z (takes_kw_args self) ≤ n_state (frame m);
  ok_prelude : prelude_locals self (ip (frame m)) = Some closed;
  ok_closed : Forall (λ l, 0 ≤ l < n_state (frame m)) closed
}.

(** ** Reasoning about computations *)

(** [wpg u c m Q E]: run from [m], [c] returns in a state satisfying [Q] or
    raises in a state satisfying [E]; [u] says whether it may go wrong
    (undefined behaviour, failed assertion). *)
Definition wpg (u : Prop) {A : Type} (c : M A) (m : mem)
    (Q : A → mem → Prop) (E : exc → mem → Prop) : Prop :=
  match c m with
  | Ok a m' => Q a m'
  | Raise e m' => E e m'
  | Undefined | AssertFail => u
  end.

(** [wp]: the computation does not go wrong. *)
Abbreviation wp := (wpg False).

(** ** A function of three parameters with one default *)

Definition MP_QSTR_a : qstr := 1.
Definition MP_QSTR_b : qstr := 2.
Definition MP_QSTR_c : qstr := 3.
Definition MP_QSTR_k : qstr := 4.
Definition MP_QSTR_x : qstr := 5.

(** Byte code of a function with three locals and no exception stack: a
    code info block of four bytes (its own size), [n_state = 3],
    [n_exc_stack = 0], and a prelude that boxes no local. *)
Definition code_abc : list Z := [4; 0; 0; 0; 3; 0; 0; 0; 0].

(** The heap holds the tuple [(10,)] of default values at address 0; the
    frame is as [fun_bc_call] hands it to [mp_setup_code_state]. *)
Definition m_abc : mem :=
  Mem [mp_obj_tuple_t [MP_OBJ_NEW_SMALL_INT 10]]
      (Code_state [] 8 0 0 3 (replicate 3 MP_OBJ_NULL))
      mp_const_none [].

(** [def f(a, b, c=10)]. *)
Definition f_abc : mp_obj_fun_bc_t :=
  {| globals := mp_const_none;
     n_pos_args := 3; n_kwonly_args := 0; n_def_args := 1;
     has_def_kw_args := false; takes_var_args := false; takes_kw_args := false;
     bytecode := code_abc;
     arg_names := [MP_QSTR_a; MP_QSTR_b; MP_QSTR_c];
     extra_args := [MP_OBJ_NEW_SMALL_INT 10] |}.

(** ** The blocks of [mp_setup_code_state] *)

(** "check positional arguments": returns the position for the next of the
    [*args] tuple and the [**kw] dict, and the clamped [n_args]. *)
Definition setup_check_positional (self : mp_obj_fun_bc_t) (n_state n_args n_kw : Z)
    (args : list mp_obj_t) : M (Z * Z) :=
  let var_pos_kw_args := n_state - 1 - n_pos_args self - n_kwonly_args self in
  if n_args >? n_pos_args self then
    if negb (takes_var_args self)
    then fun_pos_args_mismatch self (n_pos_args self) n_args
    else
      t ← mp_obj_new_tuple (n_args - n_pos_args self)
            (drop (Z.to_nat (n_pos_args self)) args);
      _ ← state_put var_pos_kw_args t;
      mret (var_pos_kw_args - 1, n_pos_args self)
  else
    var_pos_kw_args ←
      (if takes_var_args self then
         _ ← state_put var_pos_kw_args mp_const_empty_tuple;
         mret (var_pos_kw_args - 1)
       else mret var_pos_kw_args);
    _ ← (if (n_kw =? 0) && negb (has_def_kw_args self) then
           if n_args >=? uint (n_pos_args self - n_def_args self) then
             for_loop n_args (n_pos_args self) (λ i,
               v ← array_get (extra_args self) (i - (n_pos_args self - n_def_args self));
               state_put (n_state - 1 - i) v)
           else
             fun_pos_args_mismatch self (uint (n_pos_args self - n_def_args self)) n_args
         else mret tt);
    mret (var_pos_kw_args, n_args).

(** "copy positional args into state". *)
Definition setup_copy_positional (n_state n_args : Z) (args : list mp_obj_t) : M unit :=
  for_loop 0 n_args (λ i, v ← array_get args i; state_put (n_state - 1 - i) v).

(** "check keyword arguments", both branches. *)
Definition setup_check_keywords (self : mp_obj_fun_bc_t) (n_state kwargs n_kw : Z)
    (args : list mp_obj_t) (var_pos_kw_args : Z) : M unit :=
  if negb (n_kw =? 0) || has_def_kw_args self then
    dict ←
      (if takes_kw_args self then
         dict ← mp_obj_new_dict n_kw;
         _ ← state_put var_pos_kw_args dict;
         mret dict
       else mret MP_OBJ_NULL);
    _ ← for_loop 0 n_kw (kw_body self n_state kwargs args dict);
    d ← fill_defaults self (Z.to_nat (n_def_args self))
          (n_state - n_pos_args self) (n_def_args self - 1);
    _ ← check_mandatory n_state (Z.to_nat (n_state - d)) d;
    for_loop 0 (n_kwonly_args self) (kwonly_body self n_state)
  else
    if negb (n_kwonly_args self =? 0) then nlr_raise TypeError_missing_kwonly
    else if takes_kw_args self then
      dict ← mp_obj_new_dict 0;
      state_put var_pos_kw_args dict
    else mret tt.

(** "bytecode prelude: initialise closed over variables", and the update of
    [ip]. *)
Definition setup_prelude (self : mp_obj_fun_bc_t) (n_state ip : Z) : M unit :=
  n_local ← array_get (bytecode self) ip;
  ip ← prelude_loop self n_state (Z.to_nat n_local) (ip + 1);
  m ← get_mem;
  put_mem (set_frame m (set_ip (frame m) ip)).

(** The frame once [mp_setup_code_state] has set its pointers and zeroed
    its slots. *)
Definition zeroed (self : mp_obj_fun_bc_t) (m : mem) : mem :=
  set_frame m
    (Code_state (bytecode self) (ip (frame m)) (-1) (-1) (n_state (frame m))
       (replicate (Z.to_nat (n_state (frame m))) MP_OBJ_NULL)).

(** ** Frames and their slots *)

(** A frame of [N] slots. *)
Definition shaped (N : Z) (m : mem) : Prop :=
  n_state (frame m) = N ∧ Z.of_nat (length (state (frame m))) = N.

(** The memory after [state[n_state - 1 - j] = v]. *)
Definition put_local (m : mem) (j : Z) (v : mp_obj_t) : mem :=
  set_frame m (set_state (frame m)
    (<[Z.to_nat (n_state (frame m) - 1 - j) := v]> (state (frame m)))).

(** [steady n m m']: from [m] to [m'] the frame kept its size, its [ip] and
    the slots that were not null; the allocator log and the globals are the
    same; the heap kept its blocks below [n], every block that is not a
    dict, and a dict where there was one. *)
Record steady (n : nat) (m m' : mem) : Prop := Steady {
  st_n_state : n_state (frame m') = n_state (frame m);
  st_len : length (state (frame m')) = length (state (frame m));
  st_ip : ip (frame m') = ip (frame m);
  st_log : frame_log m' = frame_log m;
  st_globals : mp_globals m' = mp_globals m;
  st_slots : ∀ i x, state (frame m) !! i = Some x → x ≠ MP_OBJ_NULL →
             state (frame m') !! i = Some x;
  st_heap_len : (length (heap m) ≤ length (heap m'))%nat;
  st_old : ∀ a, (a < n)%nat → heap m' !! a = heap m !! a;
  st_heap : ∀ a o, heap m !! a = Some o → (∀ mp, o ≠ mp_obj_dict_t mp) →
            heap m' !! a = Some o;
  st_dict : ∀ a mp, heap m !! a = Some (mp_obj_dict_t mp) →
            ∃ mp', heap m' !! a = Some (mp_obj_dict_t mp')
}.

(** ** The keyword loop on the list of pairs *)

(** What one round of the keyword loop does with the pair [kv], [dict]
    being the [**kw] dict. *)
Definition kw_step (self : mp_obj_fun_bc_t) (dict : mp_obj_t) (kv : qstr * mp_obj_t) : M unit := λ m,
  match param_index self kv.1 with
  | Some j =>
      match local m j with
      | Some x =>
          if decide (x ≠ MP_OBJ_NULL) then Raise (TypeError_multiple_values kv.1) m
          else Ok tt (put_local m j kv.2)
      | None => Undefined
      end
  | None =>
      if negb (takes_kw_args self) then Raise TypeError_no_keyword_args m
      else (_ ← mp_obj_dict_store dict (MP_OBJ_NEW_QSTR kv.1) kv.2; mret tt) m
  end.

Fixpoint kw_run (self : mp_obj_fun_bc_t) (dict : mp_obj_t) (kws : list (qstr * mp_obj_t)) : M unit :=
  match kws with
  | [] => mret tt
  | kv :: kws' => _ ← kw_step self dict kv; kw_run self dict kws'
  end.



(** The [**kw] dict is in place at or above heap address [n], if the
    function takes keywords it has no parameter for. *)
Definition dict_ready (self : mp_obj_fun_bc_t) (dict : mp_obj_t) (n : nat) (m : mem) : Prop :=
  takes_kw_args self = true →
  ∃ a mp, dict = MP_OBJ_PTR a ∧ (n ≤ a)%nat ∧ heap m !! a = Some (mp_obj_dict_t mp).


(** The entry of the default-keyword mapping for [name], if the function
    has such a mapping and it has an entry. *)
Definition def_kw_lookup (self : mp_obj_fun_bc_t) (h : list heap_obj) (name : qstr) :
    option mp_obj_t :=
  if has_def_kw_args self then
    match extra_args self !! Z.to_nat (n_def_args self) with
    | Some (MP_OBJ_PTR a) =>
        match h !! a with
        | Some (mp_obj_dict_t mp) => mp !! MP_OBJ_NEW_QSTR name
        | _ => None
        end
    | _ => None
    end
  else None.
(** The call takes the branch for positional arguments only: no keyword
    pair and no default-keyword mapping. *)
Definition fast_path (self : mp_obj_fun_bc_t) (n_kw : Z) : bool :=
  (n_kw =? 0) && negb (has_def_kw_args self).

(** The items of the [*args] tuple of a call with [k] positional arguments. *)
Definition excess_args (self : mp_obj_fun_bc_t) (k : Z) (args : list mp_obj_t) : list mp_obj_t :=
  take (Z.to_nat (k - n_pos_args self)) (drop (Z.to_nat (n_pos_args self)) args).

(** ** More functions for the examples *)

(** A memory with heap [h] and a fresh frame of [n] slots whose [ip] is at
    the prelude. *)
Definition frame_mem (h : list heap_obj) (n ip : Z) : mem :=
  Mem h (Code_state [] ip 0 0 n (replicate (Z.to_nat n) MP_OBJ_NULL)) mp_const_none [].

(** Byte code with [n] locals, no exception stack and an empty prelude. *)
Definition code_plain (n : Z) : list Z := [4; 0; 0; 0; n; 0; 0; 0; 0].

(** [def f(a, *, k)]: one positional and one keyword-only parameter. *)
Definition f_a_k : mp_obj_fun_bc_t :=
  {| globals := mp_const_none;
     n_pos_args := 1; n_kwonly_args := 1; n_def_args := 0;
     has_def_kw_args := false; takes_var_args := false; takes_kw_args := false;
     bytecode := code_plain 2;
     arg_names := [MP_QSTR_a; MP_QSTR_k];
     extra_args := [] |}.

(** What the keyword block does after its loop over the pairs: defaults,
    mandatory positional parameters, keyword-only parameters. *)
Definition setup_after_kw_loop (self : mp_obj_fun_bc_t) (n_state : Z) : M unit :=
  d ← fill_defaults self (Z.to_nat (n_def_args self))
        (n_state - n_pos_args self) (n_def_args self - 1);
  _ ← check_mandatory n_state (Z.to_nat (n_state - d)) d;
  for_loop 0 (n_kwonly_args self) (kwonly_body self n_state).

(** [def f(a)]. *)
Definition f_a : mp_obj_fun_bc_t :=
  {| globals := mp_const_none;
     n_pos_args := 1; n_kwonly_args := 0; n_def_args := 0;
     has_def_kw_args := false; takes_var_args := false; takes_kw_args := false;
     bytecode := code_plain 2;
     arg_names := [MP_QSTR_a];
     extra_args := [] |}.

(** A function whose only parameter is the variadic-keyword dict,
    [def f] of [**kw]. *)
Definition f_kwargs : mp_obj_fun_bc_t :=
  {| globals := mp_const_none;
     n_pos_args := 0; n_kwonly_args := 0; n_def_args := 0;
     has_def_kw_args := false; takes_var_args := false; takes_kw_args := true;
     bytecode := code_plain 1;
     arg_names := [];
     extra_args := [] |}.



(** How the checks after the keyword loop leave the memory when they
    return: every positional parameter without default had a value, every
    empty keyword-only parameter took its entry of the default-keyword
    mapping, every empty trailing positional parameter its default. *)
Definition after_kw_post (self : mp_obj_fun_bc_t) (n : nat) (m : mem) (_ : unit) (m' : mem) : Prop :=
  steady n m m' ∧ heap m' = heap m
  ∧ (∀ j, n_pos_args self + n_kwonly_args self ≤ j → local m' j = local m j)
  ∧ (∀ j, 0 ≤ j < n_pos_args self - n_def_args self → local m j ≠ Some MP_OBJ_NULL)
  ∧ (∀ i, 0 ≤ i < n_kwonly_args self →
       ∃ x name, local m (n_pos_args self + i) = Some x
         ∧ arg_names self !! Z.to_nat (n_pos_args self + i) = Some name
         ∧ (x = MP_OBJ_NULL →
            ∃ v, def_kw_lookup self (heap m) name = Some v
                 ∧ local m' (n_pos_args self + i) = Some v))
  ∧ (∀ j, n_pos_args self - n_def_args self ≤ j < n_pos_args self →
       ∃ x, local m j = Some x
         ∧ local m' j
           = if decide (x = MP_OBJ_NULL)
             then extra_args self !! Z.to_nat (j - (n_pos_args self - n_def_args self))
             else Some x).

(** And when they raise: for the highest empty positional parameter without
    default, or else for the first empty keyword-only parameter without an
    entry in the default-keyword mapping. *)
Definition after_kw_exc (self : mp_obj_fun_bc_t) (n : nat) (m : mem) (e : exc) (m' : mem) : Prop :=
  steady n m m' ∧ heap m' = heap m
  ∧ ((∃ j, 0 ≤ j < n_pos_args self - n_def_args self
        ∧ e = TypeError_missing_positional j
        ∧ local m j = Some MP_OBJ_NULL
        ∧ ∀ j', j < j' < n_pos_args self - n_def_args self →
            local m j' ≠ Some MP_OBJ_NULL)
     ∨ (∃ i name, 0 ≤ i < n_kwonly_args self
          ∧ arg_names self !! Z.to_nat (n_pos_args self + i) = Some name
          ∧ e = TypeError_missing_keyword name
          ∧ local m (n_pos_args self + i) = Some MP_OBJ_NULL
          ∧ def_kw_lookup self (heap m) name = None)).

(** How the prelude leaves the memory. *)
Definition prelude_post (N : Z) (closed : list Z) (m : mem) (m' : mem) : Prop :=
  shaped N m'
  ∧ frame_log m' = frame_log m
  ∧ mp_globals m' = mp_globals m
  ∧ heap m `prefix_of` heap m'
  ∧ ∀ j, 0 ≤ j < N → ∃ x, local m j = Some x ∧ bound closed m' j = Some x.

(** The arity error. *)
Definition is_arity_error (e : exc) : Prop :=
  ∃ expected given, e = TypeError_pos_args_mismatch expected given.

(** [def f(a, *args)]. *)
Definition f_a_star : mp_obj_fun_bc_t :=
  {| globals := mp_const_none;
     n_pos_args := 1; n_kwonly_args := 0; n_def_args := 0;
     has_def_kw_args := false; takes_var_args := true; takes_kw_args := false;
     bytecode := code_plain 2;
     arg_names := [MP_QSTR_a];
     extra_args := [] |}.

(** A function without parameters whose frame is too large for the stack
    of a 32-bit target: 11 slots of 4 bytes against the limit of 40. *)
Definition f_big : mp_obj_fun_bc_t :=
  {| globals := mp_const_none;
     n_pos_args := 0; n_kwonly_args := 0; n_def_args := 0;
     has_def_kw_args := false; takes_var_args := false; takes_kw_args := false;
     bytecode := code_plain 11;
     arg_names := [];
     extra_args := [] |}.

(** A memory without frame. *)
Definition m_idle : mem := Mem [] (Code_state [] 0 0 0 0 []) mp_const_none [].

(** [quiet_at c m]: run from [m], [c] leaves the log of the frame allocator
    as it is, and if it raises, it raises an error of its own, not an
    exception object of the byte code engine. *)
Definition quiet_at {A : Type} (c : M A) (m : mem) : Prop :=
  wpg True c m
    (λ _ m', frame_log m' = frame_log m)
    (λ e m', frame_log m' = frame_log m ∧ ∀ o, e ≠ Exc_object o).

Definition quiet {A : Type} (c : M A) : Prop := ∀ m, quiet_at c m.

(** A keyword pair of the call names parameter [j]. *)
Definition kw_supplies (self : mp_obj_fun_bc_t) (kws : list (qstr * mp_obj_t)) (j : Z) : Prop :=
  ∃ q v, (q, v) ∈ kws ∧ param_index self q = Some j.

(** The keyword pairs can all be bound after [k] positional arguments: the
    names are distinct, the values are objects, a name of the table denotes
    a parameter that no positional argument fills, and a name outside it is
    allowed by the variadic-keyword flag. *)
Definition kws_bindable (self : mp_obj_fun_bc_t) (k : Z) (kws : list (qstr * mp_obj_t)) : Prop :=
  NoDup kws.*1
  ∧ Forall (λ kv, kv.2 ≠ MP_OBJ_NULL) kws
  ∧ ∀ q v, (q, v) ∈ kws →
      match param_index self q with
      | Some j => Z.min k (n_pos_args self) ≤ j
      | None => takes_kw_args self = true
      end.


(** ** The steps of [fun_bc_call] *)

(** The memory in which [fun_bc_call] starts argument binding: the new
    frame, announced to the allocator as [e], with [n_state] and [ip] filled
    in. *)
Definition call_entry (m : mem) (e : frame_event) (n_state ip : Z) : mem :=
  set_frame (log_frame m e)
    (Code_state [] ip 0 0 n_state (replicate (Z.to_nat n_state) MP_OBJ_NULL)).

(** The allocator event for a frame of [state_size] bytes. *)
Definition frame_alloc (sizeof_mp_uint_t state_size : Z) : frame_event :=
  if state_size >? VM_MAX_STATE_ON_STACK sizeof_mp_uint_t
  then Ev_m_new_obj_var state_size
  else Ev_alloca state_size.

(** What [fun_bc_call] does once the arguments are bound. *)
Definition call_body (sizeof_mp_uint_t : Z)
    (mp_execute_bytecode : mp_obj_t → list heap_obj → mp_obj_t → mp_code_state →
                           mp_vm_return_kind_t * list heap_obj * mp_code_state)
    (self : mp_obj_fun_bc_t) (n_state state_size : Z) : M mp_obj_t :=
  old_globals ← mp_globals_get;
  _ ← mp_globals_set (globals self);
  vm_return_kind ← execute_bytecode mp_execute_bytecode MP_OBJ_NULL;
  _ ← mp_globals_set old_globals;
  '(result, vm_return_kind) ←
    match vm_return_kind with
    | MP_VM_RETURN_NORMAL =>
        m ← get_mem;
        result ← state_get (sp (frame m));
        mret (result, MP_VM_RETURN_NORMAL)
    | MP_VM_RETURN_EXCEPTION =>
        result ← state_get (n_state - 1);
        mret (result, MP_VM_RETURN_EXCEPTION)
    | MP_VM_RETURN_YIELD => assert_fail
    end;
  _ ← (if state_size >? VM_MAX_STATE_ON_STACK sizeof_mp_uint_t
       then m_del_var state_size else mret tt);
  match vm_return_kind with
  | MP_VM_RETURN_NORMAL => mret result
  | _ => nlr_raise (Exc_object result)
  end.

(** A computation leaves the memory as it is when it raises. *)
Definition same_globals (m m' : mem) : Prop := mp_globals m' = mp_globals m.

(** [c->state[i]], if [i] is an index of the array. *)
Definition slot (c : mp_code_state) (i : Z) : option mp_obj_t :=
  if 0 <=? i then state c !! Z.to_nat i else None.

(** The memory when [fun_bc_call] is left after the engine has run: heap
    and frame as the engine left them, the globals of the caller, and the
    frame released if it was taken from the heap. *)
Definition call_exit (sizeof_mp_uint_t state_size : Z) (m3 : mem)
    (h : list heap_obj) (c : mp_code_state) : mem :=
  let m4 := Mem h c (mp_globals m3) (frame_log m3) in
  if state_size >? VM_MAX_STATE_ON_STACK sizeof_mp_uint_t
  then log_frame m4 (Ev_m_del_var state_size) else m4.

(** [keeps R c]: however [c] ends, the memory it leaves is related by [R]
    to the one it started in. *)
Definition keeps (R : mem → mem → Prop) {A : Type} (c : M A) : Prop :=
  ∀ m, wpg True c m (λ _ m', R m m') (λ _ m', R m m').

(** The fields of the frame that argument binding sets once and then
    leaves alone. *)
Definition same_frame_fields (m m' : mem) : Prop :=
  code_info (frame m') = code_info (frame m)
  ∧ sp (frame m') = sp (frame m)
  ∧ exc_sp (frame m') = exc_sp (frame m)
  ∧ n_state (frame m') = n_state (frame m).

(** Two engines for the examples: byte code that returns its first local,
    and byte code that raises its first local. *)
Definition engine_return_local0 (inject_exc : mp_obj_t) (h : list heap_obj) (g : mp_obj_t)
    (c : mp_code_state) : mp_vm_return_kind_t * list heap_obj * mp_code_state :=
  (MP_VM_RETURN_NORMAL, h,
   Code_state (code_info c) (ip c) (n_state c - 1) (exc_sp c) (n_state c) (state c)).

Definition engine_raise_local0 (inject_exc : mp_obj_t) (h : list heap_obj) (g : mp_obj_t)
    (c : mp_code_state) : mp_vm_return_kind_t * list heap_obj * mp_code_state :=
  (MP_VM_RETURN_EXCEPTION, h, c).

(** The memory after [def f(a)] has bound the argument 7 in a fresh stack
    frame, and the frame in which [engine_return_local0] returns. *)
Definition m_bound_7 : mem :=
  Mem [] (Code_state (code_plain 2) 9 (-1) (-1) 2 [MP_OBJ_NULL; MP_OBJ_NEW_SMALL_INT 7])
      mp_const_none [Ev_alloca 8].

Definition c_return_7 : mp_code_state :=
  Code_state (code_plain 2) 9 1 (-1) 2 [MP_OBJ_NULL; MP_OBJ_NEW_SMALL_INT 7].

(** ** Native functions *)

(** The items of a tuple object: the shared empty tuple has none, a tuple
    on the heap has those of its block. *)
Definition tuple_items (h : list heap_obj) (o : mp_obj_t) : option (list mp_obj_t) :=
  match o with
  | mp_const_empty_tuple => Some []
  | MP_OBJ_PTR a =>
      match h !! a with
      | Some (mp_obj_tuple_t items) => Some items
      | _ => None
      end
  | _ => None
  end.

Module fun_native.

(** What the [fun] pointer of a native function object points to.  C
    keeps a [void *] and casts it to one of six function types
    ([mp_fun_0_t] .. [mp_fun_3_t], [mp_fun_var_t], [mp_fun_kw_t]); here the
    code carries its type, and a call through a cast to another type is
    undefined, as in C.  A keyword function receives the map laid over the
    pairs that follow the positional arguments; it is given as that table. *)
Inductive native_code : Type :=
  | Fun_0 (f : M mp_obj_t)
  | Fun_1 (f : mp_obj_t → M mp_obj_t)
  | Fun_2 (f : mp_obj_t → mp_obj_t → M mp_obj_t)
  | Fun_3 (f : mp_obj_t → mp_obj_t → mp_obj_t → M mp_obj_t)
  | Fun_var (f : Z → list mp_obj_t → M mp_obj_t)
  | Fun_kw (f : Z → list mp_obj_t → list mp_obj_t → M mp_obj_t).

(** [mp_obj_fun_native_t] (obj.h). *)
Record mp_obj_fun_native_t : Type := Fun_native {
  is_kw : bool;
  n_args_min : Z;
  n_args_max : Z;
  fun_ : native_code
}.

End fun_native.

Section fun_native_call.

Import fun_native.

(** The largest argument count a function object can announce (obj.h). *)
Variable MP_OBJ_FUN_ARGS_MAX : Z.

(** The casts of [fun] and the calls through them. *)
Definition call_mp_fun_0 (c : native_code) : M mp_obj_t :=
  match c with Fun_0 f => f | _ => undefined end.
Definition call_mp_fun_1 (c : native_code) (a0 : mp_obj_t) : M mp_obj_t :=
  match c with Fun_1 f => f a0 | _ => undefined end.
Definition call_mp_fun_2 (c : native_code) (a0 a1 : mp_obj_t) : M mp_obj_t :=
  match c with Fun_2 f => f a0 a1 | _ => undefined end.
Definition call_mp_fun_3 (c : native_code) (a0 a1 a2 : mp_obj_t) : M mp_obj_t :=
  match c with Fun_3 f => f a0 a1 a2 | _ => undefined end.
Definition call_mp_fun_var (c : native_code) (n_args : Z) (args : list mp_obj_t) : M mp_obj_t :=
  match c with Fun_var f => f n_args args | _ => undefined end.
Definition call_mp_fun_kw (c : native_code) (n_args : Z) (args kw_args : list mp_obj_t) :
    M mp_obj_t :=
  match c with Fun_kw f => f n_args args kw_args | _ => undefined end.

(** Modelled from the spec: [mp_map_init_fixed_table] (map.c), "a temporary
    fixed-size name→value map built directly over the trailing keyword
    pairs, no copy": the [n] pairs from [table] on. *)
Definition mp_map_init_fixed_table (n : Z) (table : list mp_obj_t) : list mp_obj_t :=
  take (Z.to_nat (2 * n)) table.

(** [fun_native_call]. *)
Definition fun_native_call (self : mp_obj_fun_native_t) (n_args n_kw : Z)
    (args : list mp_obj_t) : M mp_obj_t :=
  (* check number of arguments *)
  _ ← mp_arg_check_num n_args n_kw (n_args_min self) (n_args_max self) (is_kw self);
  if is_kw self then
    (* function allows keywords; we create a map directly from the given args array *)
    let kw_args := mp_map_init_fixed_table n_kw (drop (Z.to_nat n_args) args) in
    call_mp_fun_kw (fun_ self) n_args args kw_args
  else if (n_args_min self <=? 3) && (n_args_min self =? n_args_max self) then
    (* function requires a fixed number of arguments; dispatch function call *)
    match n_args_min self with
    | 0 => call_mp_fun_0 (fun_ self)
    | 1 =>
        a0 ← array_get args 0;
        call_mp_fun_1 (fun_ self) a0
    | 2 =>
        a0 ← array_get args 0;
        a1 ← array_get args 1;
        call_mp_fun_2 (fun_ self) a0 a1
    | 3 =>
        a0 ← array_get args 0;
        a1 ← array_get args 1;
        a2 ← array_get args 2;
        call_mp_fun_3 (fun_ self) a0 a1 a2
    | _ => assert_fail
    end
  else
    (* function takes a variable number of arguments, but no keywords *)
    call_mp_fun_var (fun_ self) n_args args.

(** The three constructors.  The object is a new block of its own; the
    heap of tuples, dicts and cells is not involved. *)
Definition mp_make_function_n (n_args : Z) (f : native_code) : mp_obj_fun_native_t :=
  {| is_kw := false; n_args_min := n_args; n_args_max := n_args; fun_ := f |}.

Definition mp_make_function_var (n_args_min : Z) (f : native_code) : mp_obj_fun_native_t :=
  {| is_kw := false; n_args_min := n_args_min; n_args_max := MP_OBJ_FUN_ARGS_MAX;
     fun_ := f |}.

Definition mp_make_function_var_between (n_args_min n_args_max : Z) (f : native_code) :
    mp_obj_fun_native_t :=
  {| is_kw := false; n_args_min := n_args_min; n_args_max := n_args_max; fun_ := f |}.

End fun_native_call.

(** The number of arguments a native code of fixed arity takes, and its
    call on the arguments given as a list. *)
Definition native_arity (c : fun_native.native_code) : option Z :=
  match c with
  | fun_native.Fun_0 _ => Some 0
  | fun_native.Fun_1 _ => Some 1
  | fun_native.Fun_2 _ => Some 2
  | fun_native.Fun_3 _ => Some 3
  | _ => None
  end.

Definition native_apply (c : fun_native.native_code) (args : list mp_obj_t) : M mp_obj_t :=
  match c, args with
  | fun_native.Fun_0 f, [] => f
  | fun_native.Fun_1 f, [a0] => f a0
  | fun_native.Fun_2 f, [a0; a1] => f a0 a1
  | fun_native.Fun_3 f, [a0; a1; a2] => f a0 a1 a2
  | _, _ => undefined
  end.

(** A native function of two arguments that returns its second one. *)
Definition native_second : fun_native.native_code :=
  fun_native.Fun_2 (λ a0 a1, mret a1).

(** A variadic native function that returns the number of its arguments. *)
Definition native_count : fun_native.native_code :=
  fun_native.Fun_var (λ n_args args, mret (MP_OBJ_NEW_SMALL_INT n_args)).

(** ** Tuples (py/objtuple.c) *)

(** A signed and an unsigned machine integer of [w] bits: arithmetic wraps
    around. *)
Definition sint (w x : Z) : Z := (x + 2 ^ (w - 1)) mod 2 ^ w - 2 ^ (w - 1).
Definition uintw (w x : Z) : Z := x mod 2 ^ w.

(** The macro [MP_OBJ_NEW_SMALL_INT] of obj.h applied to an integer of
    [word] bits: it shifts the integer left by one bit and sets the tag
    bit, so the top bit of the word is lost.  The object it makes is the
    small integer of the low [word - 1] bits, read as a signed number. *)
Definition new_small_int (word x : Z) : mp_obj_t :=
  MP_OBJ_NEW_SMALL_INT (sint (word - 1) x).

(** Reading the tuple behind a pointer that is taken to be one: the
    fields [len] and [items] after the cast to a tuple pointer. *)
Definition tuple_of (o : mp_obj_t) : M (list mp_obj_t) := λ m,
  match tuple_items (heap m) o with
  | Some items => Ok items m
  | None => Undefined
  end.

(** [MP_OBJ_IS_TYPE(o, &mp_type_tuple)]: [o] points to an object, and the
    object is a tuple.  The macro looks behind every pointer, the null
    pointer included. *)
Definition is_tuple (o : mp_obj_t) : M bool := λ m,
  match o with
  | MP_OBJ_NULL => Undefined
  | MP_OBJ_NEW_SMALL_INT _ | MP_OBJ_NEW_QSTR _ | mp_const_none => Ok false m
  | mp_const_empty_tuple => Ok true m
  | MP_OBJ_PTR a =>
      match heap m !! a with
      | Some (mp_obj_tuple_t _) => Ok true m
      | Some _ => Ok false m
      | None => Undefined
      end
  end.

(** [mp_obj_tuple_get]: the length and the items, through the two output
    parameters. *)
Definition mp_obj_tuple_get (self_in : mp_obj_t) : M (Z * list mp_obj_t) :=
  t ← is_tuple self_in;
  if negb t then assert_fail
  else
    items ← tuple_of self_in;
    mret (Z.of_nat (length items), items).

Module tuple_it.

(** [mp_obj_tuple_it_t]: the tuple and the index of the next item. *)
Record mp_obj_tuple_it_t : Type := Tuple_it {
  tuple : mp_obj_t;
  cur : Z
}.

End tuple_it.

Section tuple.

Import tuple_it.

(** The width of [mp_int_t] and [mp_uint_t], the object that signals the
    end of an iteration, and collaborators from the object model:
    [mp_obj_hash] (obj.c), [mp_getiter] and [mp_iternext] (runtime.c), and
    the address of the shared empty tuple. *)
Variable word : Z.
Variable MP_OBJ_STOP_ITERATION : mp_obj_t.
Variable mp_obj_hash : mp_obj_t → M Z.
Variable mp_getiter : mp_obj_t → M mp_obj_t.
Variable mp_iternext : mp_obj_t → M mp_obj_t.
Variable addr_of_empty_tuple : Z.

(** [mp_obj_tuple_hash]; the loop is over the items in their order. *)
Fixpoint tuple_hash_loop (items : list mp_obj_t) (hash : Z) : M Z :=
  match items with
  | [] => mret hash
  | x :: items' =>
      h ← mp_obj_hash x;
      tuple_hash_loop items' (sint word (hash + h))
  end.

Definition mp_obj_tuple_hash (self_in : mp_obj_t) : M Z :=
  t ← is_tuple self_in;
  if negb t then assert_fail
  else
    items ← tuple_of self_in;
    (* start hash with pointer to empty tuple, to make it fairly unique *)
    tuple_hash_loop items (sint word addr_of_empty_tuple).

(** The tuple iterator.  The iterator object is passed in and handed back
    with its new [cur]. *)
Definition tuple_it_iternext (self : mp_obj_tuple_it_t) : M (mp_obj_t * mp_obj_tuple_it_t) :=
  items ← tuple_of (tuple self);
  if cur self <? Z.of_nat (length items) then
    o_out ← array_get items (cur self);
    mret (o_out, Tuple_it (tuple self) (uintw word (cur self + 1)))
  else mret (MP_OBJ_STOP_ITERATION, self).

Definition mp_obj_new_tuple_iterator (tuple : mp_obj_t) (cur : Z) : mp_obj_tuple_it_t :=
  Tuple_it tuple (uintw word cur).

Definition mp_obj_tuple_getiter (o_in : mp_obj_t) : mp_obj_tuple_it_t :=
  mp_obj_new_tuple_iterator o_in 0.

(** [n] calls of [tuple_it_iternext], with what they return. *)
Fixpoint tuple_it_take (n : nat) (self : mp_obj_tuple_it_t) :
    M (list mp_obj_t * mp_obj_tuple_it_t) :=
  match n with
  | O => mret ([], self)
  | S n' =>
      '(o, self) ← tuple_it_iternext self;
      '(l, self) ← tuple_it_take n' self;
      mret (o :: l, self)
  end.

(** Modelled from the spec: the allocator's [m_new] and [m_renew] (misc.h),
    "allocate/free primitives": a block of [n] slots with nothing in them,
    and the block grown to [new_n] slots with its content kept. *)
Definition m_new (n : Z) : list mp_obj_t := replicate (Z.to_nat n) MP_OBJ_NULL.
Definition m_renew (items : list mp_obj_t) (old_n new_n : Z) : list mp_obj_t :=
  take (Z.to_nat new_n) (items ++ replicate (Z.to_nat new_n) MP_OBJ_NULL).

(** [items[i] = v] in a block. *)
Definition block_put (items : list mp_obj_t) (i : Z) (v : mp_obj_t) : M (list mp_obj_t) :=
  if (0 <=? i) && (i <? Z.of_nat (length items))
  then mret (<[Z.to_nat i := v]> items)
  else undefined.

(** The loop of [mp_obj_tuple_make_new] that collects the items of the
    iterable in a block that doubles when it is full.  [fuel] bounds the
    number of rounds; [None] says that it ran out. *)
Fixpoint tuple_collect (fuel : nat) (iterable : mp_obj_t) (items : list mp_obj_t)
    (alloc len : Z) : M (option (list mp_obj_t * Z * Z)) :=
  match fuel with
  | O => mret None
  | S fuel' =>
      item ← mp_iternext iterable;
      if decide (item ≠ MP_OBJ_STOP_ITERATION) then
        '(items, alloc) ←
          (if len >=? alloc
           then mret (m_renew items alloc (uint (alloc * 2)), uint (alloc * 2))
           else mret (items, alloc));
        items ← block_put items len item;
        tuple_collect fuel' iterable items alloc (uint (len + 1))
      else mret (Some (items, alloc, len))
  end.

(** [mp_obj_tuple_make_new]. *)
Definition mp_obj_tuple_make_new (fuel : nat) (n_args n_kw : Z) (args : list mp_obj_t) :
    M (option mp_obj_t) :=
  _ ← mp_arg_check_num n_args n_kw 0 1 false;
  if n_args =? 0 then
    (* return a empty tuple *)
    mret (Some mp_const_empty_tuple)
  else
    (* 1 argument, an iterable from which we make a new tuple *)
    a0 ← array_get args 0;
    t ← is_tuple a0;
    if (t : bool) then mret (Some a0)
    else
      let alloc := 4 in
      let len := 0 in
      let items := m_new alloc in
      iterable ← mp_getiter a0;
      r ← tuple_collect fuel iterable items alloc len;
      match r with
      | Some (items, alloc, len) =>
          tuple ← mp_obj_new_tuple len items;
          mret (Some tuple)
      | None => mret None
      end.

(** The iterator [it] hands out the items [l] and then signals the end. *)
Fixpoint yields (it : mp_obj_t) (l : list mp_obj_t) (m m' : mem) : Prop :=
  match l with
  | [] => mp_iternext it m = Ok MP_OBJ_STOP_ITERATION m'
  | x :: l' =>
      x ≠ MP_OBJ_STOP_ITERATION
      ∧ ∃ m1, mp_iternext it m = Ok x m1 ∧ yields it l' m1 m'
  end.

End tuple.

(** An iterator for the examples: a cell that holds a small integer counts
    up to 2, handing out the numbers below it; the null object signals the
    end. *)
Definition counter_next (it : mp_obj_t) : M mp_obj_t := λ m,
  match it with
  | MP_OBJ_PTR a =>
      match heap m !! a with
      | Some (mp_obj_cell_t (MP_OBJ_NEW_SMALL_INT n)) =>
          if n <? 2
          then Ok (MP_OBJ_NEW_SMALL_INT n)
                  (set_heap m (<[a := mp_obj_cell_t (MP_OBJ_NEW_SMALL_INT (n + 1))]> (heap m)))
          else Ok MP_OBJ_NULL m
      | _ => Undefined
      end
  | _ => Undefined
  end.

(** A memory whose heap holds such a counter at 0, and one whose heap
    holds the tuple [(1, 2)]. *)
Definition m_counter : mem :=
  Mem [mp_obj_cell_t (MP_OBJ_NEW_SMALL_INT 0)] (Code_state [] 0 0 0 0 []) mp_const_none [].

Definition m_pair : mem :=
  Mem [mp_obj_tuple_t [MP_OBJ_NEW_SMALL_INT 1; MP_OBJ_NEW_SMALL_INT 2]]
      (Code_state [] 0 0 0 0 []) mp_const_none [].

(** The sum of the hashes of the items. *)
Definition hash_sum (hv : mp_obj_t → Z) (items : list mp_obj_t) : Z :=
  foldr (λ x s, hv x + s) 0 items.

(** The counter once it has counted to its end. *)
Definition m_counter_done : mem :=
  Mem [mp_obj_cell_t (MP_OBJ_NEW_SMALL_INT 2)] (Code_state [] 0 0 0 0 []) mp_const_none [].

(** ** Ranges (py/objrange.c) *)

(** Operators of [mp_unary_op_t] (runtime0.h). *)
Inductive mp_unary_op_t : Type :=
  | MP_UNARY_OP_BOOL
  | MP_UNARY_OP_LEN
  | MP_UNARY_OP_POSITIVE
  | MP_UNARY_OP_NEGATIVE
  | MP_UNARY_OP_INVERT
  | MP_UNARY_OP_NOT.

Module range_it.

(** [mp_obj_range_it_t]. *)
Record mp_obj_range_it_t : Type := Range_it {
  cur : Z;
  stop : Z;
  step : Z
}.

End range_it.

Module range.

(** [mp_obj_range_t]. *)
Record mp_obj_range_t : Type := Range {
  start : Z;
  stop : Z;
  step : Z
}.

(** What a subscript of a range gives: an object, or a range that is new. *)
Inductive subscr_result : Type :=
  | Obj (o : mp_obj_t)
  | New_range (r : mp_obj_range_t).

End range.

(** [x] is a value of a signed integer of [w] bits. *)
Definition fits (w x : Z) : Prop := - 2 ^ (w - 1) ≤ x < 2 ^ (w - 1).

Section range.

(** The width of [mp_int_t]; the objects [MP_OBJ_STOP_ITERATION],
    [MP_OBJ_SENTINEL], [mp_const_true] and [mp_const_false] (obj.h); whether
    slices are built in ([MICROPY_PY_BUILTINS_SLICE]); and collaborators from
    the object model: [mp_obj_get_int] and [mp_get_index] (obj.c), the test
    for a slice object and [mp_seq_get_fast_slice_indexes] (sequence.c), which
    gives the bounds and the step of a slice for a sequence of some
    length. *)
Variable word : Z.
Variable MP_OBJ_STOP_ITERATION MP_OBJ_SENTINEL mp_const_true mp_const_false : mp_obj_t.
Variable MICROPY_PY_BUILTINS_SLICE : bool.
Variable mp_obj_get_int : mp_obj_t → M Z.
Variable mp_get_index : Z → mp_obj_t → M Z.
Variable is_slice : mp_obj_t → M bool.
Variable mp_seq_get_fast_slice_indexes : Z → mp_obj_t → M (bool * (Z * Z * Z)).

Definition MP_BOOL (b : bool) : mp_obj_t := if b then mp_const_true else mp_const_false.

(** [range_it_iternext]: the iterator is passed in and handed back. *)
Definition range_it_iternext (o : range_it.mp_obj_range_it_t) :
    mp_obj_t * range_it.mp_obj_range_it_t :=
  if (0 <? range_it.step o) && (range_it.cur o <? range_it.stop o)
     || (range_it.step o <? 0) && (range_it.cur o >? range_it.stop o)
  then
    let o_out := new_small_int word (range_it.cur o) in
    (o_out, range_it.Range_it (sint word (range_it.cur o + range_it.step o))
              (range_it.stop o) (range_it.step o))
  else (MP_OBJ_STOP_ITERATION, o).

(** [mp_obj_new_range_iterator]; its parameters are C [int]s. *)
Definition mp_obj_new_range_iterator (cur stop step : Z) : range_it.mp_obj_range_it_t :=
  range_it.Range_it cur stop step.

(** [range_make_new]. *)
Definition range_make_new (n_args n_kw : Z) (args : list mp_obj_t) : M range.mp_obj_range_t :=
  _ ← mp_arg_check_num n_args n_kw 1 3 false;
  let o_start := 0 in
  let o_step := 1 in
  if n_args =? 1 then
    a0 ← array_get args 0;
    o_stop ← mp_obj_get_int a0;
    mret (range.Range o_start o_stop o_step)
  else
    a0 ← array_get args 0;
    o_start ← mp_obj_get_int a0;
    a1 ← array_get args 1;
    o_stop ← mp_obj_get_int a1;
    if n_args =? 3 then
      a2 ← array_get args 2;
      o_step ← mp_obj_get_int a2;
      mret (range.Range o_start o_stop o_step)
    else mret (range.Range o_start o_stop o_step).

(** [range_len].  The division is C's, which truncates; it is undefined
    for a zero step and for the least integer divided by -1. *)
Definition range_len (self : range.mp_obj_range_t) : option Z :=
  (* When computing length, need to take into account step!=1 and step<0. *)
  let len := sint word (sint word (range.stop self - range.start self) + range.step self) in
  let len := if range.step self >? 0 then sint word (len - 1) else sint word (len + 1) in
  if (range.step self =? 0) || (len =? - 2 ^ (word - 1)) && (range.step self =? -1)
  then None
  else
    let len := Z.quot len (range.step self) in
    Some (if len <? 0 then 0 else len).

(** [range_unary_op]; the length is computed first, whatever [op] is. *)
Definition range_unary_op (op : mp_unary_op_t) (self : range.mp_obj_range_t) :
    option mp_obj_t :=
  len ← range_len self;
  match op with
  | MP_UNARY_OP_BOOL => Some (MP_BOOL (len >? 0))
  | MP_UNARY_OP_LEN => Some (new_small_int word len)
  | _ => Some MP_OBJ_NULL (* op not supported *)
  end.

(** [range_subscr]. *)
Definition range_subscr (self : range.mp_obj_range_t) (index value : mp_obj_t) :
    M range.subscr_result :=
  if decide (value = MP_OBJ_SENTINEL) then
    (* load *)
    match range_len self with
    | None => undefined
    | Some len =>
        sl ← (if MICROPY_PY_BUILTINS_SLICE then is_slice index else mret false);
        if (sl : bool) then
          '(_, (slice_start, slice_stop, slice_step)) ←
            mp_seq_get_fast_slice_indexes len index;
          mret (range.New_range (range.Range slice_start slice_stop slice_step))
        else
          index_val ← mp_get_index len index;
          let index_val := uint index_val in
          mret (range.Obj
                  (new_small_int word
                     (sint word (range.start self + index_val * range.step self))))
    end
  else mret (range.Obj MP_OBJ_NULL) (* op not supported *).

(** [range_getiter]: the fields are passed as C [int]s. *)
Definition range_getiter (o : range.mp_obj_range_t) : range_it.mp_obj_range_it_t :=
  mp_obj_new_range_iterator (sint 32 (range.start o)) (sint 32 (range.stop o))
    (sint 32 (range.step o)).


End range.



(** ** Subscripts of a tuple, and [reversed] (py/objreversed.c) *)

Module reversed.

(** [mp_obj_reversed_t]: the sequence, and the current index plus 1. *)
Record mp_obj_reversed_t : Type := Reversed {
  seq : mp_obj_t;
  cur_index : Z
}.

End reversed.

Section subscr.

(** The width of [mp_uint_t]; objects and the configuration flag as above;
    [mp_get_index], the test for a slice and
    [mp_seq_get_fast_slice_indexes]; the exception raised for a slice with a
    step; and, for [reversed], [mp_obj_len], [mp_obj_get_int] and the
    subscript of any object, [mp_obj_subscr] (obj.c). *)
Variable word : Z.
Variable MP_OBJ_STOP_ITERATION MP_OBJ_SENTINEL : mp_obj_t.
Variable MICROPY_PY_BUILTINS_SLICE : bool.
Variable mp_get_index : Z → mp_obj_t → M Z.
Variable is_slice : mp_obj_t → M bool.
Variable mp_seq_get_fast_slice_indexes : Z → mp_obj_t → M (bool * (Z * Z * Z)).
Variable NotImplementedError_slice_step : exc.
Variable mp_obj_len : mp_obj_t → M mp_obj_t.
Variable mp_obj_get_int : mp_obj_t → M Z.
Variable mp_obj_subscr : mp_obj_t → mp_obj_t → mp_obj_t → M mp_obj_t.

(** [mp_obj_tuple_subscr].  The new tuple of a slice is made without items
    and then filled from the items of [self], from [slice.start] on. *)
Definition mp_obj_tuple_subscr (self_in index value : mp_obj_t) : M mp_obj_t :=
  if decide (value = MP_OBJ_SENTINEL) then
    (* load *)
    items ← tuple_of self_in;
    let len := Z.of_nat (length items) in
    sl ← (if MICROPY_PY_BUILTINS_SLICE then is_slice index else mret false);
    if (sl : bool) then
      '(ok, (slice_start, slice_stop, slice_step)) ←
        mp_seq_get_fast_slice_indexes len index;
      if negb ok then nlr_raise NotImplementedError_slice_step
      else
        let n := uint (slice_stop - slice_start) in
        if n =? 0 then mret mp_const_empty_tuple
        else
          items ← tuple_of self_in;
          if (0 <=? slice_start) && (slice_start + n <=? Z.of_nat (length items))
          then m_new_obj (mp_obj_tuple_t
                            (take (Z.to_nat n) (drop (Z.to_nat slice_start) items)))
          else undefined
    else
      index_value ← mp_get_index len index;
      let index_value := uint index_value in
      items ← tuple_of self_in;
      array_get items index_value
  else mret MP_OBJ_NULL (* op not supported *).

(** [reversed_make_new]: the new object is handed back as a value, with the
    sequence and the index at which it starts. *)
Definition reversed_make_new (n_args n_kw : Z) (args : list mp_obj_t) :
    M reversed.mp_obj_reversed_t :=
  _ ← mp_arg_check_num n_args n_kw 1 1 false;
  a0 ← array_get args 0;
  len ← mp_obj_len a0;
  n ← mp_obj_get_int len;
  (* start at the end of the sequence *)
  mret (reversed.Reversed a0 (uintw word n)).

(** [reversed_iternext]: the object as the call leaves it, which is settled
    before the sequence is asked for its item, and what the call then
    does. *)
Definition reversed_iternext (self : reversed.mp_obj_reversed_t) :
    reversed.mp_obj_reversed_t * M mp_obj_t :=
  (* "raise" stop iteration if we are at the end (the start) of the sequence *)
  if reversed.cur_index self =? 0 then (self, mret MP_OBJ_STOP_ITERATION)
  else
    (* pre-decrement and index sequence *)
    let self := reversed.Reversed (reversed.seq self)
                  (uintw word (reversed.cur_index self - 1)) in
    (self, mp_obj_subscr (reversed.seq self)
             (new_small_int word (reversed.cur_index self)) MP_OBJ_SENTINEL).

(** [n] calls of [reversed_iternext], with what they return. *)
Fixpoint reversed_take (n : nat) (self : reversed.mp_obj_reversed_t) :
    M (list mp_obj_t * reversed.mp_obj_reversed_t) :=
  match n with
  | O => mret ([], self)
  | S n' =>
      x ← (reversed_iternext self).2;
      '(l, self) ← reversed_take n' (reversed_iternext self).1;
      mret (x :: l, self)
  end.

End subscr.

(** An index object for the examples: a small integer within the length. *)
Definition index_small_int (len : Z) (index : mp_obj_t) : M Z :=
  match index with
  | MP_OBJ_NEW_SMALL_INT i => if (0 <=? i) && (i <? len) then mret i else undefined
  | _ => undefined
  end.
Section wpg_rules.
Context {u : Prop}.

Lemma wp_ret {A : Type} (a : A) m Q E : Q a m → wpg u (mret a) m Q E.
Proof. done. Qed.

Lemma wp_bind {A B : Type} (c : M A) (f : A → M B) m Q E :
  wpg u c m (λ a m', wpg u (f a) m' Q E) E → wpg u (c ≫= f) m Q E.
Proof.
  unfold wpg, mbind, M_bind. by destruct (c m).
Qed.

Lemma wp_mono {A : Type} (c : M A) m (Q Q' : A → mem → Prop) (E E' : exc → mem → Prop) :
  wpg u c m Q E → (∀ a m', Q a m' → Q' a m') → (∀ e m', E e m' → E' e m') →
  wpg u c m Q' E'.
Proof.
  unfold wpg. destruct (c m); auto.
Qed.

Lemma wp_raise {A : Type} e m (Q : A → mem → Prop) (E : exc → mem → Prop) :
  E e m → wpg u (nlr_raise e) m Q E.
Proof. done. Qed.

Lemma wp_get_mem m Q E : Q m m → wpg u get_mem m Q E.
Proof. done. Qed.

Lemma wp_put_mem m' m Q E : Q tt m' → wpg u (put_mem m') m Q E.
Proof. done. Qed.

Lemma wp_array_get {A : Type} (a : list A) i x m Q E :
  0 ≤ i → a !! Z.to_nat i = Some x → Q x m → wpg u (array_get a i) m Q E.
Proof.
  intros Hi Hx HQ. unfold wpg, array_get.
  destruct (Z.leb_spec 0 i); [|lia]. by rewrite Hx.
Qed.

Lemma wp_state_get i x m Q E :
  0 ≤ i → state (frame m) !! Z.to_nat i = Some x → Q x m → wpg u (state_get i) m Q E.
Proof. intros. unfold state_get. by eapply (wp_array_get (state (frame m))). Qed.

Lemma wp_state_put i v m (Q : unit → mem → Prop) E :
  0 ≤ i < Z.of_nat (length (state (frame m))) →
  Q tt (set_frame m (set_state (frame m) (<[Z.to_nat i := v]> (state (frame m))))) →
  wpg u (state_put i v) m Q E.
Proof.
  intros Hi HQ. unfold wpg, state_put.
  destruct (Z.leb_spec 0 i); [|lia].
  destruct (Z.ltb_spec i (Z.of_nat (length (state (frame m))))); [|lia].
  done.
Qed.

Lemma wp_m_new_obj o m Q E :
  Q (MP_OBJ_PTR (length (heap m))) (set_heap m (heap m ++ [o])) → wpg u (m_new_obj o) m Q E.
Proof. done. Qed.

(** A loop keeps an invariant that each round keeps. *)
Lemma wp_for_iter (I : Z → mem → Prop) (body : Z → M unit) E n i m :
  I i m →
  (∀ j m', i ≤ j < i + Z.of_nat n → I j m' → wpg u (body j) m' (λ _, I (j + 1)) E) →
  wpg u (for_iter n i body) m (λ _, I (i + Z.of_nat n)) E.
Proof.
  revert i m. induction n as [|n IH]; intros i m Hi Hbody.
  - simpl. apply wp_ret. by replace (i + Z.of_nat 0) with i by lia.
  - simpl. apply wp_bind. eapply wp_mono; [apply (Hbody i m); [lia|done]| |done].
    intros [] m' Hm'. simpl.
    replace (i + Z.of_nat (S n)) with ((i + 1) + Z.of_nat n) by lia.
    apply IH; [done|]. intros j m'' Hj. apply Hbody. lia.
Qed.

Lemma wp_for_loop (I : Z → mem → Prop) (body : Z → M unit) E lo hi m :
  lo ≤ hi →
  I lo m →
  (∀ j m', lo ≤ j < hi → I j m' → wpg u (body j) m' (λ _, I (j + 1)) E) →
  wpg u (for_loop lo hi body) m (λ _, I hi) E.
Proof.
  intros Hle HI Hbody. unfold for_loop.
  eapply wp_mono; [apply (wp_for_iter I body E); [done|]| |done].
  - intros j m' Hj. apply Hbody. lia.
  - intros [] m'. simpl. by replace (lo + Z.of_nat (Z.to_nat (hi - lo))) with hi by lia.
Qed.

End wpg_rules.

(** ** Too many positional arguments *)

Lemma setup_excess_raise self n_args n_kw args m :
  takes_var_args self = false →
  n_args > n_pos_args self →
  mp_setup_code_state self n_args n_kw args m
  = Raise (TypeError_pos_args_mismatch (n_pos_args self) n_args) (zeroed self m).
Proof.
  intros Hvar Hgt.
  unfold mp_setup_code_state, mbind, M_bind. simpl.
  destruct (Z.gtb_spec n_args (n_pos_args self)) as [_|]; [|lia].
  rewrite Hvar. reflexivity.
Qed.

(** C2.  A call with more positional arguments than the function has
    positional parameters, on a function without the variadic-positional flag,
    raises the arity error with expected = [n_pos_args] and given = [n_args],
    whatever the keyword part of [args] holds: the frame is left zeroed, no
    slot is bound and nothing is allocated, so no keyword pair was looked at. *)
Theorem excess_positional_raises (self : mp_obj_fun_bc_t) (n_args n_kw : Z)
    (args : list mp_obj_t) (m : mem) :
  takes_var_args self = false →
  n_args > n_pos_args self →
  ∃ m', mp_setup_code_state self n_args n_kw args m
        = Raise (TypeError_pos_args_mismatch (n_pos_args self) n_args) m'
      ∧ state (frame m') = replicate (Z.to_nat (n_state (frame m))) MP_OBJ_NULL
      ∧ heap m' = heap m.
Proof.
  intros Hvar Hgt. exists (zeroed self m).
  split; [by apply setup_excess_raise|]. done.
Qed.

Lemma excess_positional_raises_witness :
  takes_var_args f_abc = false ∧ 4 > n_pos_args f_abc
  ∧ ∃ m', mp_setup_code_state f_abc 4 1
            [MP_OBJ_NEW_SMALL_INT 1; MP_OBJ_NEW_SMALL_INT 2;
             MP_OBJ_NEW_SMALL_INT 3; MP_OBJ_NEW_SMALL_INT 4;
             MP_OBJ_NEW_QSTR MP_QSTR_x; MP_OBJ_NEW_SMALL_INT 5] m_abc
          = Raise (TypeError_pos_args_mismatch (n_pos_args f_abc) 4) m'
        ∧ state (frame m') = replicate (Z.to_nat (n_state (frame m_abc))) MP_OBJ_NULL
        ∧ heap m' = heap m_abc.
Proof.
  split; [reflexivity|]. split; [simpl; lia|].
  apply (excess_positional_raises f_abc 4 1); [reflexivity|simpl; lia].
Defined.

(** ** The scenario [def f(a, b, c=10)] *)

(** C4.  [f_abc] is the function object made for parameters (a, b, c) with
    the default 10 for c and no flags.  Called with [1, 2] it binds a = 1,
    b = 2, c = 10.  Called with [1] and c = 5 it binds a = 1 and c = 5 and
    raises "missing required positional argument #1", the number of b, whose
    slot is still null.  Called with [1, 2, 3, 4] it raises the arity error
    with expected 3 and given 4. *)
Theorem scenario_abc :
  mp_obj_new_fun_bc 0 [MP_QSTR_a; MP_QSTR_b; MP_QSTR_c] 3 0 (MP_OBJ_PTR 0%nat) MP_OBJ_NULL
    code_abc m_abc = Ok f_abc m_abc
  ∧ (∃ m', mp_setup_code_state f_abc 2 0
             [MP_OBJ_NEW_SMALL_INT 1; MP_OBJ_NEW_SMALL_INT 2] m_abc = Ok tt m'
         ∧ local m' 0 = Some (MP_OBJ_NEW_SMALL_INT 1)
         ∧ local m' 1 = Some (MP_OBJ_NEW_SMALL_INT 2)
         ∧ local m' 2 = Some (MP_OBJ_NEW_SMALL_INT 10))
  ∧ (∃ m', mp_setup_code_state f_abc 1 1
             [MP_OBJ_NEW_SMALL_INT 1; MP_OBJ_NEW_QSTR MP_QSTR_c; MP_OBJ_NEW_SMALL_INT 5] m_abc
           = Raise (TypeError_missing_positional 1) m'
         ∧ arg_names f_abc !! 1%nat = Some MP_QSTR_b
         ∧ local m' 0 = Some (MP_OBJ_NEW_SMALL_INT 1)
         ∧ local m' 1 = Some MP_OBJ_NULL
         ∧ local m' 2 = Some (MP_OBJ_NEW_SMALL_INT 5))
  ∧ (∃ m', mp_setup_code_state f_abc 4 0
             [MP_OBJ_NEW_SMALL_INT 1; MP_OBJ_NEW_SMALL_INT 2;
              MP_OBJ_NEW_SMALL_INT 3; MP_OBJ_NEW_SMALL_INT 4] m_abc
           = Raise (TypeError_pos_args_mismatch 3 4) m').
Proof.
  split; [reflexivity|].
  split; [eexists; split; [vm_compute; reflexivity|by vm_compute]|].
  split; [eexists; split; [vm_compute; reflexivity|by vm_compute]|].
  eexists. vm_compute. reflexivity.
Qed.

(** ** [mp_setup_code_state] block by block *)

Lemma mp_setup_code_state_blocks self n_args n_kw args m :
  mp_setup_code_state self n_args n_kw args m =
  ('(var_pos_kw_args, n_args') ←
     setup_check_positional self (n_state (frame m)) n_args n_kw args;
   _ ← setup_copy_positional (n_state (frame m)) n_args' args;
   _ ← setup_check_keywords self (n_state (frame m)) n_args n_kw args var_pos_kw_args;
   setup_prelude self (n_state (frame m)) (ip (frame m))) (zeroed self m).
Proof. reflexivity. Qed.

(** ** Slots of a frame *)

Lemma shaped_zeroed self m :
  0 ≤ n_state (frame m) → shaped (n_state (frame m)) (zeroed self m).
Proof.
  intros HN. split; [done|]. simpl. rewrite length_replicate. lia.
Qed.

Lemma local_lookup N m j :
  shaped N m → 0 ≤ j < N →
  local m j = state (frame m) !! Z.to_nat (N - 1 - j).
Proof.
  intros [HN _] Hj. unfold local. rewrite HN.
  destruct (Z.leb_spec 0 j); [|lia]. destruct (Z.ltb_spec j N); [|lia]. done.
Qed.

Lemma local_is_Some N m j :
  shaped N m → 0 ≤ j < N → ∃ x, local m j = Some x.
Proof.
  intros Hs Hj. rewrite (local_lookup N) by done.
  apply lookup_lt_is_Some. destruct Hs as [_ Hl]. lia.
Qed.

Lemma local_zeroed self m j :
  0 ≤ j < n_state (frame m) → local (zeroed self m) j = Some MP_OBJ_NULL.
Proof.
  intros Hj. rewrite (local_lookup (n_state (frame m))); [|apply shaped_zeroed; lia|done].
  simpl. apply lookup_replicate_2. lia.
Qed.

Lemma shaped_put_local N m j v : shaped N m → shaped N (put_local m j v).
Proof.
  intros [HN Hl]. split; [done|]. simpl. by rewrite length_insert.
Qed.

Lemma local_put_local_eq N m j v :
  shaped N m → 0 ≤ j < N → local (put_local m j v) j = Some v.
Proof.
  intros Hs Hj. rewrite (local_lookup N); [|by apply shaped_put_local|done].
  destruct Hs as [HN Hl]. simpl. rewrite HN.
  apply list_lookup_insert_eq. lia.
Qed.

Lemma local_put_local_ne N m j j' v :
  shaped N m → 0 ≤ j < N → j ≠ j' → local (put_local m j v) j' = local m j'.
Proof.
  intros Hs Hj Hne. unfold local. simpl.
  destruct ((0 <=? j') && (j' <? n_state (frame m))) eqn:Hr; [|done].
  apply andb_prop in Hr as [H1 H2].
  apply Z.leb_le in H1. apply Z.ltb_lt in H2.
  destruct Hs as [HN Hl]. apply list_lookup_insert_ne. lia.
Qed.

Lemma heap_put_local m j v : heap (put_local m j v) = heap m.
Proof. done. Qed.

Section slot_rules.
Context {u : Prop}.

Lemma wp_local_get N j m Q E :
  shaped N m → 0 ≤ j < N →
  (∀ x, local m j = Some x → Q x m) →
  wpg u (state_get (N - 1 - j)) m Q E.
Proof.
  intros Hs Hj HQ. destruct (local_is_Some N m j Hs Hj) as [x Hx].
  apply (wp_state_get _ x); [lia| |by apply HQ].
  by rewrite <- (local_lookup N).
Qed.

Lemma wp_local_put N j v m (Q : unit → mem → Prop) E :
  shaped N m → 0 ≤ j < N →
  Q tt (put_local m j v) →
  wpg u (state_put (N - 1 - j) v) m Q E.
Proof.
  intros [HN Hl] Hj HQ. apply wp_state_put; [lia|].
  unfold put_local in HQ. by rewrite HN in HQ.
Qed.

End slot_rules.

(** ** Steadiness *)

Lemma steady_refl n m : steady n m m.
Proof. split; eauto. Qed.

Lemma steady_trans n m1 m2 m3 : steady n m1 m2 → steady n m2 m3 → steady n m1 m3.
Proof.
  intros [] []. split; try congruence; eauto.
  - lia.
  - intros a Ha. rewrite st_old1 by done. by apply st_old0.
  - intros a mp Hmp. destruct (st_dict0 a mp Hmp) as [mp' Hmp']. eauto.
Qed.

Lemma steady_put_local n N m j v :
  shaped N m → 0 ≤ j < N → local m j = Some MP_OBJ_NULL → steady n m (put_local m j v).
Proof.
  intros Hs Hj Hnull. rewrite (local_lookup N) in Hnull by done.
  destruct Hs as [HN Hl].
  split; simpl; eauto.
  - by rewrite length_insert.
  - intros i x Hi Hx. rewrite HN.
    destruct (decide (i = Z.to_nat (N - 1 - j))) as [->|Hne].
    + congruence.
    + by rewrite list_lookup_insert_ne.
Qed.

Lemma steady_alloc n m o :
  (n ≤ length (heap m))%nat → steady n m (set_heap m (heap m ++ [o])).
Proof.
  intros Hn. split; simpl; eauto.
  - rewrite length_app. lia.
  - intros a Ha. apply lookup_app_l. lia.
  - intros a o' Ha _. rewrite lookup_app_l; [done|]. by eapply lookup_lt_Some.
  - intros a mp Ha. exists mp. rewrite lookup_app_l; [done|]. by eapply lookup_lt_Some.
Qed.

Lemma steady_dict_store n m a mp mp' :
  (n ≤ a)%nat → heap m !! a = Some (mp_obj_dict_t mp) →
  steady n m (set_heap m (<[a := mp_obj_dict_t mp']> (heap m))).
Proof.
  intros Hn Ha. split; simpl; eauto.
  - by rewrite length_insert.
  - intros a' Ha'. apply list_lookup_insert_ne. lia.
  - intros a' o Ho Hnd. destruct (decide (a = a')) as [->|Hne].
    + rewrite Ha in Ho. injection Ho as <-. by destruct (Hnd mp).
    + by rewrite list_lookup_insert_ne.
  - intros a' mp0 Ha'. destruct (decide (a = a')) as [->|Hne].
    + exists mp'. apply list_lookup_insert_eq. by eapply lookup_lt_Some.
    + exists mp0. by rewrite list_lookup_insert_ne.
Qed.

Lemma steady_shaped n N m m' : steady n m m' → shaped N m → shaped N m'.
Proof.
  intros [] [HN Hl]. split; [congruence|]. by rewrite st_len0.
Qed.

Lemma steady_local n N m m' j x :
  steady n m m' → shaped N m → 0 ≤ j < N →
  local m j = Some x → x ≠ MP_OBJ_NULL → local m' j = Some x.
Proof.
  intros Hst Hs Hj Hx Hnn.
  rewrite (local_lookup N) in Hx by done.
  rewrite (local_lookup N); [|by eapply steady_shaped|done].
  by eapply st_slots.
Qed.

(** ** The keyword loop *)

Lemma bind_ok {A B : Type} (c : M A) (f : A → M B) m a m' :
  c m = Ok a m' → (c ≫= f) m = f a m'.
Proof. intros H. unfold mbind, M_bind. by rewrite H. Qed.

Lemma bind_raise {A B : Type} (c : M A) (f : A → M B) m e m' :
  c m = Raise e m' → (c ≫= f) m = Raise e m'.
Proof. intros H. unfold mbind, M_bind. by rewrite H. Qed.

Lemma bind_eq {A B : Type} (c c' : M A) (f : A → M B) m m' :
  c m = c' m' → (c ≫= f) m = (c' ≫= f) m'.
Proof. intros H. unfold mbind, M_bind. by rewrite H. Qed.

Lemma bind_assoc_at {A B C : Type} (c : M A) (f : A → M B) (g : B → M C) m :
  ((c ≫= f) ≫= g) m = (c ≫= (λ a, f a ≫= g)) m.
Proof. unfold mbind, M_bind. by destruct (c m). Qed.

Lemma array_get_ok {A : Type} (a : list A) i x m :
  0 ≤ i → a !! Z.to_nat i = Some x → array_get a i m = Ok x m.
Proof.
  intros Hi Hx. unfold array_get. destruct (Z.leb_spec 0 i); [|lia]. by rewrite Hx.
Qed.

Lemma kw_find_ok self name n j m :
  0 ≤ j → (Z.to_nat j + n ≤ length (arg_names self))%nat →
  kw_find self name n j m
  = Ok (find_name name (take n (drop (Z.to_nat j) (arg_names self))) j) m.
Proof.
  revert j. induction n as [|n IH]; intros j Hj Hlen; [done|].
  simpl. destruct (lookup_lt_is_Some_2 (arg_names self) (Z.to_nat j)) as [a Ha]; [lia|].
  rewrite (bind_ok _ _ _ a m) by by apply array_get_ok.
  rewrite (drop_S _ a _ Ha). simpl.
  destruct (name =? a); [done|].
  rewrite IH by lia. by replace (Z.to_nat (j + 1)) with (S (Z.to_nat j)) by lia.
Qed.

Lemma param_index_ok self name m :
  0 ≤ n_pos_args self + n_kwonly_args self →
  Z.of_nat (length (arg_names self)) = n_pos_args self + n_kwonly_args self →
  kw_find self name (Z.to_nat (n_pos_args self + n_kwonly_args self)) 0 m
  = Ok (param_index self name) m.
Proof.
  intros Hnn Hlen. rewrite kw_find_ok by lia. done.
Qed.

Lemma find_name_range name l j0 j :
  find_name name l j0 = Some j →
  j0 ≤ j < j0 + Z.of_nat (length l) ∧ l !! Z.to_nat (j - j0) = Some name.
Proof.
  revert j0. induction l as [|a l IH]; intros j0; [done|]. simpl.
  destruct (Z.eqb_spec name a) as [->|Hne].
  - intros [= <-]. split; [lia|]. by replace (j0 - j0) with 0 by lia.
  - intros H. apply IH in H as [H1 H2]. split; [lia|].
    replace (Z.to_nat (j - j0)) with (S (Z.to_nat (j - (j0 + 1)))) by lia. done.
Qed.

Lemma find_name_None name l j0 : find_name name l j0 = None → name ∉ l.
Proof.
  revert j0. induction l as [|a l IH]; intros j0; simpl.
  - intros _. apply not_elem_of_nil.
  - destruct (Z.eqb_spec name a) as [->|Hne]; [done|].
    intros H. apply not_elem_of_cons. split; [done|]. by eapply IH.
Qed.

Lemma param_index_range self name j :
  0 ≤ n_pos_args self + n_kwonly_args self →
  param_index self name = Some j →
  0 ≤ j < n_pos_args self + n_kwonly_args self
  ∧ arg_names self !! Z.to_nat j = Some name.
Proof.
  intros Hnn H. apply find_name_range in H as [H1 H2].
  rewrite length_take in H1. rewrite Z.sub_0_r in H2.
  apply lookup_take_Some in H2 as [H2 H3]. split; [lia|done].
Qed.

Lemma kw_flat_lookup kws i q v :
  kws !! i = Some (q, v) →
  kw_flat kws !! (2 * i)%nat = Some (MP_OBJ_NEW_QSTR q)
  ∧ kw_flat kws !! (2 * i + 1)%nat = Some v.
Proof.
  revert i. induction kws as [|[q' v'] kws IH]; intros i; [done|].
  destruct i as [|i]; simpl.
  - by intros [= -> ->].
  - intros H. apply IH in H as [H1 H2].
    replace (i + S (i + 0))%nat with (S (2 * i)) by lia. simpl. done.
Qed.

Lemma kw_flat_length kws : length (kw_flat kws) = (2 * length kws)%nat.
Proof.
  induction kws as [|[q v] kws IH]; [done|]. simpl. rewrite IH. lia.
Qed.

(** One round of the loop in the code does what [kw_step] says. *)
Lemma kw_body_step self N pos kws d i q v m :
  0 ≤ n_pos_args self + n_kwonly_args self ≤ N →
  Z.of_nat (length (arg_names self)) = n_pos_args self + n_kwonly_args self →
  shaped N m →
  kws !! i = Some (q, v) →
  kw_body self N (Z.of_nat (length pos)) (pos ++ kw_flat kws) d (Z.of_nat i) m
  = kw_step self d (q, v) m.
Proof.
  intros HPK Hnames Hs Hi.
  destruct (kw_flat_lookup kws i q v Hi) as [Hq Hv].
  assert (Hkey : array_get (pos ++ kw_flat kws) (Z.of_nat (length pos) + 2 * Z.of_nat i) m
                 = Ok (MP_OBJ_NEW_QSTR q) m).
  { apply array_get_ok; [lia|].
    replace (Z.to_nat (Z.of_nat (length pos) + 2 * Z.of_nat i))
      with (length pos + 2 * i)%nat by lia.
    by rewrite lookup_app_r, Nat.add_comm, Nat.add_sub by lia. }
  assert (Hval : ∀ m', array_get (pos ++ kw_flat kws)
                   (Z.of_nat (length pos) + (2 * Z.of_nat i + 1)) m' = Ok v m').
  { intros m'. apply array_get_ok; [lia|].
    replace (Z.to_nat (Z.of_nat (length pos) + (2 * Z.of_nat i + 1)))
      with (length pos + (2 * i + 1))%nat by lia.
    by rewrite lookup_app_r, Nat.add_comm, Nat.add_sub by lia. }
  unfold kw_body, kw_step. simpl.
  rewrite (bind_ok _ _ _ _ _ Hkey). simpl.
  rewrite (bind_ok _ _ m q m) by done.
  rewrite (bind_ok _ _ m _ m (param_index_ok self q m ltac:(lia) Hnames)).
  destruct (param_index self q) as [j|] eqn:Hj.
  - apply param_index_range in Hj as [Hj _]; [|lia].
    destruct (local_is_Some N m j Hs ltac:(lia)) as [x Hx]. rewrite Hx.
    rewrite (bind_ok _ _ m x m).
    2:{ unfold state_get. apply array_get_ok; [lia|]. by rewrite <- (local_lookup N) by (done || lia). }
    destruct (decide (x ≠ MP_OBJ_NULL)); [done|].
    rewrite (bind_ok _ _ m v m) by apply Hval.
    unfold state_put, put_local. destruct Hs as [HN Hl]. rewrite HN.
    destruct (Z.leb_spec 0 (N - 1 - j)); [|lia].
    destruct (Z.ltb_spec (N - 1 - j) (Z.of_nat (length (state (frame m))))); [|lia].
    done.
  - destruct (negb (takes_kw_args self)); [done|].
    by rewrite (bind_ok _ _ m v m) by apply Hval.
Qed.

Lemma mp_obj_dict_store_inv d k v m r m' :
  mp_obj_dict_store d k v m = Ok r m' →
  ∃ a mp, d = MP_OBJ_PTR a ∧ heap m !! a = Some (mp_obj_dict_t mp)
          ∧ m' = set_heap m (<[a := mp_obj_dict_t (<[k := v]> mp)]> (heap m)).
Proof.
  unfold mp_obj_dict_store. destruct d as [| | | | |a]; try done.
  destruct (heap m !! a) as [[| mp |]|] eqn:Ha; try done.
  intros [= <- <-]. by exists a, mp.
Qed.

Lemma mp_obj_dict_store_no_raise d k v m e m' :
  mp_obj_dict_store d k v m ≠ Raise e m'.
Proof.
  unfold mp_obj_dict_store. destruct d as [| | | | |a]; try done.
  by destruct (heap m !! a) as [[| mp |]|].
Qed.

(** A round that returns. *)
Lemma kw_step_ok self d kv m m' :
  kw_step self d kv m = Ok tt m' →
  (∃ j, param_index self kv.1 = Some j ∧ local m j = Some MP_OBJ_NULL
        ∧ m' = put_local m j kv.2)
  ∨ (param_index self kv.1 = None ∧ takes_kw_args self = true
     ∧ ∃ a mp, d = MP_OBJ_PTR a ∧ heap m !! a = Some (mp_obj_dict_t mp)
        ∧ m' = set_heap m (<[a := mp_obj_dict_t (<[MP_OBJ_NEW_QSTR kv.1 := kv.2]> mp)]> (heap m))).
Proof.
  unfold kw_step. destruct (param_index self kv.1) as [j|] eqn:Hj.
  - destruct (local m j) as [x|] eqn:Hx; [|done].
    destruct (decide (x ≠ MP_OBJ_NULL)) as [|Hn]; [done|].
    intros [= <-]. left. exists j. apply dec_stable in Hn. by subst.
  - destruct (takes_kw_args self); [|done]. simpl.
    unfold mbind, M_bind.
    destruct (mp_obj_dict_store d (MP_OBJ_NEW_QSTR kv.1) kv.2 m) as [r m1| | |] eqn:Hst; try done.
    intros [= <-]. right. split; [done|]. split; [done|].
    by eapply mp_obj_dict_store_inv.
Qed.

(** A round that raises: the frame and the heap are as before. *)
Lemma kw_step_raise self d kv m e m' :
  kw_step self d kv m = Raise e m' → e = kw_error self kv.1 ∧ m' = m.
Proof.
  unfold kw_step, kw_error. destruct (param_index self kv.1) as [j|] eqn:Hj.
  - destruct (local m j) as [x|] eqn:Hx; [|done].
    destruct (decide (x ≠ MP_OBJ_NULL)); [|done]. by intros [= <- <-].
  - destruct (takes_kw_args self); simpl.
    + unfold mbind, M_bind.
      destruct (mp_obj_dict_store d (MP_OBJ_NEW_QSTR kv.1) kv.2 m) as [r m1|e1 m1| |] eqn:Hst;
        try done.
      by apply mp_obj_dict_store_no_raise in Hst.
    + by intros [= <- <-].
Qed.

Lemma kw_step_shaped self d kv N m m' :
  shaped N m → kw_step self d kv m = Ok tt m' → shaped N m'.
Proof.
  intros Hs H. apply kw_step_ok in H as [(j & Hj & Hx & ->)|(_ & _ & a & mp & -> & Ha & ->)].
  - by apply shaped_put_local.
  - done.
Qed.

Lemma kw_loop_iter self N pos kws d rest i m :
  0 ≤ n_pos_args self + n_kwonly_args self ≤ N →
  Z.of_nat (length (arg_names self)) = n_pos_args self + n_kwonly_args self →
  shaped N m →
  drop i kws = rest →
  for_iter (length rest) (Z.of_nat i)
    (kw_body self N (Z.of_nat (length pos)) (pos ++ kw_flat kws) d) m
  = kw_run self d rest m.
Proof.
  intros HPK Hnames. revert i m. induction rest as [|[q v] rest IH]; intros i m Hs Hdrop; [done|].
  simpl.
  assert (Hi : kws !! i = Some (q, v)).
  { rewrite <- (Nat.add_0_r i), <- lookup_drop, Hdrop. done. }
  unfold mbind, M_bind.
  rewrite (kw_body_step self N pos kws d i q v m) by done.
  destruct (kw_step self d (q, v) m) as [[] m1| | |] eqn:Hstep; try done.
  replace (Z.of_nat i + 1) with (Z.of_nat (S i)) by lia.
  apply IH.
  - by eapply kw_step_shaped.
  - replace (S i) with (i + 1)%nat by lia. by rewrite <- drop_drop, Hdrop.
Qed.

Lemma dict_ready_steady self d n m m' :
  steady n m m' → dict_ready self d n m → dict_ready self d n m'.
Proof.
  intros Hst Hd Hkw. destruct (Hd Hkw) as (a & mp & -> & Hn & Ha).
  destruct (st_dict _ _ _ Hst a mp Ha) as [mp' Hmp']. by exists a, mp'.
Qed.

Lemma kw_step_safe self d kv n N m :
  0 ≤ n_pos_args self + n_kwonly_args self ≤ N →
  shaped N m → dict_ready self d n m →
  wp (kw_step self d kv) m
    (λ _ m', steady n m m')
    (λ e m', e = kw_error self kv.1 ∧ m' = m).
Proof.
  intros HPK Hs Hd. unfold wpg.
  destruct (kw_step self d kv m) as [[] m1|e m1| |] eqn:Hstep.
  - apply kw_step_ok in Hstep as [(j & Hj & Hx & ->)|(_ & Hkw & a & mp & -> & Ha & ->)].
    + apply param_index_range in Hj as [Hj _]; [|lia].
      eapply steady_put_local; eauto. lia.
    + destruct (Hd Hkw) as (a' & mp' & [= <-] & Hn & _).
      eapply steady_dict_store; eauto.
  - by eapply kw_step_raise.
  - unfold kw_step in Hstep. destruct (param_index self kv.1) as [j|] eqn:Hj.
    + apply param_index_range in Hj as [Hj _]; [|lia].
      destruct (local_is_Some N m j Hs ltac:(lia)) as [x Hx]. rewrite Hx in Hstep.
      by destruct (decide (x ≠ MP_OBJ_NULL)).
    + destruct (takes_kw_args self) eqn:Hkw; [|done].
      destruct (Hd Hkw) as (a & mp & -> & _ & Ha).
      simpl in Hstep. unfold mbind, M_bind, mp_obj_dict_store in Hstep. by rewrite Ha in Hstep.
  - unfold kw_step in Hstep. destruct (param_index self kv.1) as [j|] eqn:Hj.
    + destruct (local m j) as [x|]; [|done]. by destruct (decide (x ≠ MP_OBJ_NULL)).
    + destruct (takes_kw_args self) eqn:Hkw; [|done].
      destruct (Hd Hkw) as (a & mp & -> & _ & Ha).
      simpl in Hstep. unfold mbind, M_bind, mp_obj_dict_store in Hstep. by rewrite Ha in Hstep.
Qed.

Lemma wp_inv {A : Type} (c : M A) m Q E :
  wp c m Q E → (∃ a m', c m = Ok a m' ∧ Q a m') ∨ (∃ e m', c m = Raise e m' ∧ E e m').
Proof.
  unfold wpg. destruct (c m) as [a m'|e m'| |]; [left|right|done|done]; eauto.
Qed.

(** The keyword loop does not go wrong; it returns with the frame steady, or
    raises the error of one of the pairs. *)
Lemma kw_run_wp self d n N kws m :
  0 ≤ n_pos_args self + n_kwonly_args self ≤ N →
  shaped N m → dict_ready self d n m →
  wp (kw_run self d kws) m
    (λ _ m', steady n m m')
    (λ e m', steady n m m' ∧ ∃ q, q ∈ kws.*1 ∧ e = kw_error self q).
Proof.
  intros HPK. revert m. induction kws as [|kv kws IH]; intros m Hs Hd.
  - apply wp_ret, steady_refl.
  - simpl. apply wp_bind.
    eapply wp_mono; [by apply (kw_step_safe self d kv n N)| |].
    + intros [] m1 Hst. simpl.
      eapply wp_mono; [apply IH; [by eapply steady_shaped|by eapply dict_ready_steady]| |].
      * intros [] m2 Hst2. by eapply steady_trans.
      * intros e m2 (Hst2 & q & Hq & ->). split; [by eapply steady_trans|].
        exists q. split; [|done]. by apply list_elem_of_further.
    + intros e m1 [-> ->]. split; [apply steady_refl|].
      exists kv.1. split; [|done]. apply list_elem_of_here.
Qed.





Lemma kw_run_inv self d kv kws m r :
  kw_run self d (kv :: kws) m = r →
  (∃ m1, kw_step self d kv m = Ok tt m1 ∧ kw_run self d kws m1 = r)
  ∨ (∃ e m1, kw_step self d kv m = Raise e m1 ∧ r = Raise e m1)
  ∨ (r = Undefined) ∨ (r = AssertFail).
Proof.
  simpl. unfold mbind, M_bind.
  destruct (kw_step self d kv m) as [[] m1|e m1| |]; eauto 10.
Qed.



(** The loop leaves alone the slot of a parameter that no pair names. *)
Lemma kw_run_untouched self d N kws m j :
  0 ≤ n_pos_args self + n_kwonly_args self ≤ N →
  shaped N m →
  (∀ q, q ∈ kws.*1 → param_index self q ≠ Some j) →
  ∀ m', (kw_run self d kws m = Ok tt m' ∨ ∃ e, kw_run self d kws m = Raise e m') →
  local m' j = local m j.
Proof.
  intros HPK. revert m. induction kws as [|kv kws IH]; intros m Hs Hq m' Hrun.
  - simpl in Hrun. destruct Hrun as [[= <-]|[e [=]]]. done.
  - assert (Hcase : (∃ m1, kw_step self d kv m = Ok tt m1
                       ∧ (kw_run self d kws m1 = Ok tt m' ∨ ∃ e, kw_run self d kws m1 = Raise e m'))
                    ∨ (∃ e, kw_step self d kv m = Raise e m')).
    { destruct Hrun as [Hrun|[e Hrun]];
        apply kw_run_inv in Hrun as [(m1 & Hstep & Hrun)|[(e1 & m1 & Hstep & [= <- <-])|[?|?]]];
        try done; eauto 10. }
    destruct Hcase as [(m1 & Hstep & Hrun1)|(e & Hstep)].
    + rewrite (IH m1); [| |intros q Hq'; apply Hq; by apply list_elem_of_further|done].
      * apply kw_step_ok in Hstep as [(j' & Hj' & Hx & ->)|(_ & _ & a & mp & -> & Ha & ->)];
          [|done].
        assert (j' ≠ j).
        { intros ->. by apply (Hq kv.1); [apply list_elem_of_here|]. }
        apply param_index_range in Hj' as [Hj' _]; [|lia].
        eapply local_put_local_ne; eauto. lia.
      * by eapply kw_step_shaped.
    + apply kw_step_raise in Hstep as [_ ->]. done.
Qed.

(** ** Defaults and mandatory parameters after the keyword loop *)

(** Filling in the defaults writes empty slots among the parameters
    [j0 - i + 1 .. j0] only, and nothing on the heap. *)
Lemma fill_defaults_wp self n N i j0 m :
  shaped N m → Z.of_nat i ≤ j0 + 1 → j0 < N →
  Z.of_nat i ≤ Z.of_nat (length (extra_args self)) →
  wp (fill_defaults self i (N - 1 - j0) (Z.of_nat i - 1)) m
    (λ d m', d = N - 1 - j0 + Z.of_nat i
             ∧ steady n m m' ∧ heap m' = heap m
             ∧ (∀ j, j ≤ j0 - Z.of_nat i ∨ j0 < j → local m' j = local m j)
             ∧ (∀ j, j0 - Z.of_nat i < j ≤ j0 →
                  ∃ x, local m j = Some x
                     ∧ local m' j = (if decide (x = MP_OBJ_NULL)
                                     then extra_args self !! Z.to_nat (Z.of_nat i - 1 - (j0 - j))
                                     else Some x)))
    (λ _ _, False).
Proof.
  revert j0 m. induction i as [|i IH]; intros j0 m Hs Hi Hj0 Hlen.
  - apply wp_ret. split; [lia|]. split; [apply steady_refl|]. split; [done|].
    split; [done|]. intros j Hj. lia.
  - simpl fill_defaults. apply wp_bind.
    apply (wp_local_get N); [done|lia|]. intros x Hx.
    destruct (lookup_lt_is_Some_2 (extra_args self) (Z.to_nat (Z.of_nat (S i) - 1))) as [v Hv];
      [lia|].
    apply wp_bind.
    apply wp_mono with
      (Q := λ _ m1, m1 = (if decide (x = MP_OBJ_NULL) then put_local m j0 v else m))
      (E := λ _ _, False).
    { destruct (decide (x = MP_OBJ_NULL)) as [->|Hx'].
      - apply wp_bind. apply (wp_array_get _ _ v); [lia|done|].
        apply (wp_local_put N); [done|lia|done].
      - by apply wp_ret. }
    2:{ done. }
    intros [] m1 ->.
    set (m1 := if decide (x = MP_OBJ_NULL) then put_local m j0 v else m).
    assert (Hst1 : steady n m m1).
    { unfold m1. destruct (decide (x = MP_OBJ_NULL)) as [->|_]; [|apply steady_refl].
      eapply steady_put_local; eauto. lia. }
    assert (Hh1 : heap m1 = heap m).
    { unfold m1. by destruct (decide (x = MP_OBJ_NULL)). }
    assert (Hl1 : ∀ j, j ≠ j0 → local m1 j = local m j).
    { intros j Hj. unfold m1. destruct (decide (x = MP_OBJ_NULL)); [|done].
      eapply local_put_local_ne; eauto. lia. }
    assert (Hl0 : local m1 j0 = if decide (x = MP_OBJ_NULL) then Some v else Some x).
    { unfold m1. destruct (decide (x = MP_OBJ_NULL)); [|done].
      eapply local_put_local_eq; eauto. lia. }
    replace (N - 1 - j0 + 1) with (N - 1 - (j0 - 1)) by lia.
    replace (Z.of_nat (S i) - 1 - 1) with (Z.of_nat i - 1) by lia.
    eapply wp_mono; [apply (IH (j0 - 1) m1); [by eapply steady_shaped|lia|lia|lia]| |done].
    intros d m2 (-> & Hst2 & Hh2 & Hout & Hin).
    split; [lia|]. split; [by eapply steady_trans|]. split; [congruence|]. split.
    + intros j Hj. rewrite Hout by lia. apply Hl1. lia.
    + intros j Hj. destruct (decide (j = j0)) as [->|Hne].
      * exists x. split; [done|]. rewrite Hout by lia. rewrite Hl0.
        destruct (decide (x = MP_OBJ_NULL)); [|done].
        rewrite <- Hv. f_equal. lia.
      * destruct (Hin j ltac:(lia)) as (y & Hy & Hy'). exists y.
        rewrite <- Hl1 by done. split; [done|]. rewrite Hy'.
        destruct (decide (y = MP_OBJ_NULL)); [|done]. f_equal. lia.
Qed.

(** The check of the mandatory parameters [0 .. j0] changes nothing; it
    raises for the highest of them whose slot is null. *)
Lemma check_mandatory_wp N n j0 m :
  shaped N m → Z.of_nat n = j0 + 1 → j0 < N →
  wp (check_mandatory N n (N - 1 - j0)) m
    (λ _ m', m' = m ∧ ∀ j, 0 ≤ j ≤ j0 → local m j ≠ Some MP_OBJ_NULL)
    (λ e m', m' = m ∧ ∃ j, 0 ≤ j ≤ j0 ∧ e = TypeError_missing_positional j
                          ∧ local m j = Some MP_OBJ_NULL
                          ∧ ∀ j', j < j' ≤ j0 → local m j' ≠ Some MP_OBJ_NULL).
Proof.
  intros Hs. revert j0. induction n as [|n IH]; intros j0 Hn Hj0.
  - apply wp_ret. split; [done|]. intros j Hj. lia.
  - simpl check_mandatory. apply wp_bind.
    apply (wp_local_get N); [done|lia|]. intros x Hx.
    destruct (decide (x = MP_OBJ_NULL)) as [->|Hnn].
    + apply wp_raise. split; [done|]. exists j0.
      split; [lia|]. split; [f_equal; lia|]. split; [done|]. intros j' Hj'. lia.
    + replace (N - 1 - j0 + 1) with (N - 1 - (j0 - 1)) by lia.
      eapply wp_mono; [apply (IH (j0 - 1)); lia| |].
      * intros [] m' [-> Hall]. split; [done|]. intros j Hj.
        destruct (decide (j = j0)) as [->|Hne]; [congruence|]. apply Hall. lia.
      * intros e m' (-> & j & Hj & -> & Hnull & Hall). split; [done|].
        exists j. split; [lia|]. split; [done|]. split; [done|].
        intros j' Hj'. destruct (decide (j' = j0)) as [->|Hne]; [congruence|].
        apply Hall. lia.
Qed.

(** The loop over the keyword-only parameters fills the empty ones from the
    default-keyword mapping and raises for the first one that has no entry
    there: those before it had a value or an entry. *)
Lemma kwonly_loop_first_wp self n N m :
  shaped N m →
  0 ≤ n_pos_args self → 0 ≤ n_kwonly_args self → 0 ≤ n_def_args self →
  n_pos_args self + n_kwonly_args self ≤ N →
  Z.of_nat (length (arg_names self)) = n_pos_args self + n_kwonly_args self →
  (has_def_kw_args self = true →
   ∃ a mp, extra_args self !! Z.to_nat (n_def_args self) = Some (MP_OBJ_PTR a)
           ∧ heap m !! a = Some (mp_obj_dict_t mp)) →
  wp (for_loop 0 (n_kwonly_args self) (kwonly_body self N)) m
    (λ _ m', steady n m m' ∧ heap m' = heap m
             ∧ (∀ j, j < n_pos_args self ∨ n_pos_args self + n_kwonly_args self ≤ j →
                  local m' j = local m j)
             ∧ (∀ i, 0 ≤ i < n_kwonly_args self →
                  ∃ x name, local m (n_pos_args self + i) = Some x
                    ∧ arg_names self !! Z.to_nat (n_pos_args self + i) = Some name
                    ∧ (x ≠ MP_OBJ_NULL → local m' (n_pos_args self + i) = Some x)
                    ∧ (x = MP_OBJ_NULL →
                       ∃ v, def_kw_lookup self (heap m) name = Some v
                            ∧ local m' (n_pos_args self + i) = Some v)))
    (λ e m', steady n m m' ∧ heap m' = heap m
             ∧ ∃ i name, 0 ≤ i < n_kwonly_args self
                 ∧ arg_names self !! Z.to_nat (n_pos_args self + i) = Some name
                 ∧ e = TypeError_missing_keyword name
                 ∧ local m (n_pos_args self + i) = Some MP_OBJ_NULL
                 ∧ def_kw_lookup self (heap m) name = None
                 ∧ ∀ i', 0 ≤ i' < i →
                     ∃ x nm, local m (n_pos_args self + i') = Some x
                       ∧ arg_names self !! Z.to_nat (n_pos_args self + i') = Some nm
                       ∧ (x = MP_OBJ_NULL →
                          ∃ v, def_kw_lookup self (heap m) nm = Some v)).
Proof.
  intros Hs HP HK HD HN Hnames Hdef.
  set (P := n_pos_args self) in *. set (K := n_kwonly_args self) in *.
  eapply wp_mono with
    (E := λ e m', steady n m m' ∧ heap m' = heap m
             ∧ ∃ i name, 0 ≤ i < K
                 ∧ arg_names self !! Z.to_nat (P + i) = Some name
                 ∧ e = TypeError_missing_keyword name
                 ∧ local m (P + i) = Some MP_OBJ_NULL
                 ∧ def_kw_lookup self (heap m) name = None
                 ∧ ∀ i', 0 ≤ i' < i →
                     ∃ x nm, local m (P + i') = Some x
                       ∧ arg_names self !! Z.to_nat (P + i') = Some nm
                       ∧ (x = MP_OBJ_NULL →
                          ∃ v, def_kw_lookup self (heap m) nm = Some v)).
  - apply (wp_for_loop
      (λ i m', steady n m m' ∧ heap m' = heap m
               ∧ (∀ j, j < P ∨ P + i ≤ j → local m' j = local m j)
               ∧ (∀ i', 0 ≤ i' < i →
                    ∃ x name, local m (P + i') = Some x
                      ∧ arg_names self !! Z.to_nat (P + i') = Some name
                      ∧ (x ≠ MP_OBJ_NULL → local m' (P + i') = Some x)
                      ∧ (x = MP_OBJ_NULL →
                         ∃ v, def_kw_lookup self (heap m) name = Some v
                              ∧ local m' (P + i') = Some v)))); [done| |].
    + split; [apply steady_refl|]. split; [done|]. split; [done|]. intros i' Hi'. lia.
    + intros i m1 Hi (Hst & Hh & Hout & Hin).
      assert (Hs1 : shaped N m1) by by eapply steady_shaped.
      unfold kwonly_body. fold P.
      replace (N - 1 - P - i) with (N - 1 - (P + i)) by lia.
      apply wp_bind. apply (wp_local_get N); [done|lia|]. intros x Hx.
      assert (Hx0 : local m (P + i) = Some x) by (rewrite <- Hout; [done|lia]).
      destruct (lookup_lt_is_Some_2 (arg_names self) (Z.to_nat (P + i))) as [name Hname]; [lia|].
      assert (Hkeep : ∀ m2, steady n m1 m2 → heap m2 = heap m1 →
                (∀ j, j ≠ P + i → local m2 j = local m1 j) →
                (x ≠ MP_OBJ_NULL → local m2 (P + i) = Some x) →
                (x = MP_OBJ_NULL → ∃ v, def_kw_lookup self (heap m) name = Some v
                                        ∧ local m2 (P + i) = Some v) →
                steady n m m2 ∧ heap m2 = heap m
                ∧ (∀ j, j < P ∨ P + (i + 1) ≤ j → local m2 j = local m j)
                ∧ (∀ i', 0 ≤ i' < i + 1 →
                     ∃ x name, local m (P + i') = Some x
                       ∧ arg_names self !! Z.to_nat (P + i') = Some name
                       ∧ (x ≠ MP_OBJ_NULL → local m2 (P + i') = Some x)
                       ∧ (x = MP_OBJ_NULL →
                          ∃ v, def_kw_lookup self (heap m) name = Some v
                               ∧ local m2 (P + i') = Some v))).
      { intros m2 Hst2 Hh2 Hl2 Hnn Hnull.
        split; [by eapply steady_trans|]. split; [congruence|]. split.
        - intros j Hj. rewrite Hl2 by lia. apply Hout. lia.
        - intros i' Hi'. destruct (decide (i' = i)) as [->|Hne].
          + by exists x, name.
          + destruct (Hin i' ltac:(lia)) as (y & nm & Hy & Hnm & Hy1 & Hy2).
            exists y, nm. rewrite Hl2 by lia. done. }
      destruct (decide (x = MP_OBJ_NULL)) as [->|Hnn].
      * apply wp_bind. apply (wp_array_get _ _ name); [lia|done|].
        apply wp_bind.
        apply wp_mono with
          (Q := λ elem m2, m2 = m1 ∧ elem = def_kw_lookup self (heap m) name)
          (E := λ _ _, False).
        { unfold def_kw_lookup. destruct (has_def_kw_args self) eqn:Hhas.
          - destruct (Hdef eq_refl) as (a & mp & Ha & Hmp).
            apply wp_bind. apply (wp_array_get _ _ (MP_OBJ_PTR a)); [lia|done|].
            rewrite Ha, Hmp. unfold wpg, mp_map_lookup. by rewrite Hh, Hmp.
          - by apply wp_ret. }
        2:{ done. }
        intros elem m2 Helem. simpl in Helem. destruct Helem as [-> ->].
        destruct (def_kw_lookup self (heap m) name) as [v|] eqn:Hlk.
        -- replace (N - 1 - P - i) with (N - 1 - (P + i)) by lia.
           apply (wp_local_put N); [done|lia|].
           apply Hkeep.
           ++ eapply steady_put_local; eauto. lia.
           ++ done.
           ++ intros j Hj. eapply local_put_local_ne; eauto. lia.
           ++ done.
           ++ intros _. exists v. split; [done|]. eapply local_put_local_eq; eauto. lia.
        -- apply wp_raise. split; [done|]. split; [done|].
           exists i, name. do 5 (split; [done|]).
           intros i' Hi'. destruct (Hin i' Hi') as (y & nm & Hy & Hnm & _ & Hy2).
           exists y, nm. split; [done|]. split; [done|].
           intros Hnull. destruct (Hy2 Hnull) as (v & Hv & _). by exists v.
      * apply wp_ret. apply Hkeep; try done. apply steady_refl.
  - intros [] m' (Hst & Hh & Hout & Hin). split; [done|]. split; [done|]. split; [|done].
    intros j Hj. apply Hout. lia.
  - done.
Qed.

Lemma kwonly_loop_wp self n N m :
  shaped N m →
  0 ≤ n_pos_args self → 0 ≤ n_kwonly_args self → 0 ≤ n_def_args self →
  n_pos_args self + n_kwonly_args self ≤ N →
  Z.of_nat (length (arg_names self)) = n_pos_args self + n_kwonly_args self →
  (has_def_kw_args self = true →
   ∃ a mp, extra_args self !! Z.to_nat (n_def_args self) = Some (MP_OBJ_PTR a)
           ∧ heap m !! a = Some (mp_obj_dict_t mp)) →
  wp (for_loop 0 (n_kwonly_args self) (kwonly_body self N)) m
    (λ _ m', steady n m m' ∧ heap m' = heap m
             ∧ (∀ j, j < n_pos_args self ∨ n_pos_args self + n_kwonly_args self ≤ j →
                  local m' j = local m j)
             ∧ (∀ i, 0 ≤ i < n_kwonly_args self →
                  ∃ x name, local m (n_pos_args self + i) = Some x
                    ∧ arg_names self !! Z.to_nat (n_pos_args self + i) = Some name
                    ∧ (x ≠ MP_OBJ_NULL → local m' (n_pos_args self + i) = Some x)
                    ∧ (x = MP_OBJ_NULL →
                       ∃ v, def_kw_lookup self (heap m) name = Some v
                            ∧ local m' (n_pos_args self + i) = Some v)))
    (λ e m', steady n m m' ∧ heap m' = heap m
             ∧ ∃ i name, 0 ≤ i < n_kwonly_args self
                 ∧ arg_names self !! Z.to_nat (n_pos_args self + i) = Some name
                 ∧ e = TypeError_missing_keyword name
                 ∧ local m (n_pos_args self + i) = Some MP_OBJ_NULL
                 ∧ def_kw_lookup self (heap m) name = None).
Proof.
  intros Hs HP HK HD HN Hnames Hdef.
  eapply wp_mono; [by apply (kwonly_loop_first_wp self n N m)|done|].
  intros e m' (Hst & Hh & i & name & Hi & Hname & He & Hnull & Hlk & _).
  split; [done|]. split; [done|]. by exists i, name.
Qed.

(** ** The prelude *)

(** The prelude boxes the locals it lists, once for each listing: the value
    a local had is found behind as many new cells.  It allocates at the end
    of the heap and leaves the rest of the memory alone. *)
Lemma prelude_loop_wp self N closed ip0 m :
  shaped N m → 0 ≤ ip0 →
  (∀ i l, closed !! i = Some l → bytecode self !! (Z.to_nat ip0 + i)%nat = Some l) →
  Forall (λ l, 0 ≤ l < N) closed →
  wp (prelude_loop self N (length closed) ip0) m
    (λ ip' m', ip' = ip0 + Z.of_nat (length closed)
               ∧ shaped N m'
               ∧ ip (frame m') = ip (frame m)
               ∧ frame_log m' = frame_log m
               ∧ mp_globals m' = mp_globals m
               ∧ heap m `prefix_of` heap m'
               ∧ ∀ j, 0 ≤ j < N →
                   ∃ x, local m j = Some x
                        ∧ bound_at (length (filter (λ l, l = j) closed)) m' j = Some x)
    (λ _ _, False).
Proof.
  revert ip0 m. induction closed as [|l closed IH]; intros ip0 m Hs Hip Hbytes Hcl.
  - apply wp_ret. split; [simpl; lia|]. repeat (split; [done|]).
    intros j Hj. destruct (local_is_Some N m j Hs Hj) as [x Hx]. exists x.
    split; [done|]. unfold bound_at. by rewrite Hx.
  - apply Forall_cons in Hcl as [Hl Hcl].
    simpl prelude_loop. apply wp_bind.
    apply (wp_array_get _ _ l); [lia| |].
    { rewrite <- (Hbytes 0%nat l eq_refl). f_equal. lia. }
    replace (N - 1 - l) with (N - 1 - l) by lia.
    apply wp_bind. apply (wp_local_get N); [done|lia|]. intros x Hx.
    apply wp_bind. apply wp_m_new_obj.
    set (a := length (heap m)).
    set (m0 := set_heap m (heap m ++ [mp_obj_cell_t x])).
    assert (Hs0 : shaped N m0) by done.
    apply wp_bind. apply (wp_local_put N); [done|lia|].
    set (m1 := put_local m0 l (MP_OBJ_PTR a)).
    assert (Hs1 : shaped N m1) by by apply shaped_put_local.
    assert (Hcell : heap m1 !! a = Some (mp_obj_cell_t x)).
    { simpl. unfold a. by rewrite lookup_app_r, Nat.sub_diag by lia. }
    eapply wp_mono; [apply (IH (ip0 + 1) m1); [done|lia| |done]| |done].
    { intros i l' Hi. rewrite <- (Hbytes (S i) l' Hi). f_equal. lia. }
    intros ip' m2 (-> & Hs2 & Hip2 & Hlog2 & Hgl2 & Hpre2 & Hb2).
    split; [simpl length; lia|]. split; [done|]. split; [done|]. split; [done|].
    split; [done|]. split.
    { etrans; [|exact Hpre2]. simpl. by apply prefix_app_r. }
    intros j Hj. destruct (Hb2 j Hj) as (y & Hy & Hby).
    destruct (decide (l = j)) as [->|Hne].
    + exists x. split; [done|].
      rewrite filter_cons_True by done. simpl length.
      assert (y = MP_OBJ_PTR a) as ->.
      { unfold m1 in Hy. erewrite local_put_local_eq in Hy by done. by injection Hy. }
      unfold bound_at in *. destruct (local m2 j) as [o|]; [|done]. simpl in *.
      rewrite Hby. simpl.
      pose proof (prefix_lookup_Some _ _ _ _ Hcell Hpre2) as Hcell2.
      unfold addr in *. by rewrite Hcell2.
    + exists y. split.
      * unfold m1 in Hy. erewrite local_put_local_ne in Hy by done. done.
      * by rewrite filter_cons_False by done.
Qed.

Lemma prelude_locals_inv self ip0 closed :
  prelude_locals self ip0 = Some closed →
  0 ≤ ip0
  ∧ (∃ n, bytecode self !! Z.to_nat ip0 = Some n ∧ Z.to_nat n = length closed)
  ∧ ∀ i l, closed !! i = Some l → bytecode self !! (Z.to_nat (ip0 + 1) + i)%nat = Some l.
Proof.
  unfold prelude_locals. destruct (Z.leb_spec 0 ip0); [|done].
  destruct (bytecode self !! Z.to_nat ip0) as [n|] eqn:Hn; [|done].
  destruct (decide _) as [Hlen|]; [|done]. intros [= <-].
  split; [done|]. split; [by exists n|].
  intros i l Hi. apply lookup_take_Some in Hi as [Hi _].
  rewrite lookup_drop in Hi. rewrite <- Hi. f_equal. lia.
Qed.

Lemma setup_prelude_wp self N closed m :
  shaped N m →
  prelude_locals self (ip (frame m)) = Some closed →
  Forall (λ l, 0 ≤ l < N) closed →
  wp (setup_prelude self N (ip (frame m))) m
    (λ _ m', shaped N m'
             ∧ frame_log m' = frame_log m
             ∧ mp_globals m' = mp_globals m
             ∧ heap m `prefix_of` heap m'
             ∧ ∀ j, 0 ≤ j < N → ∃ x, local m j = Some x ∧ bound closed m' j = Some x)
    (λ _ _, False).
Proof.
  intros Hs Hpre Hcl.
  apply prelude_locals_inv in Hpre as (Hip & (n & Hn & Hlen) & Hbytes).
  unfold setup_prelude. apply wp_bind. apply (wp_array_get _ _ n); [done|done|].
  apply wp_bind. rewrite Hlen.
  eapply wp_mono; [apply (prelude_loop_wp self N closed); [done|lia|done|done]| |done].
  intros ip' m1 (-> & Hs1 & Hip1 & Hlog1 & Hgl1 & Hpre1 & Hb1). simpl.
  apply wp_bind. apply wp_get_mem. apply wp_put_mem.
  split; [done|]. split; [done|]. split; [done|]. split; [done|].
  intros j Hj. destruct (Hb1 j Hj) as (x & Hx & Hbx). exists x. split; [done|].
  exact Hbx.
Qed.

(** ** Copying the positional arguments *)

Lemma setup_copy_positional_wp n N k args m :
  shaped N m → 0 ≤ k ≤ N → k ≤ Z.of_nat (length args) →
  (∀ j, 0 ≤ j < k → local m j = Some MP_OBJ_NULL) →
  wp (setup_copy_positional N k args) m
    (λ _ m', steady n m m' ∧ heap m' = heap m
             ∧ (∀ j, 0 ≤ j < k → local m' j = args !! Z.to_nat j)
             ∧ (∀ j, ¬ (0 ≤ j < k) → local m' j = local m j))
    (λ _ _, False).
Proof.
  intros Hs Hk Hargs Hnull. unfold setup_copy_positional.
  eapply wp_mono with (E := λ _ _, False).
  - apply (wp_for_loop
      (λ i m', steady n m m' ∧ heap m' = heap m
               ∧ (∀ j, 0 ≤ j < i → local m' j = args !! Z.to_nat j)
               ∧ (∀ j, ¬ (0 ≤ j < i) → local m' j = local m j))); [lia| |].
    + split; [apply steady_refl|]. split; [done|]. split; [|done]. intros j Hj. lia.
    + intros i m1 Hi (Hst & Hh & Hin & Hout).
      assert (Hs1 : shaped N m1) by by eapply steady_shaped.
      destruct (lookup_lt_is_Some_2 args (Z.to_nat i)) as [v Hv]; [lia|].
      apply wp_bind. apply (wp_array_get _ _ v); [lia|done|].
      apply (wp_local_put N); [done|lia|].
      split.
      { eapply steady_trans; [done|]. eapply steady_put_local; eauto; [lia|].
        rewrite Hout by lia. apply Hnull. lia. }
      split; [done|]. split.
      * intros j Hj. destruct (decide (j = i)) as [->|Hne].
        -- rewrite Hv. eapply local_put_local_eq; eauto. lia.
        -- erewrite local_put_local_ne by (done || lia). apply Hin. lia.
      * intros j Hj. erewrite local_put_local_ne by (done || lia). apply Hout. lia.
  - done.
  - done.
Qed.

(** ** The check of the positional arguments *)

Lemma default_loop_wp self n N k m :
  shaped N m →
  0 ≤ n_def_args self ≤ n_pos_args self → n_pos_args self ≤ N →
  n_def_args self ≤ Z.of_nat (length (extra_args self)) →
  n_pos_args self - n_def_args self ≤ k ≤ n_pos_args self → 0 ≤ k →
  (∀ j, k ≤ j < n_pos_args self → local m j = Some MP_OBJ_NULL) →
  wp (for_loop k (n_pos_args self) (λ i,
        v ← array_get (extra_args self) (i - (n_pos_args self - n_def_args self));
        state_put (N - 1 - i) v)) m
    (λ _ m', steady n m m' ∧ heap m' = heap m
             ∧ (∀ j, k ≤ j < n_pos_args self →
                  local m' j = extra_args self
                                 !! Z.to_nat (j - (n_pos_args self - n_def_args self)))
             ∧ (∀ j, ¬ (k ≤ j < n_pos_args self) → local m' j = local m j))
    (λ _ _, False).
Proof.
  intros Hs HD HP Hextra Hk Hk0 Hnull.
  eapply wp_mono with (E := λ _ _, False).
  - apply (wp_for_loop
      (λ i m', steady n m m' ∧ heap m' = heap m
               ∧ (∀ j, k ≤ j < i →
                    local m' j = extra_args self
                                   !! Z.to_nat (j - (n_pos_args self - n_def_args self)))
               ∧ (∀ j, ¬ (k ≤ j < i) → local m' j = local m j))); [lia| |].
    + split; [apply steady_refl|]. split; [done|]. split; [|done]. intros j Hj. lia.
    + intros i m1 Hi (Hst & Hh & Hin & Hout).
      assert (Hs1 : shaped N m1) by by eapply steady_shaped.
      destruct (lookup_lt_is_Some_2 (extra_args self)
                  (Z.to_nat (i - (n_pos_args self - n_def_args self)))) as [v Hv]; [lia|].
      apply wp_bind. apply (wp_array_get _ _ v); [lia|done|].
      apply (wp_local_put N); [done|lia|].
      split.
      { eapply steady_trans; [done|]. eapply steady_put_local; eauto; [lia|].
        rewrite Hout by lia. apply Hnull. lia. }
      split; [done|]. split.
      * intros j Hj. destruct (decide (j = i)) as [->|Hne].
        -- rewrite Hv. eapply local_put_local_eq; eauto. lia.
        -- erewrite local_put_local_ne by (done || lia). apply Hin. lia.
      * intros j Hj. erewrite local_put_local_ne by (done || lia). apply Hout. lia.
  - done.
  - done.
Qed.

Lemma uint_small x : 0 ≤ x < 2 ^ 32 → uint x = x.
Proof. intros. unfold uint. by apply Z.mod_small. Qed.

(** The check passes: the [*args] slot is set if there is one, and on the
    branch without keywords the missing trailing parameters have their
    defaults; every other slot is still null. *)
Lemma setup_check_positional_pass self n N k n_kw args m :
  shaped N m →
  (∀ j, 0 ≤ j < N → local m j = Some MP_OBJ_NULL) →
  0 ≤ n_def_args self ≤ n_pos_args self → n_pos_args self < 2 ^ 32 →
  0 ≤ n_kwonly_args self →
  n_pos_args self + n_kwonly_args self + b2z (takes_var_args self) ≤ N →
  n_def_args self ≤ Z.of_nat (length (extra_args self)) →
  0 ≤ k ≤ Z.of_nat (length args) →
  (n ≤ length (heap m))%nat →
  (k ≤ n_pos_args self ∨ takes_var_args self = true) →
  (fast_path self n_kw = true → k ≤ n_pos_args self →
   n_pos_args self - n_def_args self ≤ k) →
  wp (setup_check_positional self N k n_kw args) m
    (λ r m',
       r = (N - 1 - n_pos_args self - n_kwonly_args self - b2z (takes_var_args self),
            Z.min k (n_pos_args self))
       ∧ steady n m m'
       ∧ (∀ j, 0 ≤ j < n_pos_args self + n_kwonly_args self →
            local m' j
            = if fast_path self n_kw && (k <=? j) && (j <? n_pos_args self)
              then extra_args self !! Z.to_nat (j - (n_pos_args self - n_def_args self))
              else Some MP_OBJ_NULL)
       ∧ (∀ j, n_pos_args self + n_kwonly_args self + b2z (takes_var_args self) ≤ j < N →
            local m' j = Some MP_OBJ_NULL)
       ∧ (takes_var_args self = false → heap m' = heap m)
       ∧ (takes_var_args self = true → k ≤ n_pos_args self →
            heap m' = heap m
            ∧ local m' (n_pos_args self + n_kwonly_args self) = Some mp_const_empty_tuple)
       ∧ (takes_var_args self = true → n_pos_args self < k →
            heap m' = heap m ++ [mp_obj_tuple_t (excess_args self k args)]
            ∧ local m' (n_pos_args self + n_kwonly_args self)
              = Some (MP_OBJ_PTR (length (heap m)))))
    (λ _ _, False).
Proof.
  intros Hs Hnull HD HP32 HK HN Hextra Hk Hn Hpass Hfast.
  assert (Hb : 0 ≤ b2z (takes_var_args self)) by by destruct (takes_var_args self).
  unfold setup_check_positional.
  replace (N - 1 - (n_pos_args self) - (n_kwonly_args self)) with (N - 1 - ((n_pos_args self) + (n_kwonly_args self))) by lia.
  destruct (Z.gtb_spec k (n_pos_args self)) as [Hgt|Hle].
  - (* more than enough arguments *)
    destruct Hpass as [?|Hvar]; [lia|]. rewrite Hvar in *. simpl in HN |- *.
    unfold mp_obj_new_tuple.
    destruct (Z.eqb_spec (k - (n_pos_args self)) 0); [lia|].
    destruct (Z.ltb_spec (Z.of_nat (length (drop (Z.to_nat (n_pos_args self)) args))) (k - (n_pos_args self))) as [Hlt|_].
    { rewrite length_drop in Hlt. lia. }
    apply wp_bind. apply wp_m_new_obj.
    apply wp_bind. apply (wp_local_put N); [done|lia|].
    apply wp_ret.
    set (m0 := set_heap m (heap m ++ [mp_obj_tuple_t (take (Z.to_nat (k - (n_pos_args self))) (drop (Z.to_nat (n_pos_args self)) args))])).
    assert (Hs0 : shaped N m0) by done.
    split; [f_equal; lia|]. split.
    { eapply steady_trans; [by apply steady_alloc|].
      eapply (steady_put_local n N m0); [done|lia|]. apply (Hnull ((n_pos_args self) + (n_kwonly_args self))). lia. }
    split.
    { intros j Hj. erewrite local_put_local_ne by (done || lia).
      unfold fast_path.
      destruct (Z.leb_spec k j); [|rewrite andb_false_r; apply Hnull; lia].
      destruct (Z.ltb_spec j (n_pos_args self)); [lia|]. rewrite andb_false_r. apply Hnull. lia. }
    split.
    { intros j Hj. erewrite local_put_local_ne by (done || lia). apply Hnull. lia. }
    split; [done|]. split; [lia|]. intros _ _. split; [done|].
    eapply local_put_local_eq; eauto. lia.
  - (* not more than enough *)
    set (m0 := if takes_var_args self then put_local m ((n_pos_args self) + (n_kwonly_args self)) mp_const_empty_tuple else m).
    assert (Hs0 : shaped N m0).
    { unfold m0. destruct (takes_var_args self); [by apply shaped_put_local|done]. }
    assert (Hst0 : steady n m m0).
    { unfold m0. destruct (takes_var_args self) eqn:Hvar; [|apply steady_refl].
      simpl in HN. eapply steady_put_local; eauto; [lia|]. apply Hnull. lia. }
    assert (Hh0 : heap m0 = heap m).
    { unfold m0. by destruct (takes_var_args self). }
    assert (Hl0 : ∀ j, 0 ≤ j < N → j ≠ (n_pos_args self) + (n_kwonly_args self) → local m0 j = Some MP_OBJ_NULL).
    { intros j Hj Hne. unfold m0. destruct (takes_var_args self) eqn:Hvar; [|by apply Hnull].
      simpl in HN. erewrite local_put_local_ne by (done || lia). by apply Hnull. }
    assert (Hl0' : takes_var_args self = false → ∀ j, 0 ≤ j < N → local m0 j = Some MP_OBJ_NULL).
    { intros Hvar j Hj. unfold m0. rewrite Hvar. by apply Hnull. }
    assert (Hl0v : takes_var_args self = true → local m0 ((n_pos_args self) + (n_kwonly_args self)) = Some mp_const_empty_tuple).
    { intros Hvar. unfold m0. rewrite Hvar. simpl in HN.
      rewrite Hvar in HN. simpl in HN. eapply local_put_local_eq; eauto. lia. }
    apply wp_bind.
    apply wp_mono with
      (Q := λ v m1, v = N - 1 - ((n_pos_args self) + (n_kwonly_args self)) - b2z (takes_var_args self) ∧ m1 = m0)
      (E := λ _ _, False).
    { unfold m0. destruct (takes_var_args self) eqn:Hvar.
      - simpl in HN. apply wp_bind. apply (wp_local_put N); [done|lia|]. by apply wp_ret.
      - apply wp_ret. split; [simpl; lia|done]. }
    2:{ done. }
    intros v m1 Hv. simpl in Hv. destruct Hv as [-> ->].
    apply wp_bind.
    apply wp_mono with
      (Q := λ _ m', steady n m0 m' ∧ heap m' = heap m0
              ∧ (∀ j, 0 ≤ j < N → j < (n_pos_args self) →
                   local m' j
                   = if fast_path self n_kw && (k <=? j) && (j <? (n_pos_args self))
                     then extra_args self !! Z.to_nat (j - ((n_pos_args self) - (n_def_args self)))
                     else Some MP_OBJ_NULL)
              ∧ (∀ j, (n_pos_args self) ≤ j → local m' j = local m0 j))
      (E := λ _ _, False).
    { fold (fast_path self n_kw). destruct (fast_path self n_kw) eqn:Hf.
      - rewrite uint_small by lia. specialize (Hfast eq_refl Hle).
        destruct (Z.geb_spec k ((n_pos_args self) - (n_def_args self))) as [_|]; [|lia].
        eapply wp_mono; [apply (default_loop_wp self n N k m0); try (done || lia)| |done].
        + intros j Hj. apply Hl0; lia.
        + intros [] m' (Hst & Hh & Hin & Hout). split; [done|]. split; [done|]. split.
          * intros j Hj HjP. simpl.
            destruct (Z.leb_spec k j); simpl.
            -- destruct (Z.ltb_spec j (n_pos_args self)); [|lia]. apply Hin. lia.
            -- rewrite Hout by lia. apply Hl0; lia.
          * intros j Hj. apply Hout. lia.
      - apply wp_ret. split; [apply steady_refl|]. split; [done|]. split; [|done].
        intros j Hj HjP. simpl. apply Hl0; lia. }
    2:{ done. }
    intros [] m' (Hst & Hh & Hin & Hout). simpl. apply wp_ret.
    split; [f_equal; lia|]. split; [by eapply steady_trans|]. split.
    { intros j Hj. destruct (Z.ltb_spec j (n_pos_args self)) as [HjP|HjP].
      - rewrite Hin by lia. by destruct (Z.ltb_spec j (n_pos_args self)); [|lia].
      - rewrite andb_false_r. rewrite Hout by lia. apply Hl0; lia. }
    split.
    { intros j Hj. rewrite Hout by lia. destruct (takes_var_args self) eqn:Hvar.
      - simpl in Hj. apply Hl0; lia.
      - apply Hl0'; [done|]. simpl in Hj. lia. }
    split; [intros _; congruence|]. split.
    + intros Hvar _. split; [congruence|]. rewrite Hout by lia. by apply Hl0v.
    + intros _ ?. lia.
Qed.

(** Too few positional arguments on the branch without keywords. *)
Lemma setup_check_positional_short self N k n_kw args m :
  shaped N m →
  0 ≤ n_def_args self ≤ n_pos_args self → n_pos_args self < 2 ^ 32 →
  0 ≤ n_kwonly_args self →
  n_pos_args self + n_kwonly_args self + b2z (takes_var_args self) ≤ N →
  fast_path self n_kw = true →
  k < n_pos_args self - n_def_args self →
  ∃ m', setup_check_positional self N k n_kw args m
        = Raise (TypeError_pos_args_mismatch (n_pos_args self - n_def_args self) k) m'
        ∧ heap m' = heap m ∧ frame_log m' = frame_log m.
Proof.
  intros Hs HD HP32 HK HN Hfast Hk.
  unfold setup_check_positional. fold (fast_path self n_kw). rewrite Hfast.
  destruct (Z.gtb_spec k (n_pos_args self)) as [|_]; [lia|].
  rewrite uint_small by lia.
  destruct (Z.geb_spec k (n_pos_args self - n_def_args self)) as [|_]; [lia|].
  destruct (takes_var_args self) eqn:Hvar.
  - simpl in HN. eexists. split.
    + unfold mbind, M_bind, state_put. destruct Hs as [HN' Hl].
      destruct (Z.leb_spec 0 (N - 1 - n_pos_args self - n_kwonly_args self)); [|lia].
      destruct (Z.ltb_spec (N - 1 - n_pos_args self - n_kwonly_args self)
                  (Z.of_nat (length (state (frame m))))); [|lia].
      reflexivity.
    + done.
  - by eexists.
Qed.

(** ** Without keywords *)

Lemma setup_no_keywords_wp self n N kwargs args m :
  shaped N m →
  has_def_kw_args self = false →
  0 ≤ n_pos_args self → 0 ≤ n_kwonly_args self →
  n_pos_args self + n_kwonly_args self
  + b2z (takes_var_args self) + b2z (takes_kw_args self) ≤ N →
  (n ≤ length (heap m))%nat →
  (takes_kw_args self = true →
   local m (n_pos_args self + n_kwonly_args self + b2z (takes_var_args self))
   = Some MP_OBJ_NULL) →
  wp (setup_check_keywords self N kwargs 0 args
        (N - 1 - n_pos_args self - n_kwonly_args self - b2z (takes_var_args self))) m
    (λ _ m', n_kwonly_args self = 0 ∧ steady n m m'
             ∧ (∀ j, j ≠ n_pos_args self + n_kwonly_args self + b2z (takes_var_args self) →
                  local m' j = local m j)
             ∧ (takes_kw_args self = false → m' = m)
             ∧ (takes_kw_args self = true →
                  heap m' = heap m ++ [mp_obj_dict_t ∅]
                  ∧ local m' (n_pos_args self + n_kwonly_args self
                              + b2z (takes_var_args self))
                    = Some (MP_OBJ_PTR (length (heap m)))))
    (λ e m', n_kwonly_args self ≠ 0 ∧ e = TypeError_missing_kwonly ∧ m' = m).
Proof.
  intros Hs Hdef HP HK HN Hn Hnull.
  assert (Hb : 0 ≤ b2z (takes_var_args self)) by by destruct (takes_var_args self).
  unfold setup_check_keywords. rewrite Hdef. simpl.
  destruct (Z.eqb_spec (n_kwonly_args self) 0) as [HK0|HK0]; simpl.
  - destruct (takes_kw_args self) eqn:Hkw.
    + simpl in HN. apply wp_bind. apply wp_m_new_obj.
      replace (N - 1 - n_pos_args self - n_kwonly_args self - b2z (takes_var_args self))
        with (N - 1 - (n_pos_args self + n_kwonly_args self + b2z (takes_var_args self)))
        by lia.
      set (m0 := set_heap m (heap m ++ [mp_obj_dict_t ∅])).
      assert (Hs0 : shaped N m0) by done.
      apply (wp_local_put N); [done|lia|].
      split; [done|]. split.
      { eapply steady_trans; [by apply steady_alloc|].
        eapply (steady_put_local n N m0); [done|lia|]. by apply Hnull. }
      split; [|split; [done|]].
      * intros j Hj. by erewrite local_put_local_ne by (done || lia).
      * intros _. split; [done|]. eapply local_put_local_eq; eauto. lia.
    + apply wp_ret. split; [done|]. split; [apply steady_refl|]. done.
  - by apply wp_raise.
Qed.

(** ** Positional arguments and defaults *)

Lemma wp_setup {u : Prop} self n_args n_kw args m Q E :
  wpg u ('(var_pos_kw_args, n_args') ←
           setup_check_positional self (n_state (frame m)) n_args n_kw args;
         _ ← setup_copy_positional (n_state (frame m)) n_args' args;
         _ ← setup_check_keywords self (n_state (frame m)) n_args n_kw args var_pos_kw_args;
         setup_prelude self (n_state (frame m)) (ip (frame m))) (zeroed self m) Q E →
  wpg u (mp_setup_code_state self n_args n_kw args) m Q E.
Proof. unfold wpg. by rewrite mp_setup_code_state_blocks. Qed.

Lemma b2z_nonneg b : 0 ≤ b2z b.
Proof. by destruct b. Qed.

Lemma call_ok_state self m closed : call_ok self m closed → 0 ≤ n_state (frame m).
Proof.
  intros []. pose proof (b2z_nonneg (takes_var_args self)).
  pose proof (b2z_nonneg (takes_kw_args self)). lia.
Qed.

Lemma positional_defaults_wp self pos m closed :
  call_ok self m closed →
  has_def_kw_args self = false →
  n_kwonly_args self = 0 →
  n_pos_args self - n_def_args self ≤ Z.of_nat (length pos) ≤ n_pos_args self →
  wp (mp_setup_code_state self (Z.of_nat (length pos)) 0 pos) m
    (λ _ m', ∀ j, 0 ≤ j < n_pos_args self →
       bound closed m' j
       = if j <? Z.of_nat (length pos) then pos !! Z.to_nat j
         else extra_args self !! Z.to_nat (j - (n_pos_args self - n_def_args self)))
    (λ _ _, False).
Proof.
  intros Hok Hdef HK0 Hk.
  pose proof (call_ok_state _ _ _ Hok) as HN0.
  pose proof (b2z_nonneg (takes_var_args self)) as Hbv.
  pose proof (b2z_nonneg (takes_kw_args self)) as Hbk.
  destruct Hok as [HD HK HP32 Hnames Hextra Hdefkw Hframe Hprel Hclosed].
  rewrite Hdef in Hextra. simpl in Hextra.
  set (N := n_state (frame m)) in *.
  assert (Hfast : fast_path self 0 = true) by (unfold fast_path; by rewrite Hdef).
  apply wp_setup. fold N.
  apply wp_bind.
  eapply wp_mono;
    [apply (setup_check_positional_pass self 0 N (Z.of_nat (length pos)) 0 pos (zeroed self m));
       try (done || lia)| |done].
  { by apply shaped_zeroed. }
  { intros j Hj. by apply local_zeroed. }
  intros r m1 (-> & Hst1 & Hl1 & Hd1 & _).
  assert (Hs1 : shaped N m1) by (eapply steady_shaped; [done|by apply shaped_zeroed]).
  rewrite Z.min_l by lia. simpl.
  apply wp_bind.
  eapply wp_mono;
    [apply (setup_copy_positional_wp 0 N (Z.of_nat (length pos)) pos m1); try (done || lia)| |done].
  { intros j Hj. rewrite Hl1 by lia.
    destruct (Z.leb_spec (Z.of_nat (length pos)) j); [lia|]. by rewrite andb_false_r. }
  intros [] m2 (Hst2 & Hh2 & Hin2 & Hout2).
  assert (Hs2 : shaped N m2) by by eapply steady_shaped.
  simpl. apply wp_bind.
  eapply wp_mono with (E := λ _ _, False);
    [eapply wp_mono;
       [apply (setup_no_keywords_wp self 0 N (Z.of_nat (length pos)) pos m2);
          try (done || lia)| |]| |done].
  { intros Hkw. rewrite Hout2 by lia. apply Hd1. rewrite Hkw in Hframe. simpl in Hframe. lia. }
  { intros a m3 H3. exact H3. }
  { intros e m3 (HKn & _). done. }
  intros [] m3 (_ & Hst3 & Hl3 & _). simpl.
  assert (Hs3 : shaped N m3) by by eapply steady_shaped.
  assert (Hip3 : ip (frame m3) = ip (frame m)).
  { rewrite (st_ip _ _ _ Hst3), (st_ip _ _ _ Hst2), (st_ip _ _ _ Hst1). done. }
  rewrite <- Hip3.
  eapply wp_mono; [apply (setup_prelude_wp self N closed m3); [done|by rewrite Hip3|done]| |done].
  intros [] m4 (_ & _ & _ & _ & Hb4) j Hj. simpl.
  destruct (Hb4 j ltac:(lia)) as (x & Hx & Hbx). rewrite Hbx, <- Hx.
  rewrite Hl3 by lia.
  destruct (Z.ltb_spec j (Z.of_nat (length pos))) as [Hjk|Hjk].
  - apply Hin2. lia.
  - rewrite Hout2 by lia. rewrite Hl1 by lia. rewrite Hfast.
    destruct (Z.leb_spec (Z.of_nat (length pos)) j); [|lia].
    by destruct (Z.ltb_spec j (n_pos_args self)); [|lia].
Qed.

Lemma f_abc_ok : call_ok f_abc m_abc [].
Proof.
  split; try done; try (simpl; lia).
Qed.

Lemma f_a_k_ok : call_ok f_a_k (frame_mem [] 2 8) [].
Proof.
  split; try done; try (simpl; lia).
Qed.

(** C1, as the code has it.  For a well-formed function object without
    keyword-only parameters and without a default-keyword mapping, a call
    with [k] positional arguments and no keywords, [P - D ≤ k ≤ P], returns;
    the value bound to parameter [j] is argument [j] for [j < k] and the
    default [j - (P - D)] for [k ≤ j < P] (a parameter the prelude lists is
    boxed: its slot holds a new cell with that value).  With [k < P - D] the
    call raises the arity error with expected [P - D] and given [k], whether
    or not there are keyword-only parameters. *)
Theorem positional_defaults_binding (self : mp_obj_fun_bc_t) (pos : list mp_obj_t)
    (m : mem) (closed : list Z) :
  call_ok self m closed →
  has_def_kw_args self = false →
  (n_kwonly_args self = 0 →
   n_pos_args self - n_def_args self ≤ Z.of_nat (length pos) ≤ n_pos_args self →
   ∃ m', mp_setup_code_state self (Z.of_nat (length pos)) 0 pos m = Ok tt m'
       ∧ ∀ j, 0 ≤ j < n_pos_args self →
           bound closed m' j
           = if j <? Z.of_nat (length pos) then pos !! Z.to_nat j
             else extra_args self !! Z.to_nat (j - (n_pos_args self - n_def_args self)))
  ∧ (Z.of_nat (length pos) < n_pos_args self - n_def_args self →
     ∃ m', mp_setup_code_state self (Z.of_nat (length pos)) 0 pos m
           = Raise (TypeError_pos_args_mismatch
                      (n_pos_args self - n_def_args self) (Z.of_nat (length pos))) m').
Proof.
  intros Hok Hdef. split.
  - intros HK0 Hk.
    destruct (wp_inv _ _ _ _ (positional_defaults_wp self pos m closed Hok Hdef HK0 Hk))
      as [([] & m' & Hrun & Hb)|(e & m' & _ & [])].
    by exists m'.
  - intros Hk. pose proof (call_ok_state _ _ _ Hok) as HN0.
    pose proof (b2z_nonneg (takes_kw_args self)) as Hbk.
    destruct Hok as [HD HK HP32 Hnames Hextra Hdefkw Hframe Hprel Hclosed].
    destruct (setup_check_positional_short self (n_state (frame m))
                (Z.of_nat (length pos)) 0 pos (zeroed self m))
      as (m' & Hrun & _); try (done || lia).
    + by apply shaped_zeroed.
    + unfold fast_path. by rewrite Hdef.
    + exists m'. rewrite mp_setup_code_state_blocks. by erewrite bind_raise by done.
Qed.

Lemma positional_defaults_binding_witness :
  call_ok f_abc m_abc [] ∧ has_def_kw_args f_abc = false
  ∧ ∃ m', mp_setup_code_state f_abc 2 0
            [MP_OBJ_NEW_SMALL_INT 1; MP_OBJ_NEW_SMALL_INT 2] m_abc = Ok tt m'
        ∧ ∀ j, 0 ≤ j < 3 →
            bound [] m' j
            = if j <? 2 then [MP_OBJ_NEW_SMALL_INT 1; MP_OBJ_NEW_SMALL_INT 2] !! Z.to_nat j
              else [MP_OBJ_NEW_SMALL_INT 10] !! Z.to_nat (j - (3 - 1)).
Proof.
  split; [exact f_abc_ok|]. split; [reflexivity|].
  apply (positional_defaults_binding f_abc
           [MP_OBJ_NEW_SMALL_INT 1; MP_OBJ_NEW_SMALL_INT 2] m_abc [] f_abc_ok eq_refl).
  - reflexivity.
  - simpl. lia.
Defined.

(** The statement of C1 does not hold for a function with a keyword-only
    parameter: [def f(a, *, k)] called with one positional argument, in range
    and without keywords or default-keyword mapping, raises "missing
    keyword-only argument". *)
Lemma positional_defaults_kwonly_counterexample :
  call_ok f_a_k (frame_mem [] 2 8) []
  ∧ has_def_kw_args f_a_k = false
  ∧ n_pos_args f_a_k - n_def_args f_a_k ≤ 1 ≤ n_pos_args f_a_k
  ∧ ∃ m', mp_setup_code_state f_a_k 1 0 [MP_OBJ_NEW_SMALL_INT 1] (frame_mem [] 2 8)
          = Raise TypeError_missing_kwonly m'.
Proof.
  split; [exact f_a_k_ok|]. split; [reflexivity|]. split; [simpl; lia|].
  eexists. vm_compute. reflexivity.
Qed.

(** ** Up to the keyword block *)

Lemma excess_args_call self pos kws :
  n_pos_args self < Z.of_nat (length pos) → 0 ≤ n_pos_args self →
  excess_args self (Z.of_nat (length pos)) (pos ++ kw_flat kws)
  = drop (Z.to_nat (n_pos_args self)) pos.
Proof.
  intros Hk HP. unfold excess_args.
  rewrite drop_app_le by lia.
  rewrite take_app_le by (rewrite length_drop; lia).
  apply take_ge. rewrite length_drop. lia.
Qed.

(** When the check of the positional arguments passes, the call reaches the
    keyword block with the positional arguments in their slots. *)
Lemma setup_prefix self pos kws m closed :
  call_ok self m closed →
  (Z.of_nat (length pos) ≤ n_pos_args self ∨ takes_var_args self = true) →
  (fast_path self (Z.of_nat (length kws)) = true →
   Z.of_nat (length pos) ≤ n_pos_args self →
   n_pos_args self - n_def_args self ≤ Z.of_nat (length pos)) →
  ∃ m2,
    mp_setup_code_state self (Z.of_nat (length pos)) (Z.of_nat (length kws))
      (pos ++ kw_flat kws) m
    = (_ ← setup_check_keywords self (n_state (frame m)) (Z.of_nat (length pos))
             (Z.of_nat (length kws)) (pos ++ kw_flat kws)
             (n_state (frame m) - 1 - n_pos_args self - n_kwonly_args self
              - b2z (takes_var_args self));
       setup_prelude self (n_state (frame m)) (ip (frame m))) m2
    ∧ steady (length (heap m)) (zeroed self m) m2
    ∧ (∀ j, 0 ≤ j < Z.min (Z.of_nat (length pos)) (n_pos_args self) →
         local m2 j = pos !! Z.to_nat j)
    ∧ (∀ j, Z.min (Z.of_nat (length pos)) (n_pos_args self) ≤ j
            < n_pos_args self + n_kwonly_args self →
         local m2 j
         = if fast_path self (Z.of_nat (length kws)) && (j <? n_pos_args self)
           then extra_args self !! Z.to_nat (j - (n_pos_args self - n_def_args self))
           else Some MP_OBJ_NULL)
    ∧ (∀ j, n_pos_args self + n_kwonly_args self + b2z (takes_var_args self) ≤ j
            < n_state (frame m) → local m2 j = Some MP_OBJ_NULL)
    ∧ (takes_var_args self = false → heap m2 = heap m)
    ∧ (takes_var_args self = true → Z.of_nat (length pos) ≤ n_pos_args self →
         heap m2 = heap m
         ∧ local m2 (n_pos_args self + n_kwonly_args self) = Some mp_const_empty_tuple)
    ∧ (takes_var_args self = true → n_pos_args self < Z.of_nat (length pos) →
         heap m2 = heap m ++ [mp_obj_tuple_t (drop (Z.to_nat (n_pos_args self)) pos)]
         ∧ local m2 (n_pos_args self + n_kwonly_args self)
           = Some (MP_OBJ_PTR (length (heap m)))).
Proof.
  intros Hok Hpass Hfast.
  pose proof (call_ok_state _ _ _ Hok) as HN0.
  pose proof (b2z_nonneg (takes_var_args self)) as Hbv.
  pose proof (b2z_nonneg (takes_kw_args self)) as Hbk.
  destruct Hok as [HD HK HP32 Hnames Hextra Hdefkw Hframe Hprel Hclosed].
  pose proof (b2z_nonneg (has_def_kw_args self)) as Hbd.
  set (N := n_state (frame m)) in *. set (k := Z.of_nat (length pos)) in *.
  set (args := pos ++ kw_flat kws).
  assert (Hargs : k ≤ Z.of_nat (length args)).
  { unfold args, k. rewrite length_app. lia. }
  destruct (wp_inv _ _ _ _
    (setup_check_positional_pass self (length (heap m)) N k (Z.of_nat (length kws)) args
       (zeroed self m) (shaped_zeroed self m HN0)
       (λ j Hj, local_zeroed self m j Hj) HD HP32 HK ltac:(lia) ltac:(lia) ltac:(lia)
       ltac:(done) Hpass Hfast))
    as [(r & m1 & HA & -> & Hst1 & Hl1 & Hd1 & Hh1 & Hv1 & Hx1)|(e & m1 & _ & [])].
  assert (Hs1 : shaped N m1) by (eapply steady_shaped; [done|by apply shaped_zeroed]).
  set (k' := Z.min k (n_pos_args self)) in *.
  destruct (wp_inv _ _ _ _
    (setup_copy_positional_wp (length (heap m)) N k' args m1 Hs1 ltac:(lia) ltac:(lia)
       ltac:(intros j Hj; rewrite Hl1 by lia;
             destruct (Z.leb_spec k j); [lia|]; by rewrite andb_false_r)))
    as [([] & m2 & HB & Hst2 & Hh2 & Hin2 & Hout2)|(e & m2 & _ & [])].
  exists m2. split.
  { rewrite mp_setup_code_state_blocks. fold N.
    erewrite bind_ok by exact HA. simpl. fold k'. by erewrite bind_ok by exact HB. }
  split; [by eapply steady_trans|]. split.
  { intros j Hj. rewrite Hin2 by done. unfold args. apply lookup_app_l. lia. }
  split.
  { intros j Hj. rewrite Hout2 by lia. rewrite Hl1 by lia.
    destruct (fast_path self (Z.of_nat (length kws))); [|done]. simpl.
    destruct (Z.leb_spec k j); destruct (Z.ltb_spec j (n_pos_args self)); simpl;
      try done; lia. }
  split.
  { intros j Hj. rewrite Hout2 by lia. by apply Hd1. }
  split; [intros Hvar; rewrite Hh2; by apply Hh1|]. split.
  - intros Hvar Hle. destruct (Hv1 Hvar Hle) as [Hh Hl]. split; [by rewrite Hh2|].
    rewrite Hout2 by lia. done.
  - intros Hvar Hlt. destruct (Hx1 Hvar Hlt) as [Hh Hl]. split.
    + rewrite Hh2, Hh. simpl. unfold args, k. by rewrite excess_args_call by lia.
    + rewrite Hout2 by lia. done.
Qed.

(** ** The keyword block *)

(** With a keyword pair or a default-keyword mapping, the block makes the
    [**kw] dict if the function takes one, then runs the loop over the pairs
    and the checks after it. *)
Lemma setup_keywords_unfold self n N pos kws m :
  fast_path self (Z.of_nat (length kws)) = false →
  shaped N m →
  0 ≤ n_pos_args self → 0 ≤ n_kwonly_args self →
  Z.of_nat (length (arg_names self)) = n_pos_args self + n_kwonly_args self →
  n_pos_args self + n_kwonly_args self
  + b2z (takes_var_args self) + b2z (takes_kw_args self) ≤ N →
  (n ≤ length (heap m))%nat →
  (takes_kw_args self = true →
   local m (n_pos_args self + n_kwonly_args self + b2z (takes_var_args self))
   = Some MP_OBJ_NULL) →
  ∃ m' dict,
    setup_check_keywords self N (Z.of_nat (length pos)) (Z.of_nat (length kws))
      (pos ++ kw_flat kws)
      (N - 1 - n_pos_args self - n_kwonly_args self - b2z (takes_var_args self)) m
    = (_ ← kw_run self dict kws; setup_after_kw_loop self N) m'
    ∧ steady n m m'
    ∧ dict_ready self dict n m'
    ∧ (∀ j, j ≠ n_pos_args self + n_kwonly_args self + b2z (takes_var_args self) →
         local m' j = local m j)
    ∧ (takes_kw_args self = false → m' = m)
    ∧ (takes_kw_args self = true →
         dict = MP_OBJ_PTR (length (heap m))
         ∧ heap m' = heap m ++ [mp_obj_dict_t ∅]
         ∧ local m' (n_pos_args self + n_kwonly_args self + b2z (takes_var_args self))
           = Some dict).
Proof.
  intros Hfast Hs HP HK Hnames HN Hn Hnull.
  pose proof (b2z_nonneg (takes_var_args self)) as Hbv.
  pose proof (b2z_nonneg (takes_kw_args self)) as Hbk.
  unfold setup_check_keywords. unfold fast_path in Hfast.
  replace (negb (Z.of_nat (length kws) =? 0) || has_def_kw_args self) with true.
  2:{ destruct (Z.of_nat (length kws) =? 0), (has_def_kw_args self); done. }
  assert (Hloop : ∀ dict m', shaped N m' →
            for_loop 0 (Z.of_nat (length kws))
              (kw_body self N (Z.of_nat (length pos)) (pos ++ kw_flat kws) dict) m'
            = kw_run self dict kws m').
  { intros dict m' Hs'. unfold for_loop.
    replace (Z.to_nat (Z.of_nat (length kws) - 0)) with (length kws) by lia.
    apply (kw_loop_iter self N pos kws dict kws 0%nat m'); [lia|done|done|done]. }
  destruct (takes_kw_args self) eqn:Hkw.
  - simpl in HN.
    set (m0 := set_heap m (heap m ++ [mp_obj_dict_t ∅])).
    set (j := n_pos_args self + n_kwonly_args self + b2z (takes_var_args self)).
    assert (Hs0 : shaped N m0) by done.
    exists (put_local m0 j (MP_OBJ_PTR (length (heap m)))), (MP_OBJ_PTR (length (heap m))).
    split.
    { unfold mbind at 1, M_bind at 1. unfold mbind at 1, M_bind at 1.
      unfold mp_obj_new_dict, m_new_obj. fold m0.
      unfold mbind at 1, M_bind at 1.
      replace (N - 1 - n_pos_args self - n_kwonly_args self - b2z (takes_var_args self))
        with (N - 1 - j) by (unfold j; lia).
      assert (Hput : state_put (N - 1 - j) (MP_OBJ_PTR (length (heap m))) m0
                     = Ok tt (put_local m0 j (MP_OBJ_PTR (length (heap m))))).
      { unfold state_put, put_local. destruct Hs0 as [HN0 Hl0]. rewrite HN0.
        destruct (Z.leb_spec 0 (N - 1 - j)); [|unfold j in *; lia].
        destruct (Z.ltb_spec (N - 1 - j) (Z.of_nat (length (state (frame m0)))));
          [|unfold j in *; lia].
        done. }
      rewrite Hput. simpl.
      unfold mbind at 1, M_bind at 1. unfold mbind at 3, M_bind at 1.
      rewrite Hloop by by apply shaped_put_local. done. }
    split.
    { eapply steady_trans; [by apply steady_alloc|].
      eapply (steady_put_local n N m0); [done|unfold j; lia|]. by apply Hnull. }
    split.
    { intros _. exists (length (heap m)), ∅. split; [done|]. split; [done|].
      simpl. by rewrite lookup_app_r, Nat.sub_diag by lia. }
    split.
    { intros j' Hj'. by erewrite local_put_local_ne by (done || unfold j; lia). }
    split; [done|]. intros _. split; [done|]. split; [done|].
    eapply local_put_local_eq; eauto. unfold j; lia.
  - exists m, MP_OBJ_NULL. split.
    { unfold mbind at 1, M_bind at 1. simpl.
      unfold mbind at 1, M_bind at 1. unfold mbind at 3, M_bind at 1.
      by rewrite Hloop by done. }
    split; [apply steady_refl|]. split; [intros ?; congruence|]. done.
Qed.

(** After the loop over the pairs: the block returns if every positional
    parameter without default and every keyword-only parameter without an
    entry in the default-keyword mapping has a value; otherwise it raises for
    the highest such positional parameter or, failing that, the first such
    keyword-only parameter. *)
Lemma setup_after_kw_loop_wp self n N m :
  shaped N m →
  0 ≤ n_def_args self ≤ n_pos_args self → 0 ≤ n_kwonly_args self →
  n_pos_args self + n_kwonly_args self ≤ N →
  Z.of_nat (length (arg_names self)) = n_pos_args self + n_kwonly_args self →
  n_def_args self ≤ Z.of_nat (length (extra_args self)) →
  (has_def_kw_args self = true →
   ∃ a mp, extra_args self !! Z.to_nat (n_def_args self) = Some (MP_OBJ_PTR a)
           ∧ heap m !! a = Some (mp_obj_dict_t mp)) →
  wp (setup_after_kw_loop self N) m
    (λ _ m', steady n m m' ∧ heap m' = heap m
       ∧ (∀ j, n_pos_args self + n_kwonly_args self ≤ j → local m' j = local m j)
       ∧ (∀ j, 0 ≤ j < n_pos_args self - n_def_args self → local m j ≠ Some MP_OBJ_NULL)
       ∧ (∀ i, 0 ≤ i < n_kwonly_args self →
            ∃ x name, local m (n_pos_args self + i) = Some x
              ∧ arg_names self !! Z.to_nat (n_pos_args self + i) = Some name
              ∧ (x = MP_OBJ_NULL →
                 ∃ v, def_kw_lookup self (heap m) name = Some v
                      ∧ local m' (n_pos_args self + i) = Some v))
       ∧ (∀ j, n_pos_args self - n_def_args self ≤ j < n_pos_args self →
            ∃ x, local m j = Some x
              ∧ local m' j
                = if decide (x = MP_OBJ_NULL)
                  then extra_args self
                         !! Z.to_nat (j - (n_pos_args self - n_def_args self))
                  else Some x))
    (λ e m', steady n m m' ∧ heap m' = heap m
       ∧ ((∃ j, 0 ≤ j < n_pos_args self - n_def_args self
             ∧ e = TypeError_missing_positional j
             ∧ local m j = Some MP_OBJ_NULL
             ∧ ∀ j', j < j' < n_pos_args self - n_def_args self →
                 local m j' ≠ Some MP_OBJ_NULL)
          ∨ (∃ i name, 0 ≤ i < n_kwonly_args self
               ∧ arg_names self !! Z.to_nat (n_pos_args self + i) = Some name
               ∧ e = TypeError_missing_keyword name
               ∧ local m (n_pos_args self + i) = Some MP_OBJ_NULL
               ∧ def_kw_lookup self (heap m) name = None))).
Proof.
  intros Hs HD HK HN Hnames Hextra Hdef.
  unfold setup_after_kw_loop. apply wp_bind.
  replace (N - n_pos_args self) with (N - 1 - (n_pos_args self - 1)) by lia.
  replace (n_def_args self - 1) with (Z.of_nat (Z.to_nat (n_def_args self)) - 1) by lia.
  eapply wp_mono;
    [apply (fill_defaults_wp self n N (Z.to_nat (n_def_args self)) (n_pos_args self - 1) m);
       (done || lia)| |done].
  intros d m1 (-> & Hst1 & Hh1 & Hout1 & Hin1). simpl.
  assert (Hs1 : shaped N m1) by by eapply steady_shaped.
  apply wp_bind.
  replace (N - 1 - (n_pos_args self - 1) + Z.of_nat (Z.to_nat (n_def_args self)))
    with (N - 1 - (n_pos_args self - n_def_args self - 1)) by lia.
  eapply wp_mono;
    [apply (check_mandatory_wp N _ (n_pos_args self - n_def_args self - 1) m1); (done || lia)
    | |].
  2:{ intros e m2 (-> & j & Hj & -> & Hnull & Hall). split; [done|]. split; [done|].
      left. exists j. split; [lia|]. split; [done|].
      rewrite Hout1 in Hnull by lia. split; [done|].
      intros j' Hj'. rewrite <- Hout1 by lia. apply Hall. lia. }
  intros [] m2 [-> Hmand]. simpl.
  eapply wp_mono;
    [apply (kwonly_loop_wp self n N m1); try (done || lia)| |].
  { intros Hhas. rewrite Hh1. by apply Hdef. }
  - intros [] m3 (Hst3 & Hh3 & Hout3 & Hin3).
    split; [by eapply steady_trans|]. split; [congruence|]. split.
    { intros j Hj. rewrite Hout3 by lia. apply Hout1. lia. }
    split.
    { intros j Hj. rewrite <- Hout1 by lia. apply Hmand. lia. }
    split.
    { intros i Hi. destruct (Hin3 i Hi) as (x & name & Hx & Hname & _ & Hnull).
      exists x, name. rewrite <- Hout1 by lia. split; [done|]. split; [done|].
      rewrite <- Hh1. done. }
    intros j Hj. destruct (Hin1 j ltac:(lia)) as (x & Hx & Hx1).
    exists x. split; [done|]. rewrite Hout3 by lia. rewrite Hx1.
    destruct (decide (x = MP_OBJ_NULL)); [|done]. f_equal. lia.
  - intros e m3 (Hst3 & Hh3 & i & name & Hi & Hname & -> & Hnull & Hlk).
    split; [by eapply steady_trans|]. split; [congruence|].
    right. exists i, name. rewrite <- Hout1 by lia. rewrite <- Hh1. done.
Qed.


(** A call that passes the check of the positional arguments and has a
    keyword pair or a default-keyword mapping: the state [m2] in which the
    loop over the pairs starts, and what the call is from there. *)
Lemma setup_kw_path self pos kws m closed :
  call_ok self m closed →
  (Z.of_nat (length pos) ≤ n_pos_args self ∨ takes_var_args self = true) →
  fast_path self (Z.of_nat (length kws)) = false →
  ∃ m2 dict,
    (∀ e m', kw_run self dict kws m2 = Raise e m' →
       mp_setup_code_state self (Z.of_nat (length pos)) (Z.of_nat (length kws))
         (pos ++ kw_flat kws) m = Raise e m')
    ∧ (∀ m3, kw_run self dict kws m2 = Ok tt m3 →
         mp_setup_code_state self (Z.of_nat (length pos)) (Z.of_nat (length kws))
           (pos ++ kw_flat kws) m
         = (_ ← setup_after_kw_loop self (n_state (frame m));
            setup_prelude self (n_state (frame m)) (ip (frame m))) m3)
    ∧ steady (length (heap m)) (zeroed self m) m2
    ∧ dict_ready self dict (length (heap m)) m2
    ∧ (∀ j, 0 ≤ j < Z.min (Z.of_nat (length pos)) (n_pos_args self) →
         local m2 j = pos !! Z.to_nat j)
    ∧ (∀ j, Z.min (Z.of_nat (length pos)) (n_pos_args self) ≤ j
            < n_pos_args self + n_kwonly_args self → local m2 j = Some MP_OBJ_NULL)
    ∧ (takes_var_args self = true → Z.of_nat (length pos) ≤ n_pos_args self →
         local m2 (n_pos_args self + n_kwonly_args self) = Some mp_const_empty_tuple)
    ∧ (takes_var_args self = true → n_pos_args self < Z.of_nat (length pos) →
         local m2 (n_pos_args self + n_kwonly_args self)
         = Some (MP_OBJ_PTR (length (heap m)))
         ∧ heap m2 !! length (heap m)
           = Some (mp_obj_tuple_t (drop (Z.to_nat (n_pos_args self)) pos)))
    ∧ (takes_kw_args self = true →
         ∃ a, dict = MP_OBJ_PTR a ∧ (length (heap m) ≤ a)%nat
              ∧ heap m2 !! a = Some (mp_obj_dict_t ∅)
              ∧ local m2 (n_pos_args self + n_kwonly_args self
                          + b2z (takes_var_args self)) = Some dict).
Proof.
  intros Hok Hpass Hfast.
  destruct (setup_prefix self pos kws m closed Hok Hpass)
    as (m1 & Hrun1 & Hst1 & Hin1 & Hout1 & Hd1 & Hh1 & Hv1 & Hx1).
  { rewrite Hfast. done. }
  pose proof (call_ok_state _ _ _ Hok) as HN0.
  pose proof (b2z_nonneg (takes_var_args self)) as Hbv.
  pose proof (b2z_nonneg (takes_kw_args self)) as Hbk.
  destruct Hok as [HD HK HP32 Hnames Hextra Hdefkw Hframe Hprel Hclosed].
  set (N := n_state (frame m)) in *.
  assert (Hs1 : shaped N m1) by (eapply steady_shaped; [done|by apply shaped_zeroed]).
  assert (Hlen1 : (length (heap m) ≤ length (heap m1))%nat).
  { by apply (st_heap_len _ _ _ Hst1). }
  destruct (setup_keywords_unfold self (length (heap m)) N pos kws m1 Hfast Hs1)
    as (m2 & dict & Hrun2 & Hst2 & Hdr & Hl2 & Hnokw & Hkw); try (done || lia).
  { intros Hkw. apply Hd1. rewrite Hkw in Hframe. simpl in Hframe. lia. }
  exists m2, dict.
  split.
  { intros e m' Hrun. rewrite Hrun1.
    rewrite (bind_eq _ _ _ _ _ Hrun2), bind_assoc_at.
    by erewrite bind_raise by exact Hrun. }
  split.
  { intros m3 Hrun. rewrite Hrun1.
    rewrite (bind_eq _ _ _ _ _ Hrun2), bind_assoc_at.
    by erewrite bind_ok by exact Hrun. }
  split; [by eapply steady_trans|]. split; [done|]. split.
  { intros j Hj. rewrite Hl2 by lia. by apply Hin1. }
  split.
  { intros j Hj. rewrite Hl2 by lia. rewrite Hout1 by done. by rewrite Hfast. }
  split.
  { intros Hvar Hle. rewrite Hl2 by (rewrite Hvar; simpl; lia). by apply Hv1. }
  split.
  { intros Hvar Hlt. destruct (Hx1 Hvar Hlt) as [Hh Hl].
    split; [rewrite Hl2 by (rewrite Hvar; simpl; lia); done|].
    apply (st_heap _ _ _ Hst2); [|done].
    rewrite Hh. by rewrite lookup_app_r, Nat.sub_diag by lia. }
  intros Hkw'. destruct (Hkw Hkw') as (-> & Hh2 & Hl).
  exists (length (heap m1)). split; [done|]. split; [done|]. split; [|done].
  rewrite Hh2. by rewrite lookup_app_r, Nat.sub_diag by lia.
Qed.

Lemma call_ok_frame self m closed :
  call_ok self m closed →
  0 ≤ n_pos_args self + n_kwonly_args self ≤ n_state (frame m).
Proof.
  intros []. pose proof (b2z_nonneg (takes_var_args self)).
  pose proof (b2z_nonneg (takes_kw_args self)). lia.
Qed.

Lemma call_ok_shaped self m closed n m2 :
  call_ok self m closed → steady n (zeroed self m) m2 → shaped (n_state (frame m)) m2.
Proof.
  intros Hok Hst. eapply steady_shaped; [done|].
  apply shaped_zeroed. by eapply call_ok_state.
Qed.


(** ** A keyword for a parameter that has its positional argument *)





(** ** The same keyword twice *)



Lemma f_kwargs_ok : call_ok f_kwargs (frame_mem [] 1 8) [].
Proof.
  split; try done; try (simpl; lia).
Qed.


(** ** From the keyword loop to the end *)

Lemma setup_tail_wp self n N closed m :
  shaped N m →
  0 ≤ n_def_args self ≤ n_pos_args self → 0 ≤ n_kwonly_args self →
  n_pos_args self + n_kwonly_args self ≤ N →
  Z.of_nat (length (arg_names self)) = n_pos_args self + n_kwonly_args self →
  n_def_args self ≤ Z.of_nat (length (extra_args self)) →
  (has_def_kw_args self = true →
   ∃ a mp, extra_args self !! Z.to_nat (n_def_args self) = Some (MP_OBJ_PTR a)
           ∧ heap m !! a = Some (mp_obj_dict_t mp)) →
  prelude_locals self (ip (frame m)) = Some closed →
  Forall (λ l, 0 ≤ l < N) closed →
  wp (_ ← setup_after_kw_loop self N; setup_prelude self N (ip (frame m))) m
    (λ _ m', ∃ m4, after_kw_post self n m tt m4 ∧ prelude_post N closed m4 m')
    (after_kw_exc self n m).
Proof.
  intros Hs HD HK HN Hnames Hextra Hdef Hprel Hclosed.
  apply wp_bind.
  eapply wp_mono; [by apply (setup_after_kw_loop_wp self n N m)| |done].
  intros [] m4 Hpost. simpl.
  assert (Hst : steady n m m4) by apply Hpost.
  assert (Hs4 : shaped N m4) by by eapply steady_shaped.
  rewrite <- (st_ip _ _ _ Hst).
  eapply wp_mono;
    [apply (setup_prelude_wp self N closed m4); [done|by rewrite (st_ip _ _ _ Hst)|done]
    | |done].
  intros [] m' Hpre. by exists m4.
Qed.

(** The zeroed frame keeps what the function object needs of the heap. *)
Lemma call_ok_def_kw self m closed n m2 :
  call_ok self m closed → steady n (zeroed self m) m2 → n = length (heap m) →
  has_def_kw_args self = true →
  ∃ a mp, extra_args self !! Z.to_nat (n_def_args self) = Some (MP_OBJ_PTR a)
          ∧ heap m2 !! a = Some (mp_obj_dict_t mp)
          ∧ heap m !! a = Some (mp_obj_dict_t mp).
Proof.
  intros Hok Hst -> Hhas. destruct (ok_def_kw _ _ _ Hok Hhas) as (a & mp & Ha & Hmp).
  exists a, mp. split; [done|]. split; [|done].
  rewrite (st_old _ _ _ Hst) by by eapply lookup_lt_Some. done.
Qed.

Lemma def_kw_lookup_steady self n m m' name :
  steady n m m' →
  (has_def_kw_args self = true →
   ∃ a, extra_args self !! Z.to_nat (n_def_args self) = Some (MP_OBJ_PTR a)
        ∧ (a < n)%nat) →
  def_kw_lookup self (heap m') name = def_kw_lookup self (heap m) name.
Proof.
  intros Hst Hdef. unfold def_kw_lookup.
  destruct (has_def_kw_args self); [|done].
  destruct (Hdef eq_refl) as (a & -> & Ha).
  by rewrite (st_old _ _ _ Hst).
Qed.

(** The three ways a call on the keyword branch ends: the loop over the
    pairs raises; it returns and a check after it raises; or everything
    returns, the prelude included. *)
Lemma setup_kw_path_outcome self pos kws m closed :
  call_ok self m closed →
  (Z.of_nat (length pos) ≤ n_pos_args self ∨ takes_var_args self = true) →
  fast_path self (Z.of_nat (length kws)) = false →
  ∀ m2 dict,
    (∀ e m', kw_run self dict kws m2 = Raise e m' →
       mp_setup_code_state self (Z.of_nat (length pos)) (Z.of_nat (length kws))
         (pos ++ kw_flat kws) m = Raise e m') →
    (∀ m3, kw_run self dict kws m2 = Ok tt m3 →
       mp_setup_code_state self (Z.of_nat (length pos)) (Z.of_nat (length kws))
         (pos ++ kw_flat kws) m
       = (_ ← setup_after_kw_loop self (n_state (frame m));
          setup_prelude self (n_state (frame m)) (ip (frame m))) m3) →
    steady (length (heap m)) (zeroed self m) m2 →
    dict_ready self dict (length (heap m)) m2 →
    (∃ e m', kw_run self dict kws m2 = Raise e m'
       ∧ steady (length (heap m)) m2 m'
       ∧ (∃ q, q ∈ kws.*1 ∧ e = kw_error self q)
       ∧ mp_setup_code_state self (Z.of_nat (length pos)) (Z.of_nat (length kws))
           (pos ++ kw_flat kws) m = Raise e m')
    ∨ (∃ m3 e m', kw_run self dict kws m2 = Ok tt m3
         ∧ steady (length (heap m)) m2 m3
         ∧ after_kw_exc self (length (heap m)) m3 e m'
         ∧ mp_setup_code_state self (Z.of_nat (length pos)) (Z.of_nat (length kws))
             (pos ++ kw_flat kws) m = Raise e m')
    ∨ (∃ m3 m4 m', kw_run self dict kws m2 = Ok tt m3
         ∧ steady (length (heap m)) m2 m3
         ∧ after_kw_post self (length (heap m)) m3 tt m4
         ∧ prelude_post (n_state (frame m)) closed m4 m'
         ∧ mp_setup_code_state self (Z.of_nat (length pos)) (Z.of_nat (length kws))
             (pos ++ kw_flat kws) m = Ok tt m').
Proof.
  intros Hok Hpass Hfast m2 dict Hraise Hcont Hst2 Hdr.
  pose proof (call_ok_frame _ _ _ Hok) as HPK.
  pose proof (call_ok_shaped _ _ _ _ _ Hok Hst2) as Hs2.
  destruct (wp_inv _ _ _ _ (kw_run_wp self dict (length (heap m)) (n_state (frame m)) kws m2
                              HPK Hs2 Hdr))
    as [([] & m3 & Hrun & Hst3)|(e & m3 & Hrun & Hst3 & Hq)].
  2:{ left. exists e, m3. split; [done|]. split; [done|]. split; [done|]. by apply Hraise. }
  right.
  assert (Hst03 : steady (length (heap m)) (zeroed self m) m3) by by eapply steady_trans.
  pose proof (call_ok_shaped _ _ _ _ _ Hok Hst03) as Hs3.
  assert (Hip3 : ip (frame m3) = ip (frame m)) by by rewrite (st_ip _ _ _ Hst03).
  pose proof (b2z_nonneg (has_def_kw_args self)) as Hbd.
  destruct (wp_inv _ _ _ _
    (setup_tail_wp self (length (heap m)) (n_state (frame m)) closed m3 Hs3
       (ok_def _ _ _ Hok) (ok_kwonly _ _ _ Hok) ltac:(lia) (ok_names _ _ _ Hok)
       ltac:(pose proof (ok_extra _ _ _ Hok); lia)
       ltac:(intros Hhas;
             destruct (call_ok_def_kw self m closed _ m3 Hok Hst03 eq_refl Hhas)
               as (a & mp & ? & ? & ?); by exists a, mp)
       ltac:(rewrite Hip3; apply (ok_prelude _ _ _ Hok))
       (ok_closed _ _ _ Hok)))
    as [([] & m' & Htail & m4 & Hpost & Hpre)|(e & m' & Htail & Hexc)].
  - right. exists m3, m4, m'. split; [done|]. split; [done|]. split; [done|].
    split; [done|]. rewrite (Hcont m3 Hrun). by rewrite <- Hip3.
  - left. exists m3, e, m'. split; [done|]. split; [done|]. split; [done|].
    rewrite (Hcont m3 Hrun). by rewrite <- Hip3.
Qed.

(** ** A keyword that names no parameter *)



(** ** Calls with keywords that return *)

(** The loop over pairs that can all be bound returns, with each named
    parameter holding the value of its pair and the other slots as they
    were. *)
Lemma kw_run_ok self d n N kws m :
  0 ≤ n_pos_args self + n_kwonly_args self ≤ N →
  shaped N m → dict_ready self d n m →
  NoDup kws.*1 →
  (∀ q v, (q, v) ∈ kws →
     match param_index self q with
     | Some j => local m j = Some MP_OBJ_NULL
     | None => takes_kw_args self = true
     end) →
  ∃ m', kw_run self d kws m = Ok tt m'
        ∧ steady n m m'
        ∧ (∀ q v j, (q, v) ∈ kws → param_index self q = Some j → local m' j = Some v)
        ∧ (∀ j, ¬ kw_supplies self kws j → local m' j = local m j).
Proof.
  intros HPK. revert m. induction kws as [|[q v] kws IH]; intros m Hs Hd Hnd Hfree.
  - exists m. split; [done|]. split; [apply steady_refl|]. split; [|done].
    intros q v j Hin. by apply elem_of_nil in Hin.
  - apply NoDup_cons in Hnd as [Hq Hnd]. simpl in Hq.
    assert (Hstep : ∃ m1, kw_step self d (q, v) m = Ok tt m1
              ∧ steady n m m1
              ∧ (∀ j, param_index self q = Some j → local m1 j = Some v)
              ∧ (∀ j, param_index self q ≠ Some j → local m1 j = local m j)).
    { pose proof (Hfree q v ltac:(apply list_elem_of_here)) as Hqv.
      unfold kw_step. simpl. destruct (param_index self q) as [j|] eqn:Hj.
      - rewrite Hqv. destruct (decide (MP_OBJ_NULL ≠ MP_OBJ_NULL)); [done|].
        apply param_index_range in Hj as [Hj _]; [|lia].
        exists (put_local m j v). split; [done|]. split.
        { eapply steady_put_local; eauto. lia. }
        split.
        + intros j' [= <-]. eapply local_put_local_eq; eauto. lia.
        + intros j' Hne. eapply local_put_local_ne; eauto; [lia|congruence].
      - rewrite Hqv. simpl. destruct (Hd Hqv) as (a & mp & -> & Ha & Hmp).
        unfold mbind, M_bind, mp_obj_dict_store. rewrite Hmp.
        eexists. split; [reflexivity|]. split; [by eapply steady_dict_store|]. done. }
    destruct Hstep as (m1 & Hstep & Hst1 & Hq1 & Hother1).
    assert (Hdiff : ∀ q' v' j, (q', v') ∈ kws → param_index self q' = Some j →
              param_index self q ≠ Some j).
    { intros q' v' j Hin Hj' Hj.
      apply param_index_range in Hj' as [_ Hj']; [|lia].
      apply param_index_range in Hj as [_ Hj]; [|lia].
      rewrite Hj in Hj'. injection Hj' as ->.
      apply Hq. apply list_elem_of_fmap. by exists (q', v'). }
    destruct (IH m1) as (m' & Hrun & Hst' & Hnamed & Hrest).
    { by eapply steady_shaped. }
    { by eapply dict_ready_steady. }
    { done. }
    { intros q' v' Hin. pose proof (Hfree q' v' ltac:(by apply list_elem_of_further)) as H'.
      destruct (param_index self q') as [j|] eqn:Hj'; [|done].
      rewrite Hother1; [done|]. by eapply Hdiff. }
    exists m'. split; [simpl; by erewrite bind_ok by exact Hstep|].
    split; [by eapply steady_trans|]. split.
    + intros q' v' j Hin Hj'. apply elem_of_cons in Hin as [[= -> ->]|Hin].
      * rewrite Hrest; [by apply Hq1|].
        intros (q' & v' & Hin & Hj''). by eapply Hdiff.
      * by eapply Hnamed.
    + intros j Hns. rewrite Hrest.
      * apply Hother1. intros Hj. apply Hns. exists q, v.
        split; [apply list_elem_of_here|done].
      * intros (q' & v' & Hin & Hj'). apply Hns. exists q', v'.
        split; [by apply list_elem_of_further|done].
Qed.






(** ** Keyword-only parameters *)

(** The loop over the pairs leaves a slot empty only where it was empty and
    every pair that names it has the null value. *)
Lemma kw_run_null self d N kws m m' j :
  0 ≤ n_pos_args self + n_kwonly_args self ≤ N →
  shaped N m →
  kw_run self d kws m = Ok tt m' →
  local m' j = Some MP_OBJ_NULL →
  local m j = Some MP_OBJ_NULL
  ∧ ∀ q v, (q, v) ∈ kws → param_index self q = Some j → v = MP_OBJ_NULL.
Proof.
  intros HPK. revert m. induction kws as [|kv kws IH]; intros m Hs Hrun Hnull.
  - simpl in Hrun. injection Hrun as <-. split; [done|].
    intros q v Hin. by apply elem_of_nil in Hin.
  - apply kw_run_inv in Hrun as [(m1 & Hstep & Hrun)|[(e & m1 & _ & ?)|[?|?]]]; try done.
    destruct (IH m1 (kw_step_shaped _ _ _ _ _ _ Hs Hstep) Hrun Hnull) as [Hn1 Hall].
    destruct kv as [q0 v0].
    apply kw_step_ok in Hstep as [(j' & Hj' & Hx & ->)|(Hnone & _ & a & mp & -> & Ha & ->)];
      simpl in *.
    + apply param_index_range in Hj' as Hr; [|lia]. destruct Hr as [Hr _].
      destruct (decide (j' = j)) as [->|Hne].
      * rewrite (local_put_local_eq N m j v0) in Hn1 by (done || lia).
        injection Hn1 as ->. split; [done|].
        intros q v Hin Hq. apply elem_of_cons in Hin as [[= -> ->]|Hin]; [done|].
        by eapply Hall.
      * rewrite (local_put_local_ne N m j' j v0) in Hn1 by (done || lia).
        split; [done|].
        intros q v Hin Hq. apply elem_of_cons in Hin as [[= -> ->]|Hin]; [congruence|].
        by eapply Hall.
    + split; [done|].
      intros q v Hin Hq. apply elem_of_cons in Hin as [[= -> ->]|Hin]; [congruence|].
      by eapply Hall.
Qed.

(** After the keyword loop, when every positional parameter without default
    has a value, the first keyword-only parameter that is empty and has no
    entry in the default-keyword mapping stops the call, and the error names
    it. *)
Lemma setup_after_kw_loop_kwonly self N m i name :
  shaped N m →
  0 ≤ n_def_args self ≤ n_pos_args self → 0 ≤ n_kwonly_args self →
  n_pos_args self + n_kwonly_args self ≤ N →
  Z.of_nat (length (arg_names self)) = n_pos_args self + n_kwonly_args self →
  n_def_args self ≤ Z.of_nat (length (extra_args self)) →
  (has_def_kw_args self = true →
   ∃ a mp, extra_args self !! Z.to_nat (n_def_args self) = Some (MP_OBJ_PTR a)
           ∧ heap m !! a = Some (mp_obj_dict_t mp)) →
  (∀ j, 0 ≤ j < n_pos_args self - n_def_args self → local m j ≠ Some MP_OBJ_NULL) →
  0 ≤ i < n_kwonly_args self →
  arg_names self !! Z.to_nat (n_pos_args self + i) = Some name →
  local m (n_pos_args self + i) = Some MP_OBJ_NULL →
  def_kw_lookup self (heap m) name = None →
  (∀ i' nm, 0 ≤ i' < i →
     arg_names self !! Z.to_nat (n_pos_args self + i') = Some nm →
     local m (n_pos_args self + i') ≠ Some MP_OBJ_NULL
     ∨ ∃ v, def_kw_lookup self (heap m) nm = Some v) →
  ∃ m', setup_after_kw_loop self N m = Raise (TypeError_missing_keyword name) m'.
Proof.
  intros Hs HD HK HN Hnames Hextra Hdef Hmand Hi Hname Hnull Hnone Hbefore.
  unfold setup_after_kw_loop.
  pose proof (fill_defaults_wp self 0%nat N (Z.to_nat (n_def_args self)) (n_pos_args self - 1) m
                Hs ltac:(lia) ltac:(lia) ltac:(lia)) as Hfill.
  replace (N - 1 - (n_pos_args self - 1)) with (N - n_pos_args self) in Hfill by lia.
  replace (Z.of_nat (Z.to_nat (n_def_args self)) - 1) with (n_def_args self - 1) in Hfill
    by lia.
  apply wp_inv in Hfill as [(d & m1 & Hrun1 & -> & Hst1 & Hh1 & Hout1 & _)|(? & ? & _ & [])].
  erewrite bind_ok by exact Hrun1.
  assert (Hs1 : shaped N m1) by by eapply steady_shaped.
  pose proof (check_mandatory_wp N (Z.to_nat (n_pos_args self - n_def_args self))
                (n_pos_args self - n_def_args self - 1) m1 Hs1 ltac:(lia) ltac:(lia))
    as Hchk.
  replace (N - 1 - (n_pos_args self - n_def_args self - 1))
    with (N - n_pos_args self + Z.of_nat (Z.to_nat (n_def_args self))) in Hchk by lia.
  replace (Z.to_nat (N - (N - n_pos_args self + Z.of_nat (Z.to_nat (n_def_args self)))))
    with (Z.to_nat (n_pos_args self - n_def_args self)) by lia.
  apply wp_inv in Hchk as [([] & m2 & Hrun2 & -> & _)|(e & m2 & _ & -> & j & Hj & _ & Hn & _)].
  2:{ exfalso. apply (Hmand j ltac:(lia)). by rewrite <- Hout1 by lia. }
  erewrite bind_ok by exact Hrun2.
  pose proof (kwonly_loop_first_wp self 0%nat N m1 Hs1 ltac:(lia) ltac:(lia) ltac:(lia)
                ltac:(lia) Hnames) as Hloop.
  apply wp_inv in Hloop
    as [([] & m3 & _ & _ & _ & _ & Hin3)
       |(e & m3 & Hrun3 & _ & _ & i' & nm & Hi' & Hnm & -> & Hnull' & Hnone' & Hfirst)].
  - exfalso. destruct (Hin3 i Hi) as (x & name' & Hx & Hname' & _ & Hcase).
    rewrite Hout1, Hnull in Hx by lia. injection Hx as <-.
    rewrite Hname in Hname'. injection Hname' as <-.
    destruct (Hcase eq_refl) as (v & Hv & _). rewrite Hh1 in Hv. congruence.
  - rewrite Hout1 in Hnull' by lia. rewrite Hh1 in Hnone'.
    destruct (Z.lt_trichotomy i' i) as [Hlt|[->|Hgt]].
    + exfalso. destruct (Hbefore i' nm ltac:(lia) Hnm) as [Hv|[v Hv]]; congruence.
    + rewrite Hname in Hnm. injection Hnm as <-. by exists m3.
    + exfalso. destruct (Hfirst i ltac:(lia)) as (x & name' & Hx & Hname' & Hcase).
      rewrite Hout1, Hnull in Hx by lia. injection Hx as <-.
      rewrite Hname in Hname'. injection Hname' as <-.
      destruct (Hcase eq_refl) as (v & Hv). rewrite Hh1 in Hv. congruence.
  - intros Hhas. rewrite Hh1. by apply Hdef.
Qed.

(** C7, as the code has it.  A keyword-only parameter with no keyword pair
    of its name and no entry in the default-keyword mapping makes the call
    fail, whatever the default positional values are.  Which error it is
    follows the order of the checks.  Without keywords and default-keyword
    mapping, a call that passes the arity check raises "missing keyword-only
    argument".  With keywords or such a mapping, a call that is not in
    excess, whose pairs can be bound and whose positional parameters without
    default all get an object, raises "missing required keyword argument"
    for the first keyword-only parameter that has neither a pair nor an
    entry.  Any other error is that of an earlier check that fails: the arity
    error when the positional arguments are too many or, without keywords,
    too few; the error of a pair when the pairs cannot be bound; "missing
    required positional argument" for a positional parameter without default
    that no argument gives an object. *)
Theorem keyword_only_required (self : mp_obj_fun_bc_t) (pos : list mp_obj_t)
    (kws : list (qstr * mp_obj_t)) (m : mem) (closed : list Z) (i : Z) (name : qstr) :
  call_ok self m closed →
  0 ≤ i < n_kwonly_args self →
  arg_names self !! Z.to_nat (n_pos_args self + i) = Some name →
  name ∉ kws.*1 →
  def_kw_lookup self (heap m) name = None →
  (∃ e m',
     mp_setup_code_state self (Z.of_nat (length pos)) (Z.of_nat (length kws))
       (pos ++ kw_flat kws) m = Raise e m'
     ∧ (e = TypeError_missing_kwonly
          ∧ fast_path self (Z.of_nat (length kws)) = true
        ∨ (∃ i' nm, 0 ≤ i' < n_kwonly_args self
             ∧ arg_names self !! Z.to_nat (n_pos_args self + i') = Some nm
             ∧ e = TypeError_missing_keyword nm
             ∧ def_kw_lookup self (heap m) nm = None
             ∧ ∀ q v, (q, v) ∈ kws → param_index self q = Some (n_pos_args self + i') →
                 v = MP_OBJ_NULL)
        ∨ is_arity_error e
          ∧ (n_pos_args self < Z.of_nat (length pos) ∧ takes_var_args self = false
             ∨ fast_path self (Z.of_nat (length kws)) = true
               ∧ Z.of_nat (length pos) < n_pos_args self - n_def_args self)
        ∨ (∃ q, q ∈ kws.*1 ∧ e = kw_error self q)
          ∧ ¬ kws_bindable self (Z.of_nat (length pos)) kws
        ∨ (∃ j, 0 ≤ j < n_pos_args self - n_def_args self
             ∧ e = TypeError_missing_positional j
             ∧ (j < Z.of_nat (length pos) → pos !! Z.to_nat j = Some MP_OBJ_NULL)
             ∧ ∀ q v, (q, v) ∈ kws → param_index self q = Some j → v = MP_OBJ_NULL)))
  ∧ (kws = [] → has_def_kw_args self = false →
     n_pos_args self - n_def_args self ≤ Z.of_nat (length pos) →
     (Z.of_nat (length pos) ≤ n_pos_args self ∨ takes_var_args self = true) →
     ∃ m',
       mp_setup_code_state self (Z.of_nat (length pos)) (Z.of_nat (length kws))
         (pos ++ kw_flat kws) m = Raise TypeError_missing_kwonly m')
  ∧ (fast_path self (Z.of_nat (length kws)) = false →
     (Z.of_nat (length pos) ≤ n_pos_args self ∨ takes_var_args self = true) →
     kws_bindable self (Z.of_nat (length pos)) kws →
     Forall (λ x, x ≠ MP_OBJ_NULL) pos →
     (∀ j, Z.min (Z.of_nat (length pos)) (n_pos_args self) ≤ j
           < n_pos_args self - n_def_args self → kw_supplies self kws j) →
     (∀ i' nm, 0 ≤ i' < i →
        arg_names self !! Z.to_nat (n_pos_args self + i') = Some nm →
        kw_supplies self kws (n_pos_args self + i')
        ∨ ∃ v, def_kw_lookup self (heap m) nm = Some v) →
     ∃ m',
       mp_setup_code_state self (Z.of_nat (length pos)) (Z.of_nat (length kws))
         (pos ++ kw_flat kws) m = Raise (TypeError_missing_keyword name) m').
Proof.
  intros Hok Hi Hname Hnot Hlk.
  pose proof (call_ok_frame _ _ _ Hok) as HPK.
  pose proof (call_ok_state _ _ _ Hok) as HN0.
  pose proof (ok_def _ _ _ Hok) as HD.
  pose proof (ok_kwonly _ _ _ Hok) as HK.
  pose proof (b2z_nonneg (takes_var_args self)) as Hbv.
  pose proof (b2z_nonneg (takes_kw_args self)) as Hbk.
  assert (Hfastcase : fast_path self (Z.of_nat (length kws)) = true →
            n_pos_args self - n_def_args self ≤ Z.of_nat (length pos) →
            (Z.of_nat (length pos) ≤ n_pos_args self ∨ takes_var_args self = true) →
            ∃ m', mp_setup_code_state self (Z.of_nat (length pos)) (Z.of_nat (length kws))
                    (pos ++ kw_flat kws) m = Raise TypeError_missing_kwonly m').
  { intros Hfast Hk Hpass.
    destruct (setup_prefix self pos kws m closed Hok Hpass ltac:(done))
      as (m2 & Hrun & Hst2 & _ & _ & Hd2 & _).
    pose proof (call_ok_shaped _ _ _ _ _ Hok Hst2) as Hs2.
    assert (Hkw0 : Z.of_nat (length kws) = 0 ∧ has_def_kw_args self = false).
    { unfold fast_path in Hfast. apply andb_prop in Hfast as [H1 H2].
      apply Z.eqb_eq in H1. by destruct (has_def_kw_args self). }
    destruct Hkw0 as [Hkw0 Hdef]. rewrite Hkw0 in Hrun |- *.
    destruct (wp_inv _ _ _ _
      (setup_no_keywords_wp self (length (heap m)) (n_state (frame m))
         (Z.of_nat (length pos)) (pos ++ kw_flat kws) m2 Hs2 Hdef
         ltac:(pose proof (ok_def _ _ _ Hok); lia) (ok_kwonly _ _ _ Hok)
         (ok_frame _ _ _ Hok) (st_heap_len _ _ _ Hst2)
         ltac:(intros Hkw; apply Hd2; pose proof (ok_frame _ _ _ Hok) as Hf;
               rewrite Hkw in Hf; simpl in Hf; lia)))
      as [([] & m3 & _ & HK0 & _)|(e & m3 & Hrun3 & _ & -> & ->)]; [lia|].
    exists m2. rewrite Hrun. by erewrite bind_raise by exact Hrun3. }
  assert (Hunnamed : ¬ kw_supplies self kws (n_pos_args self + i)).
  { intros (q & v & Hin & Hq). apply param_index_range in Hq as [_ Hq]; [|lia].
    rewrite Hname in Hq. injection Hq as <-.
    apply Hnot. apply list_elem_of_fmap. by exists (name, v). }
  assert (Hlook : ∀ m3 nm, steady (length (heap m)) (zeroed self m) m3 →
            def_kw_lookup self (heap m3) nm = def_kw_lookup self (heap m) nm).
  { intros m3 nm Hst3.
    rewrite (def_kw_lookup_steady self (length (heap m)) (zeroed self m) m3); [done|done|].
    intros Hhas. destruct (ok_def_kw _ _ _ Hok Hhas) as (a & mp & Ha & Hmp).
    exists a. split; [done|]. by eapply lookup_lt_Some. }
  split; [|split].
  2:{ intros -> Hdef. apply Hfastcase. unfold fast_path. by rewrite Hdef. }
  2:{ (* with keywords, when the earlier checks pass *)
      intros Hfast Hpass (Hnd & Hvnn & Hidx) Hposnn Hreq Hbefore.
      destruct (setup_kw_path self pos kws m closed Hok Hpass Hfast)
        as (m2 & dict & Hraise & Hcont & Hst2 & Hdr & Hpos2 & Hnull2 & _).
      pose proof (call_ok_shaped _ _ _ _ _ Hok Hst2) as Hs2.
      destruct (kw_run_ok self dict (length (heap m)) (n_state (frame m)) kws m2 HPK Hs2
                  Hdr Hnd) as (m3 & Hrun & Hst3 & Hnamed & Hrest).
      { intros q v Hin. pose proof (Hidx q v Hin) as Hq.
        destruct (param_index self q) as [j|] eqn:Hj; [|done].
        apply Hnull2. apply param_index_range in Hj as [Hj _]; lia. }
      assert (Hs3 : shaped (n_state (frame m)) m3) by by eapply steady_shaped.
      assert (Hvalue : ∀ q v j, (q, v) ∈ kws → param_index self q = Some j →
                local m3 j ≠ Some MP_OBJ_NULL).
      { intros q v j Hin Hq. rewrite (Hnamed q v j Hin Hq). intros [= ->].
        by apply (proj1 (Forall_forall _ _) Hvnn (q, MP_OBJ_NULL)). }
      destruct (setup_after_kw_loop_kwonly self (n_state (frame m)) m3 i name)
        as (m' & Hmiss); try (done || lia).
      { apply (ok_names _ _ _ Hok). }
      { pose proof (ok_extra _ _ _ Hok). pose proof (b2z_nonneg (has_def_kw_args self)). lia. }
      { intros Hhas.
        destruct (call_ok_def_kw self m closed (length (heap m)) m3 Hok
                    ltac:(by eapply steady_trans) eq_refl Hhas) as (a & mp & Ha & Hmp & _).
        by exists a, mp. }
      { intros j Hj.
        destruct (decide (j < Z.min (Z.of_nat (length pos)) (n_pos_args self))) as [Hlt|Hge].
        - rewrite Hrest.
          + rewrite Hpos2 by lia.
            destruct (lookup_lt_is_Some_2 pos (Z.to_nat j)) as [x Hx]; [lia|].
            rewrite Hx. intros [= ->].
            apply (proj1 (Forall_forall _ _) Hposnn MP_OBJ_NULL); [|done].
            by eapply list_elem_of_lookup_2.
          + intros (q & v & Hin & Hq). specialize (Hidx q v Hin). rewrite Hq in Hidx. lia.
        - destruct (Hreq j ltac:(lia)) as (q & v & Hin & Hq). by eapply Hvalue. }
      { rewrite Hrest by done. apply Hnull2. lia. }
      { rewrite Hlook; [done|]. by eapply steady_trans. }
      { intros i' nm Hi' Hnm. destruct (Hbefore i' nm Hi' Hnm) as [(q & v & Hin & Hq)|[v Hv]].
        - left. by eapply Hvalue.
        - right. exists v. rewrite Hlook; [done|]. by eapply steady_trans. }
      exists m'. rewrite (Hcont m3 Hrun). by erewrite bind_raise by exact Hmiss. }
  destruct (decide (Z.of_nat (length pos) ≤ n_pos_args self ∨ takes_var_args self = true))
    as [Hpass|Hnopass].
  2:{ (* too many positional arguments *)
      assert (Hvar : takes_var_args self = false).
      { destruct (takes_var_args self); [|done]. destruct Hnopass. by right. }
      exists (TypeError_pos_args_mismatch (n_pos_args self) (Z.of_nat (length pos))),
        (zeroed self m).
      split; [apply setup_excess_raise; [done|lia]|].
      right; right; left. split; [by eexists _, _|]. left. split; [lia|done]. }
  destruct (fast_path self (Z.of_nat (length kws))) eqn:Hfast.
  - (* no keywords *)
    destruct (decide (n_pos_args self - n_def_args self ≤ Z.of_nat (length pos))) as [Hk|Hk].
    + destruct (Hfastcase eq_refl Hk Hpass) as (m' & Hr). exists TypeError_missing_kwonly, m'.
      split; [done|by left].
    + destruct (setup_check_positional_short self (n_state (frame m))
                  (Z.of_nat (length pos)) (Z.of_nat (length kws)) (pos ++ kw_flat kws)
                  (zeroed self m))
        as (m' & Hrun & _); try (done || lia || apply Hok).
      { by apply shaped_zeroed. }
      { pose proof (ok_frame _ _ _ Hok). lia. }
      eexists _, m'. split.
      { rewrite mp_setup_code_state_blocks. by erewrite bind_raise by done. }
      right; right; left. split; [by eexists _, _|]. right. split; [done|lia].
  - (* keywords *)
    destruct (setup_kw_path self pos kws m closed Hok Hpass Hfast)
      as (m2 & dict & Hraise & Hcont & Hst2 & Hdr & Hpos2 & Hnull2 & _).
    pose proof (call_ok_shaped _ _ _ _ _ Hok Hst2) as Hs2.
    destruct (setup_kw_path_outcome self pos kws m closed Hok Hpass Hfast
                m2 dict Hraise Hcont Hst2 Hdr)
      as [(e & m1 & Hkwr & _ & Hq & Hr1)|[(m3 & e & m1 & Hkwr & Hst3 & Hexc & Hr1)
         |(m3 & m4 & m1 & Hrun & Hst3 & Hpost & _ & _)]].
    + exists e, m1. split; [done|]. right; right; right; left. split; [done|].
      intros (Hnd & Hvnn & Hidx).
      destruct (kw_run_ok self dict (length (heap m)) (n_state (frame m)) kws m2 HPK Hs2
                  Hdr Hnd) as (m3 & Hrun & _).
      { intros q v Hin. pose proof (Hidx q v Hin) as Hq'.
        destruct (param_index self q) as [j|] eqn:Hj; [|done].
        apply Hnull2. apply param_index_range in Hj as [Hj _]; lia. }
      congruence.
    + exists e, m1. split; [done|].
      assert (Hlook3 : ∀ nm, def_kw_lookup self (heap m3) nm = def_kw_lookup self (heap m) nm).
      { intros nm. apply Hlook. by eapply steady_trans. }
      destruct Hexc as (_ & _ & [(j & Hj & -> & Hn3 & _)|(i' & nm & Hi' & Hnm & -> & Hn3 & Hnone)]).
      * right; right; right; right. exists j. split; [done|]. split; [done|].
        destruct (kw_run_null self dict (n_state (frame m)) kws m2 m3 j HPK Hs2 Hkwr Hn3)
          as [Hn2 Hall].
        split; [|done]. intros Hlt. rewrite <- Hpos2 by lia. done.
      * right; left. exists i', nm. split; [done|]. split; [done|]. split; [done|].
        split; [by rewrite <- Hlook3|].
        by destruct (kw_run_null self dict (n_state (frame m)) kws m2 m3
                       (n_pos_args self + i') HPK Hs2 Hkwr Hn3).
    + (* the call cannot return *)
      exfalso.
      assert (Hl3 : local m3 (n_pos_args self + i) = Some MP_OBJ_NULL).
      { rewrite (kw_run_untouched self dict (n_state (frame m)) kws m2
                   (n_pos_args self + i) HPK Hs2); [|  |by left].
        - apply Hnull2. lia.
        - intros q Hq Hidx. apply param_index_range in Hidx as [_ Hidx]; [|lia].
          rewrite Hname in Hidx. injection Hidx as <-. done. }
      destruct Hpost as (_ & _ & _ & _ & Hkwonly & _).
      destruct (Hkwonly i Hi) as (x & nm & Hx & Hnm & Hnullcase).
      rewrite Hl3 in Hx. injection Hx as <-. rewrite Hname in Hnm. injection Hnm as <-.
      destruct (Hnullcase eq_refl) as (v & Hv & _).
      rewrite Hlook in Hv by by eapply steady_trans. congruence.
Qed.

Lemma keyword_only_required_witness :
  call_ok f_a_k (frame_mem [] 2 8) []
  ∧ arg_names f_a_k !! Z.to_nat (n_pos_args f_a_k + 0) = Some MP_QSTR_k
  ∧ def_kw_lookup f_a_k (heap (frame_mem [] 2 8)) MP_QSTR_k = None
  ∧ (∃ m',
       mp_setup_code_state f_a_k 0 1 [MP_OBJ_NEW_QSTR MP_QSTR_a; MP_OBJ_NEW_SMALL_INT 1]
         (frame_mem [] 2 8)
       = Raise (TypeError_missing_keyword MP_QSTR_k) m')
  ∧ ∃ m',
      mp_setup_code_state f_a_k 1 0 [MP_OBJ_NEW_SMALL_INT 1] (frame_mem [] 2 8)
      = Raise TypeError_missing_kwonly m'.
Proof.
  split; [exact f_a_k_ok|]. split; [reflexivity|]. split; [reflexivity|]. split.
  - destruct (keyword_only_required f_a_k [] [(MP_QSTR_a, MP_OBJ_NEW_SMALL_INT 1)]
                (frame_mem [] 2 8) [] 0 MP_QSTR_k f_a_k_ok) as (_ & _ & H3).
    + simpl. lia.
    + reflexivity.
    + simpl. intros Hin. apply list_elem_of_singleton in Hin. done.
    + reflexivity.
    + apply H3.
      * reflexivity.
      * left. simpl. lia.
      * split; [apply NoDup_singleton|]. split; [repeat constructor; done|].
        intros q v Hin. apply list_elem_of_singleton in Hin as [= -> ->]. simpl. lia.
      * constructor.
      * intros j Hj. simpl in Hj.
        assert (j = 0) as -> by lia.
        exists MP_QSTR_a, (MP_OBJ_NEW_SMALL_INT 1). split; [apply list_elem_of_here|done].
      * intros i' nm Hi'. lia.
  - destruct (keyword_only_required f_a_k [MP_OBJ_NEW_SMALL_INT 1] [] (frame_mem [] 2 8) []
                0 MP_QSTR_k f_a_k_ok) as (_ & H2 & _).
    + simpl. lia.
    + reflexivity.
    + apply not_elem_of_nil.
    + reflexivity.
    + apply H2; [reflexivity|reflexivity|simpl; lia|left; simpl; lia].
Defined.

(** The statement of C7 names the error, which may be another one:
    [def f(a, *, k)] called without arguments raises the arity error. *)
Lemma keyword_only_required_counterexample :
  arg_names f_a_k !! Z.to_nat (n_pos_args f_a_k + 0) = Some MP_QSTR_k
  ∧ def_kw_lookup f_a_k (heap (frame_mem [] 2 8)) MP_QSTR_k = None
  ∧ ∃ m', mp_setup_code_state f_a_k 0 0 [] (frame_mem [] 2 8)
          = Raise (TypeError_pos_args_mismatch 1 0) m'.
Proof.
  split; [reflexivity|]. split; [reflexivity|]. eexists. vm_compute. reflexivity.
Qed.

(** ** More positional arguments than parameters, with [*args] *)

Lemma bound_nil m j : bound [] m j = local m j.
Proof. unfold bound. simpl. by destruct (local m j). Qed.

(** C3.  On a function with the variadic-positional flag, a call with more
    (non-null) positional arguments than positional parameters never raises
    the arity error.  However the call ends, the slot after the parameters
    holds a pointer to a block this call allocated (it lies past the heap as
    it was), a tuple whose items are the arguments from [n_pos_args] on, in
    their order, and parameter [j < n_pos_args] is bound to argument [j].
    (When the call returns, a local the prelude lists is boxed: the slot holds
    a new cell with that value.) *)
Theorem variadic_excess (self : mp_obj_fun_bc_t) (pos : list mp_obj_t)
    (kws : list (qstr * mp_obj_t)) (m : mem) (closed : list Z) :
  call_ok self m closed →
  takes_var_args self = true →
  n_pos_args self < Z.of_nat (length pos) →
  Forall (λ o, o ≠ MP_OBJ_NULL) pos →
  ∃ m' c,
    (mp_setup_code_state self (Z.of_nat (length pos)) (Z.of_nat (length kws))
       (pos ++ kw_flat kws) m = Ok tt m' ∧ c = closed
     ∨ ∃ e, mp_setup_code_state self (Z.of_nat (length pos)) (Z.of_nat (length kws))
              (pos ++ kw_flat kws) m = Raise e m'
            ∧ ¬ is_arity_error e ∧ c = [])
    ∧ bound c m' (n_pos_args self + n_kwonly_args self)
      = Some (MP_OBJ_PTR (length (heap m)))
    ∧ heap m' !! length (heap m)
      = Some (mp_obj_tuple_t (drop (Z.to_nat (n_pos_args self)) pos))
    ∧ ∀ j, 0 ≤ j < n_pos_args self → bound c m' j = pos !! Z.to_nat j.
Proof.
  intros Hok Hvar Hk Hpos.
  pose proof (call_ok_frame _ _ _ Hok) as HPK.
  pose proof (call_ok_state _ _ _ Hok) as HN0.
  pose proof (b2z_nonneg (takes_kw_args self)) as Hbk.
  pose proof (ok_frame _ _ _ Hok) as Hframe. rewrite Hvar in Hframe. simpl in Hframe.
  pose proof (ok_def _ _ _ Hok) as HD. pose proof (ok_kwonly _ _ _ Hok) as HK.
  set (N := n_state (frame m)) in *. set (P := n_pos_args self) in *.
  set (K := n_kwonly_args self) in *.
  set (t := MP_OBJ_PTR (length (heap m))).
  set (items := drop (Z.to_nat P) pos).
  (* what holds where the keyword block starts, and is kept from there *)
  set (facts := λ m2 : mem,
         local m2 (P + K) = Some t
         ∧ heap m2 !! length (heap m) = Some (mp_obj_tuple_t items)
         ∧ ∀ j, 0 ≤ j < P → local m2 j = pos !! Z.to_nat j).
  assert (Hkeep : ∀ m2 m3, shaped N m2 → steady (length (heap m)) m2 m3 →
                    facts m2 → facts m3).
  { intros m2 m3 Hs2 Hst (Ht & Hh & Hl). split; [|split].
    - eapply steady_local; eauto. unfold P, K in *. lia.
    - by apply (st_heap _ _ _ Hst).
    - intros j Hj.
      destruct (lookup_lt_is_Some_2 pos (Z.to_nat j)) as [x Hx]; [unfold P in *; lia|].
      rewrite Hx. eapply steady_local; eauto; [unfold P, K in *; lia|by rewrite Hl|].
      apply (Forall_lookup_1 _ _ _ _ Hpos Hx). }
  assert (Hraise : ∀ m2, facts m2 →
            bound [] m2 (P + K) = Some t
            ∧ heap m2 !! length (heap m) = Some (mp_obj_tuple_t items)
            ∧ ∀ j, 0 ≤ j < P → bound [] m2 j = pos !! Z.to_nat j).
  { intros m2 (Ht & Hh & Hl). rewrite bound_nil. split; [done|]. split; [done|].
    intros j Hj. rewrite bound_nil. by apply Hl. }
  assert (Hret : ∀ m4 m', facts m4 → prelude_post N closed m4 m' →
            bound closed m' (P + K) = Some t
            ∧ heap m' !! length (heap m) = Some (mp_obj_tuple_t items)
            ∧ ∀ j, 0 ≤ j < P → bound closed m' j = pos !! Z.to_nat j).
  { intros m4 m' (Ht & Hh & Hl) (_ & _ & _ & Hprefix & Hb). split; [|split].
    - destruct (Hb (P + K) ltac:(unfold P, K in *; lia)) as (x & Hx & Hbx). congruence.
    - by eapply prefix_lookup_Some.
    - intros j Hj. destruct (Hb j ltac:(unfold P, K in *; lia)) as (x & Hx & Hbx).
      rewrite Hbx, <- Hx. by apply Hl. }
  destruct (fast_path self (Z.of_nat (length kws))) eqn:Hfast.
  - (* no keywords *)
    destruct (setup_prefix self pos kws m closed Hok ltac:(by right)
                ltac:(intros _ ?; unfold P in *; lia))
      as (m2 & Hrun & Hst2 & Hin2 & _ & Hd2 & _ & _ & Hx2).
    destruct (Hx2 Hvar Hk) as [Hh2 Ht2].
    pose proof (call_ok_shaped _ _ _ _ _ Hok Hst2) as Hs2.
    assert (Hf2 : facts m2).
    { split; [done|]. split.
      - rewrite Hh2. by rewrite lookup_app_r, Nat.sub_diag by lia.
      - intros j Hj. apply Hin2. unfold P in *. lia. }
    assert (Hkw0 : Z.of_nat (length kws) = 0 ∧ has_def_kw_args self = false).
    { unfold fast_path in Hfast. apply andb_prop in Hfast as [H1 H2].
      apply Z.eqb_eq in H1. by destruct (has_def_kw_args self). }
    destruct Hkw0 as [Hkw0 Hdef]. rewrite Hkw0 in Hrun |- *.
    destruct (wp_inv _ _ _ _
      (setup_no_keywords_wp self (length (heap m)) N
         (Z.of_nat (length pos)) (pos ++ kw_flat kws) m2 Hs2 Hdef
         ltac:(unfold P in *; lia) HK (ok_frame _ _ _ Hok) (st_heap_len _ _ _ Hst2)
         ltac:(intros Hkw; apply Hd2; pose proof (ok_frame _ _ _ Hok) as Hf;
               rewrite Hkw in Hf; simpl in Hf; fold N; lia)))
      as [([] & m3 & Hrun3 & _ & Hst3 & _)|(e & m3 & Hrun3 & _ & -> & ->)].
    + assert (Hst03 : steady (length (heap m)) (zeroed self m) m3) by by eapply steady_trans.
      pose proof (call_ok_shaped _ _ _ _ _ Hok Hst03) as Hs3.
      assert (Hip3 : ip (frame m3) = ip (frame m)) by by rewrite (st_ip _ _ _ Hst03).
      destruct (wp_inv _ _ _ _
        (setup_prelude_wp self N closed m3 Hs3
           ltac:(rewrite Hip3; apply (ok_prelude _ _ _ Hok)) (ok_closed _ _ _ Hok)))
        as [([] & m' & Hrun4 & Hpre)|(e & m' & _ & [])].
      exists m', closed. split.
      * left. split; [|done]. rewrite Hrun. fold N.
        erewrite bind_ok by exact Hrun3. by rewrite <- Hip3.
      * apply (Hret m3 m'); [by apply (Hkeep m2)|done].
    + exists m2, []. split.
      * right. exists TypeError_missing_kwonly. split.
        { rewrite Hrun. fold N. by erewrite bind_raise by exact Hrun3. }
        split; [by intros (? & ? & [=])|done].
      * by apply Hraise.
  - (* keywords *)
    destruct (setup_kw_path self pos kws m closed Hok ltac:(by right) Hfast)
      as (m2 & dict & Hraise2 & Hcont & Hst2 & Hdr & Hin2 & _ & _ & Hx2 & _).
    destruct (Hx2 Hvar Hk) as [Ht2 Hh2].
    pose proof (call_ok_shaped _ _ _ _ _ Hok Hst2) as Hs2.
    assert (Hf2 : facts m2).
    { split; [done|]. split; [done|]. intros j Hj. apply Hin2. unfold P in *. lia. }
    destruct (setup_kw_path_outcome self pos kws m closed Hok ltac:(by right) Hfast
                m2 dict Hraise2 Hcont Hst2 Hdr)
      as [(e & m1 & _ & Hst1 & (q & _ & ->) & Hr1)|[(m3 & e & m1 & _ & Hst3 & Hexc & Hr1)
         |(m3 & m4 & m1 & _ & Hst3 & Hpost & Hpre & Hr1)]].
    + exists m1, []. split.
      * right. exists (kw_error self q). split; [done|]. split; [|done].
        intros (? & ? & Hq). unfold kw_error in Hq. by destruct (param_index self q).
      * apply Hraise. by apply (Hkeep m2).
    + exists m1, []. split.
      * right. exists e. split; [done|]. split; [|done].
        intros (? & ? & ->).
        by destruct Hexc as (_ & _ & [(j & _ & [=] & _)|(i' & nm & _ & _ & [=] & _)]).
      * apply Hraise. apply (Hkeep m3); [by eapply steady_shaped|apply Hexc|].
        by apply (Hkeep m2).
    + exists m1, closed. split; [by left|].
      apply (Hret m4 m1); [|done].
      apply (Hkeep m3); [by eapply steady_shaped|apply Hpost|]. by apply (Hkeep m2).
Qed.

Lemma f_a_star_ok : call_ok f_a_star (frame_mem [] 2 8) [].
Proof.
  split; try done; try (simpl; lia).
Qed.

Lemma variadic_excess_witness :
  call_ok f_a_star (frame_mem [] 2 8) []
  ∧ takes_var_args f_a_star = true
  ∧ ∃ m' c,
      (mp_setup_code_state f_a_star 3 0
         [MP_OBJ_NEW_SMALL_INT 1; MP_OBJ_NEW_SMALL_INT 2; MP_OBJ_NEW_SMALL_INT 3]
         (frame_mem [] 2 8) = Ok tt m' ∧ c = []
       ∨ ∃ e, mp_setup_code_state f_a_star 3 0
                [MP_OBJ_NEW_SMALL_INT 1; MP_OBJ_NEW_SMALL_INT 2; MP_OBJ_NEW_SMALL_INT 3]
                (frame_mem [] 2 8) = Raise e m'
              ∧ ¬ is_arity_error e ∧ c = [])
      ∧ bound c m' 1 = Some (MP_OBJ_PTR 0%nat)
      ∧ heap m' !! 0%nat
        = Some (mp_obj_tuple_t [MP_OBJ_NEW_SMALL_INT 2; MP_OBJ_NEW_SMALL_INT 3])
      ∧ ∀ j, 0 ≤ j < 1 →
          bound c m' j
          = [MP_OBJ_NEW_SMALL_INT 1; MP_OBJ_NEW_SMALL_INT 2; MP_OBJ_NEW_SMALL_INT 3]
              !! Z.to_nat j.
Proof.
  split; [exact f_a_star_ok|]. split; [reflexivity|].
  apply (variadic_excess f_a_star
           [MP_OBJ_NEW_SMALL_INT 1; MP_OBJ_NEW_SMALL_INT 2; MP_OBJ_NEW_SMALL_INT 3] []
           (frame_mem [] 2 8) [] f_a_star_ok eq_refl).
  - simpl. lia.
  - by repeat constructor.
Defined.

(** ** The viper signature *)

(** Whatever the order, each argument is evaluated once and its value ends
    up at its position: with expressions that leave the memory alone the
    order does not show. *)
Lemma eval_in_order_pure (order : fun_viper.arg_order) (c0 c1 c2 : M Z) (w0 w1 w2 : Z)
    (m : mem) :
  c0 m = Ok w0 m → c1 m = Ok w1 m → c2 m = Ok w2 m →
  eval_in_order (fun_viper.positions order) [c0; c1] [0; 0] m = Ok [w0; w1] m
  ∧ eval_in_order (fun_viper.positions order) [c0; c1; c2] [0; 0; 0] m = Ok [w0; w1; w2] m.
Proof.
  intros H0 H1 H2.
  destruct order; simpl; unfold mbind, M_bind; rewrite ?H0, ?H1, ?H2; simpl;
    rewrite ?H0, ?H1, ?H2; simpl; rewrite ?H0, ?H1, ?H2; done.
Qed.

(** [fun_viper_call] takes the type of the return value from the lowest
    slot of the signature and the type of argument [i] from slot [i + 1],
    whatever the order in which the compiler evaluates the arguments; with
    two arguments the conversions run left to right or right to left as that
    order says. *)
Lemma fun_viper_call_slots (obj_to_native : Z → mp_obj_t → M Z)
    (native_to_obj : Z → Z → M mp_obj_t) (order : fun_viper.arg_order)
    (f : list Z → M Z) (sig : Z) (a0 a1 : mp_obj_t) (m : mem) :
  fun_viper_call obj_to_native native_to_obj order (fun_viper.Fun_viper 0 f sig) 0 0 [] m
  = (ret ← f []; native_to_obj (sig_slot sig 0) ret) m
  ∧ fun_viper_call obj_to_native native_to_obj order (fun_viper.Fun_viper 1 f sig) 1 0 [a0] m
    = (w0 ← obj_to_native (sig_slot sig 1) a0;
       ret ← f [w0]; native_to_obj (sig_slot sig 0) ret) m
  ∧ fun_viper_call obj_to_native native_to_obj order (fun_viper.Fun_viper 2 f sig) 2 0
      [a0; a1] m
    = match order with
      | fun_viper.Order_012 | fun_viper.Order_021 | fun_viper.Order_201 =>
          w0 ← obj_to_native (sig_slot sig 1) a0;
          w1 ← obj_to_native (sig_slot sig 2) a1;
          ret ← f [w0; w1]; native_to_obj (sig_slot sig 0) ret
      | _ =>
          w1 ← obj_to_native (sig_slot sig 2) a1;
          w0 ← obj_to_native (sig_slot sig 1) a0;
          ret ← f [w0; w1]; native_to_obj (sig_slot sig 0) ret
      end m.
Proof.
  unfold fun_viper_call, convert_arg, mp_convert_obj_to_native, mp_convert_native_to_obj,
    sig_slot.
  simpl. rewrite Z.shiftr_0_r. unfold mbind, M_bind. simpl.
  repeat split.
  - by destruct (obj_to_native _ a0 m).
  - destruct order; simpl; unfold mbind, M_bind, mret, M_ret; simpl.
    all: try (destruct (obj_to_native _ a0 m) as [w0 m1| | |]; try done;
              by destruct (obj_to_native _ a1 m1)).
    all: destruct (obj_to_native _ a1 m) as [w1 m1| | |]; try done;
         by destruct (obj_to_native _ a0 m1).
Qed.

(** C8, where the code departs from the documented layout.  A viper
    function of one argument whose signature is [INT << 2 | OBJ]: the call
    converts the argument with the type in slot 1 (int) and the return value
    with the type in slot 0 (object), the least significant slot.  By the
    layout documented in emitglue.h, "ret is MSB, then arg0", the return type
    of this signature is int and the type of the argument is object. *)
Theorem viper_return_type_slot (obj_to_native : Z → mp_obj_t → M Z)
    (native_to_obj : Z → Z → M mp_obj_t) (order : fun_viper.arg_order)
    (f : list Z → M Z) (a0 : mp_obj_t) (m : mem) :
  fun_viper_call obj_to_native native_to_obj order
    (fun_viper.Fun_viper 1 f (Z.lor (Z.shiftl MP_NATIVE_TYPE_INT 2) MP_NATIVE_TYPE_OBJ))
    1 0 [a0] m
  = (w0 ← obj_to_native MP_NATIVE_TYPE_INT a0;
     ret ← f [w0]; native_to_obj MP_NATIVE_TYPE_OBJ ret) m
  ∧ sig_ret_documented 1 (Z.lor (Z.shiftl MP_NATIVE_TYPE_INT 2) MP_NATIVE_TYPE_OBJ)
    = MP_NATIVE_TYPE_INT
  ∧ sig_arg_documented 1 (Z.lor (Z.shiftl MP_NATIVE_TYPE_INT 2) MP_NATIVE_TYPE_OBJ) 0
    = MP_NATIVE_TYPE_OBJ.
Proof.
  split; [|done].
  destruct (fun_viper_call_slots obj_to_native native_to_obj order f
              (Z.lor (Z.shiftl MP_NATIVE_TYPE_INT 2) MP_NATIVE_TYPE_OBJ) a0 a0 m)
    as (_ & H1 & _).
  exact H1.
Qed.

(** ** The frame allocator *)

Lemma quiet_ret {A : Type} (a : A) : quiet (mret a).
Proof. intros m. by apply wp_ret. Qed.

Lemma quiet_bind {A B : Type} (c : M A) (f : A → M B) :
  quiet c → (∀ a, quiet (f a)) → quiet (c ≫= f).
Proof.
  intros Hc Hf m. apply wp_bind. eapply wp_mono; [apply Hc| |done].
  intros a m1 H1. simpl. eapply wp_mono; [apply Hf| |].
  - intros b m2 H2. simpl in *. congruence.
  - intros e m2 [H2 He]. split; [congruence|done].
Qed.

Lemma quiet_raise {A : Type} e : (∀ o, e ≠ Exc_object o) → quiet (@nlr_raise A e).
Proof. intros He m. by apply wp_raise. Qed.

Lemma quiet_undefined {A : Type} : quiet (@undefined A).
Proof. by intros m. Qed.

Lemma quiet_array_get {A : Type} (a : list A) i : quiet (array_get a i).
Proof.
  intros m. unfold quiet_at, wpg, array_get.
  destruct (0 <=? i); [|done]. by destruct (a !! Z.to_nat i).
Qed.

Lemma quiet_state_get i : quiet (state_get i).
Proof. intros m. unfold state_get. apply quiet_array_get. Qed.

Lemma quiet_state_put i v : quiet (state_put i v).
Proof.
  intros m. unfold quiet_at, wpg, state_put.
  by destruct ((0 <=? i) && (i <? Z.of_nat (length (state (frame m))))).
Qed.

Lemma quiet_m_new_obj o : quiet (m_new_obj o).
Proof. by intros m. Qed.

Lemma quiet_mp_obj_new_tuple n items : quiet (mp_obj_new_tuple n items).
Proof.
  unfold mp_obj_new_tuple. destruct (n =? 0); [apply quiet_ret|].
  destruct (_ <? n); [apply quiet_undefined|apply quiet_m_new_obj].
Qed.

Lemma quiet_mp_obj_dict_store d k v : quiet (mp_obj_dict_store d k v).
Proof.
  intros m. unfold quiet_at, wpg, mp_obj_dict_store.
  destruct d as [| | | | |a]; try done. by destruct (heap m !! a) as [[]|].
Qed.

Lemma quiet_mp_map_lookup d k : quiet (mp_map_lookup d k).
Proof.
  intros m. unfold quiet_at, wpg, mp_map_lookup.
  destruct d as [| | | | |a]; try done. by destruct (heap m !! a) as [[]|].
Qed.

Lemma quiet_for_iter n i body : (∀ j, quiet (body j)) → quiet (for_iter n i body).
Proof.
  intros Hbody. revert i. induction n as [|n IH]; intros i; [apply quiet_ret|].
  simpl. apply quiet_bind; [apply Hbody|]. intros _. apply IH.
Qed.

Lemma quiet_kw_find self name n j : quiet (kw_find self name n j).
Proof.
  revert j. induction n as [|n IH]; intros j; [apply quiet_ret|].
  simpl. apply quiet_bind; [apply quiet_array_get|]. intros a.
  destruct (name =? a); [apply quiet_ret|apply IH].
Qed.

Lemma quiet_kw_body self N kwargs args dict i : quiet (kw_body self N kwargs args dict i).
Proof.
  unfold kw_body. apply quiet_bind; [apply quiet_array_get|]. intros k.
  apply quiet_bind; [destruct k; (apply quiet_ret || apply quiet_undefined)|]. intros q.
  apply quiet_bind; [apply quiet_kw_find|]. intros [j|].
  - apply quiet_bind; [apply quiet_state_get|]. intros x.
    destruct (decide (x ≠ MP_OBJ_NULL)); [by apply quiet_raise|].
    apply quiet_bind; [apply quiet_array_get|]. intros v. apply quiet_state_put.
  - destruct (negb (takes_kw_args self)); [by apply quiet_raise|].
    apply quiet_bind; [apply quiet_array_get|]. intros v.
    apply quiet_bind; [apply quiet_mp_obj_dict_store|]. intros _. apply quiet_ret.
Qed.

Lemma quiet_fill_defaults self i d s : quiet (fill_defaults self i d s).
Proof.
  revert d s. induction i as [|i IH]; intros d s; [apply quiet_ret|].
  simpl. apply quiet_bind; [apply quiet_state_get|]. intros x.
  apply quiet_bind; [|intros _; apply IH].
  destruct (decide (x = MP_OBJ_NULL)); [|apply quiet_ret].
  apply quiet_bind; [apply quiet_array_get|]. intros v. apply quiet_state_put.
Qed.

Lemma quiet_check_mandatory N n d : quiet (check_mandatory N n d).
Proof.
  revert d. induction n as [|n IH]; intros d; [apply quiet_ret|].
  simpl. apply quiet_bind; [apply quiet_state_get|]. intros x.
  destruct (decide (x = MP_OBJ_NULL)); [by apply quiet_raise|apply IH].
Qed.

Lemma quiet_kwonly_body self N i : quiet (kwonly_body self N i).
Proof.
  unfold kwonly_body. apply quiet_bind; [apply quiet_state_get|]. intros x.
  destruct (decide (x = MP_OBJ_NULL)); [|apply quiet_ret].
  apply quiet_bind; [apply quiet_array_get|]. intros name.
  apply quiet_bind.
  - destruct (has_def_kw_args self); [|apply quiet_ret].
    apply quiet_bind; [apply quiet_array_get|]. intros d. apply quiet_mp_map_lookup.
  - intros [v|]; [apply quiet_state_put|by apply quiet_raise].
Qed.

Lemma quiet_prelude_loop self N n ip0 : quiet (prelude_loop self N n ip0).
Proof.
  revert ip0. induction n as [|n IH]; intros ip0; [apply quiet_ret|].
  simpl. apply quiet_bind; [apply quiet_array_get|]. intros l.
  apply quiet_bind; [apply quiet_state_get|]. intros x.
  apply quiet_bind; [apply quiet_m_new_obj|]. intros c.
  apply quiet_bind; [apply quiet_state_put|]. intros _. apply IH.
Qed.

Lemma quiet_setup_check_positional self N k n_kw args :
  quiet (setup_check_positional self N k n_kw args).
Proof.
  unfold setup_check_positional. destruct (k >? n_pos_args self).
  - destruct (negb (takes_var_args self)); [by apply quiet_raise|].
    apply quiet_bind; [apply quiet_mp_obj_new_tuple|]. intros t.
    apply quiet_bind; [apply quiet_state_put|]. intros _. apply quiet_ret.
  - apply quiet_bind.
    { destruct (takes_var_args self); [|apply quiet_ret].
      apply quiet_bind; [apply quiet_state_put|]. intros _. apply quiet_ret. }
    intros v. apply quiet_bind; [|intros _; apply quiet_ret].
    destruct ((n_kw =? 0) && negb (has_def_kw_args self)); [|apply quiet_ret].
    destruct (k >=? _); [|by apply quiet_raise].
    apply quiet_for_iter. intros j.
    apply quiet_bind; [apply quiet_array_get|]. intros x. apply quiet_state_put.
Qed.

Lemma quiet_setup_check_keywords self N kwargs n_kw args v :
  quiet (setup_check_keywords self N kwargs n_kw args v).
Proof.
  unfold setup_check_keywords. destruct (negb (n_kw =? 0) || has_def_kw_args self).
  - apply quiet_bind.
    { destruct (takes_kw_args self); [|apply quiet_ret].
      apply quiet_bind; [apply quiet_m_new_obj|]. intros d.
      apply quiet_bind; [apply quiet_state_put|]. intros _. apply quiet_ret. }
    intros dict. apply quiet_bind; [apply quiet_for_iter, quiet_kw_body|]. intros _.
    apply quiet_bind; [apply quiet_fill_defaults|]. intros d.
    apply quiet_bind; [apply quiet_check_mandatory|]. intros _.
    apply quiet_for_iter, quiet_kwonly_body.
  - destruct (negb (n_kwonly_args self =? 0)); [by apply quiet_raise|].
    destruct (takes_kw_args self); [|apply quiet_ret].
    apply quiet_bind; [apply quiet_m_new_obj|]. intros d. apply quiet_state_put.
Qed.

Lemma quiet_setup_prelude self N ip0 : quiet (setup_prelude self N ip0).
Proof.
  unfold setup_prelude. apply quiet_bind; [apply quiet_array_get|]. intros n.
  apply quiet_bind; [apply quiet_prelude_loop|]. intros ip1. by intros m.
Qed.

(** Argument binding does not call the frame allocator, and what it raises
    is one of its own errors. *)
Lemma quiet_mp_setup_code_state self n_args n_kw args :
  quiet (mp_setup_code_state self n_args n_kw args).
Proof.
  intros m. unfold quiet_at. apply wp_setup.
  change (frame_log m) with (frame_log (zeroed self m)).
  apply quiet_bind; [apply quiet_setup_check_positional|]. intros [v k'].
  apply quiet_bind; [apply quiet_for_iter|].
  { intros j. apply quiet_bind; [apply quiet_array_get|]. intros x. apply quiet_state_put. }
  intros _. apply quiet_bind; [apply quiet_setup_check_keywords|]. intros _.
  apply quiet_setup_prelude.
Qed.

Lemma bind_array_get_inv {A B : Type} (a : list A) i (f : A → M B) m r m1 :
  (array_get a i ≫= f) m = Ok r m1 → ∃ x, f x m = Ok r m1.
Proof.
  unfold mbind, M_bind, array_get. destruct (0 <=? i); [|done].
  destruct (a !! Z.to_nat i) as [x|]; [|done]. intros H. by exists x.
Qed.

Lemma read_prelude_mem self m r m1 : read_prelude self m = Ok r m1 → m1 = m.
Proof.
  unfold read_prelude. intros H. cbv zeta in H.
  do 8 (apply bind_array_get_inv in H as [? H]).
  by injection H as _ <-.
Qed.

(** X5.  What [fun_bc_call] tells the frame allocator, by the way the call ends:
    a frame above the limit is allocated and, when the engine has returned
    (normally or with an exception), released once; when argument binding
    raises it is not released; a frame within the limit is taken from the
    stack and never released. *)
Lemma fun_bc_call_frame_log (sizeof_mp_uint_t sizeof_mp_obj_t sizeof_mp_exc_stack_t : Z)
    (engine : mp_obj_t → list heap_obj → mp_obj_t → mp_code_state →
              mp_vm_return_kind_t * list heap_obj * mp_code_state)
    (self : mp_obj_fun_bc_t) (n_args n_kw : Z) (args : list mp_obj_t) (m : mem) :
  match read_prelude self m with
  | Ok (n_state, n_exc_stack, _) _ =>
      let state_size :=
        uint (n_state * sizeof_mp_obj_t + n_exc_stack * sizeof_mp_exc_stack_t) in
      let on_heap := state_size >? VM_MAX_STATE_ON_STACK sizeof_mp_uint_t in
      match fun_bc_call sizeof_mp_uint_t sizeof_mp_obj_t sizeof_mp_exc_stack_t engine
              self n_args n_kw args m with
      | Ok _ m' | Raise (Exc_object _) m' =>
          frame_log m'
          = frame_log m ++ (if on_heap
                            then [Ev_m_new_obj_var state_size; Ev_m_del_var state_size]
                            else [Ev_alloca state_size])
      | Raise _ m' =>
          frame_log m'
          = frame_log m ++ (if on_heap
                            then [Ev_m_new_obj_var state_size]
                            else [Ev_alloca state_size])
      | Undefined | AssertFail => True
      end
  | _ => True
  end.
Proof.
  unfold fun_bc_call.
  destruct (read_prelude self m) as [[[n_state n_exc_stack] ip0] m1| | |] eqn:Hrd; try done.
  apply read_prelude_mem in Hrd as Hm1. subst m1.
  set (state_size := uint (n_state * sizeof_mp_obj_t + n_exc_stack * sizeof_mp_exc_stack_t)).
  set (on_heap := state_size >? VM_MAX_STATE_ON_STACK sizeof_mp_uint_t).
  cbv zeta. unfold mbind at 1, M_bind at 1. rewrite Hrd.
  fold state_size. fold on_heap.
  set (ev := if on_heap then Ev_m_new_obj_var state_size else Ev_alloca state_size).
  set (c0 := Code_state [] 0 0 0 0 (replicate (Z.to_nat n_state) MP_OBJ_NULL)).
  set (m0 := log_frame (set_frame m c0) ev).
  assert (Hnew : (if on_heap then new_frame (Ev_m_new_obj_var state_size) n_state
                  else new_frame (Ev_alloca state_size) n_state) m = Ok tt m0).
  { unfold m0, ev. by destruct on_heap. }
  unfold mbind at 1, M_bind at 1. rewrite Hnew.
  unfold mbind at 1, M_bind at 1. unfold get_mem at 1.
  unfold mbind at 1, M_bind at 1. unfold put_mem at 1.
  set (m2 := set_frame m0 _).
  assert (Hlog2 : frame_log m2 = frame_log m ++ [ev]) by done.
  unfold mbind at 1, M_bind at 1.
  pose proof (quiet_mp_setup_code_state self n_args n_kw args m2) as Hq.
  unfold quiet_at, wpg in Hq.
  destruct (mp_setup_code_state self n_args n_kw args m2) as [[] m3|e m3| |]; try done.
  2:{ destruct Hq as [Hq He]. rewrite Hq, Hlog2. unfold ev.
      destruct e; try by destruct on_heap. by destruct (He o). }
  unfold mbind at 1, M_bind at 1. unfold mp_globals_get at 1.
  unfold mbind at 1, M_bind at 1. unfold mp_globals_set at 1.
  unfold mbind at 1, M_bind at 1. unfold execute_bytecode at 1.
  destruct (engine _ _ _ _) as [[kind h] c] eqn:Heng.
  unfold mbind at 1, M_bind at 1. unfold mp_globals_set at 1.
  set (m4 := set_globals _ _).
  assert (Hlog4 : frame_log m4 = frame_log m ++ [ev]).
  { unfold m4. simpl. by rewrite Hq. }
  assert (Hdel : ∀ m5, frame_log m5 = frame_log m ++ [ev] →
            ∃ m6, (if on_heap then m_del_var state_size else mret tt) m5 = Ok tt m6
                  ∧ frame_log m6
                    = frame_log m ++ (if on_heap
                                      then [Ev_m_new_obj_var state_size; Ev_m_del_var state_size]
                                      else [Ev_alloca state_size])).
  { intros m5 H5. unfold ev in H5. destruct on_heap.
    - eexists. split; [reflexivity|]. simpl. rewrite H5. by rewrite <- app_assoc.
    - by exists m5. }
  assert (Hraise : ∀ e m5, frame_log m5 = frame_log m4 → (∀ o, e ≠ Exc_object o) →
            match e with
            | Exc_object _ =>
                frame_log m5
                = frame_log m ++ (if on_heap
                                  then [Ev_m_new_obj_var state_size; Ev_m_del_var state_size]
                                  else [Ev_alloca state_size])
            | _ => frame_log m5
                   = frame_log m ++ (if on_heap
                                     then [Ev_m_new_obj_var state_size]
                                     else [Ev_alloca state_size])
            end).
  { intros e m5 H5 He. rewrite H5, Hlog4. unfold ev.
    destruct e; try by destruct on_heap. by destruct (He o). }
  destruct kind.
  - unfold mbind at 1, M_bind at 1. unfold mbind at 1, M_bind at 1. unfold get_mem at 1.
    unfold mbind at 1, M_bind at 1.
    pose proof (quiet_state_get (sp (frame m4)) m4) as Hsg. unfold quiet_at, wpg in Hsg.
    destruct (state_get (sp (frame m4)) m4) as [r m5|e m5| |]; try done.
    + destruct (Hdel m5 ltac:(congruence)) as (m6 & H6 & Hl6).
      unfold mret at 1, M_ret at 1. unfold mbind at 1, M_bind at 1. rewrite H6. done.
    + destruct Hsg as [Hsg He]. by apply Hraise.
  - done.
  - unfold mbind at 1, M_bind at 1. unfold mbind at 1, M_bind at 1.
    pose proof (quiet_state_get (n_state - 1) m4) as Hsg. unfold quiet_at, wpg in Hsg.
    destruct (state_get (n_state - 1) m4) as [r m5|e m5| |]; try done.
    + destruct (Hdel m5 ltac:(congruence)) as (m6 & H6 & Hl6).
      unfold mret at 1, M_ret at 1. unfold mbind at 1, M_bind at 1. rewrite H6. done.
    + destruct Hsg as [Hsg He]. by apply Hraise.
Qed.

(** C9, where the code departs from it.  On a 32-bit target (words and
    objects of 4 bytes) the frame of [f_big], 44 bytes, is allocated on the
    heap.  Called with one positional argument, which it does not take, the
    call leaves [fun_bc_call] by the arity error raised in
    [mp_setup_code_state], whatever the engine: the allocator has seen the
    allocation of the frame and no release. *)
Theorem heap_frame_binding_failure
    (engine : mp_obj_t → list heap_obj → mp_obj_t → mp_code_state →
              mp_vm_return_kind_t * list heap_obj * mp_code_state) :
  ∃ m', fun_bc_call 4 4 12 engine f_big 1 0 [MP_OBJ_NEW_SMALL_INT 1] m_idle
        = Raise (TypeError_pos_args_mismatch 0 1) m'
      ∧ frame_log m' = [Ev_m_new_obj_var 44].
Proof.
  eexists. split; [vm_compute; reflexivity|reflexivity].
Qed.

(** ** The steps of a call *)

Lemma fun_bc_call_entry su so se engine self n_args n_kw args m N X ip0 m1 :
  read_prelude self m = Ok (N, X, ip0) m1 →
  fun_bc_call su so se engine self n_args n_kw args m
  = (_ ← mp_setup_code_state self n_args n_kw args;
     call_body su engine self N (uint (N * so + X * se)))
      (call_entry m (frame_alloc su (uint (N * so + X * se))) N ip0).
Proof.
  intros Hrd. pose proof (read_prelude_mem _ _ _ _ Hrd) as ->.
  unfold fun_bc_call. erewrite bind_ok by exact Hrd. cbv zeta.
  unfold frame_alloc, call_entry, call_body.
  destruct (uint (N * so + X * se) >? VM_MAX_STATE_ON_STACK su);
    unfold mbind at 1, M_bind at 1, new_frame at 1;
    unfold mbind at 1, M_bind at 1, get_mem at 1;
    unfold mbind at 1, M_bind at 1, put_mem at 1; reflexivity.
Qed.

Lemma call_body_run su engine self N sz m3 kind h c :
  engine MP_OBJ_NULL (heap m3) (globals self) (frame m3) = (kind, h, c) →
  call_body su engine self N sz m3
  = match kind with
    | MP_VM_RETURN_NORMAL =>
        match slot c (sp c) with
        | Some r => Ok r (call_exit su sz m3 h c)
        | None => Undefined
        end
    | MP_VM_RETURN_EXCEPTION =>
        match slot c (N - 1) with
        | Some r => Raise (Exc_object r) (call_exit su sz m3 h c)
        | None => Undefined
        end
    | MP_VM_RETURN_YIELD => AssertFail
    end.
Proof.
  intros Heng. unfold call_body.
  unfold mbind at 1, M_bind at 1, mp_globals_get at 1.
  unfold mbind at 1, M_bind at 1, mp_globals_set at 1.
  unfold mbind at 1, M_bind at 1, execute_bytecode at 1. simpl. rewrite Heng.
  unfold mbind at 1, M_bind at 1, mp_globals_set at 1.
  unfold call_exit, slot.
  destruct kind; simpl.
  - unfold mbind, M_bind, get_mem, state_get, array_get, mret, M_ret. simpl.
    destruct (0 <=? sp c); [|done].
    destruct (state c !! Z.to_nat (sp c)); [|done].
    by destruct (sz >? VM_MAX_STATE_ON_STACK su).
  - done.
  - unfold mbind, M_bind, get_mem, state_get, array_get, mret, M_ret. simpl.
    destruct (0 <=? N - 1); [|done].
    destruct (state c !! Z.to_nat (N - 1)); [|done].
    by destruct (sz >? VM_MAX_STATE_ON_STACK su).
Qed.

(** ** Invariants of argument binding *)

Section keeps_rules.

Variable R : mem → mem → Prop.
Hypothesis R_refl : ∀ m, R m m.
Hypothesis R_trans : ∀ m1 m2 m3, R m1 m2 → R m2 m3 → R m1 m3.
Hypothesis R_heap : ∀ m h, R m (set_heap m h).
Hypothesis R_state : ∀ m s, R m (set_frame m (set_state (frame m) s)).
Hypothesis R_ip : ∀ m p, R m (set_frame m (set_ip (frame m) p)).

Lemma keeps_ret {A : Type} (a : A) : keeps R (mret a).
Proof. intros m. apply R_refl. Qed.

Lemma keeps_bind {A B : Type} (c : M A) (f : A → M B) :
  keeps R c → (∀ a, keeps R (f a)) → keeps R (c ≫= f).
Proof.
  intros Hc Hf m. specialize (Hc m). unfold wpg, mbind, M_bind in *.
  destruct (c m) as [a m1|e m1| |]; try done.
  specialize (Hf a m1). unfold wpg in Hf.
  destruct (f a m1) as [b m2|e m2| |]; try done; by eapply R_trans.
Qed.

Lemma keeps_raise {A : Type} e : keeps R (@nlr_raise A e).
Proof. intros m. apply R_refl. Qed.

Lemma keeps_undefined {A : Type} : keeps R (@undefined A).
Proof. by intros m. Qed.

Lemma keeps_array_get {A : Type} (a : list A) i : keeps R (array_get a i).
Proof.
  intros m. unfold wpg, array_get. destruct (0 <=? i); [|done].
  destruct (a !! Z.to_nat i); [apply R_refl|done].
Qed.

Lemma keeps_state_get i : keeps R (state_get i).
Proof. intros m. apply (keeps_array_get (state (frame m)) i m). Qed.

Lemma keeps_state_put i v : keeps R (state_put i v).
Proof.
  intros m. unfold wpg, state_put. destruct (_ && _); [apply R_state|done].
Qed.

Lemma keeps_m_new_obj o : keeps R (m_new_obj o).
Proof. intros m. apply R_heap. Qed.

Lemma keeps_mp_obj_new_tuple n items : keeps R (mp_obj_new_tuple n items).
Proof.
  unfold mp_obj_new_tuple. destruct (n =? 0); [apply keeps_ret|].
  destruct (_ <? n); [apply keeps_undefined|apply keeps_m_new_obj].
Qed.

Lemma keeps_mp_obj_dict_store d k v : keeps R (mp_obj_dict_store d k v).
Proof.
  intros m. unfold wpg, mp_obj_dict_store. destruct d; try done.
  destruct (heap m !! a) as [[]|]; try done; apply R_heap.
Qed.

Lemma keeps_mp_map_lookup d k : keeps R (mp_map_lookup d k).
Proof.
  intros m. unfold wpg, mp_map_lookup. destruct d; try done.
  destruct (heap m !! a) as [[]|]; try done; apply R_refl.
Qed.

Lemma keeps_for_iter n i body : (∀ j, keeps R (body j)) → keeps R (for_iter n i body).
Proof.
  intros Hbody. revert i. induction n as [|n IH]; intros i; [apply keeps_ret|].
  simpl. apply keeps_bind; [apply Hbody|]. intros _. apply IH.
Qed.

Lemma keeps_kw_find self name n j : keeps R (kw_find self name n j).
Proof.
  revert j. induction n as [|n IH]; intros j; [apply keeps_ret|].
  simpl. apply keeps_bind; [apply keeps_array_get|]. intros a.
  destruct (name =? a); [apply keeps_ret|apply IH].
Qed.

Lemma keeps_kw_body self N kwargs args dict i : keeps R (kw_body self N kwargs args dict i).
Proof.
  unfold kw_body. apply keeps_bind; [apply keeps_array_get|]. intros k.
  apply keeps_bind; [destruct k; (apply keeps_ret || apply keeps_undefined)|]. intros q.
  apply keeps_bind; [apply keeps_kw_find|]. intros [j|].
  - apply keeps_bind; [apply keeps_state_get|]. intros x.
    destruct (decide (x ≠ MP_OBJ_NULL)); [apply keeps_raise|].
    apply keeps_bind; [apply keeps_array_get|]. intros v. apply keeps_state_put.
  - destruct (negb (takes_kw_args self)); [apply keeps_raise|].
    apply keeps_bind; [apply keeps_array_get|]. intros v.
    apply keeps_bind; [apply keeps_mp_obj_dict_store|]. intros _. apply keeps_ret.
Qed.

Lemma keeps_fill_defaults self i d s : keeps R (fill_defaults self i d s).
Proof.
  revert d s. induction i as [|i IH]; intros d s; [apply keeps_ret|].
  simpl. apply keeps_bind; [apply keeps_state_get|]. intros x.
  apply keeps_bind; [|intros _; apply IH].
  destruct (decide (x = MP_OBJ_NULL)); [|apply keeps_ret].
  apply keeps_bind; [apply keeps_array_get|]. intros v. apply keeps_state_put.
Qed.

Lemma keeps_check_mandatory N n d : keeps R (check_mandatory N n d).
Proof.
  revert d. induction n as [|n IH]; intros d; [apply keeps_ret|].
  simpl. apply keeps_bind; [apply keeps_state_get|]. intros x.
  destruct (decide (x = MP_OBJ_NULL)); [apply keeps_raise|apply IH].
Qed.

Lemma keeps_kwonly_body self N i : keeps R (kwonly_body self N i).
Proof.
  unfold kwonly_body. apply keeps_bind; [apply keeps_state_get|]. intros x.
  destruct (decide (x = MP_OBJ_NULL)); [|apply keeps_ret].
  apply keeps_bind; [apply keeps_array_get|]. intros name.
  apply keeps_bind.
  - destruct (has_def_kw_args self); [|apply keeps_ret].
    apply keeps_bind; [apply keeps_array_get|]. intros d. apply keeps_mp_map_lookup.
  - intros [v|]; [apply keeps_state_put|apply keeps_raise].
Qed.

Lemma keeps_prelude_loop self N n ip0 : keeps R (prelude_loop self N n ip0).
Proof.
  revert ip0. induction n as [|n IH]; intros ip0; [apply keeps_ret|].
  simpl. apply keeps_bind; [apply keeps_array_get|]. intros l.
  apply keeps_bind; [apply keeps_state_get|]. intros x.
  apply keeps_bind; [apply keeps_m_new_obj|]. intros c.
  apply keeps_bind; [apply keeps_state_put|]. intros _. apply IH.
Qed.

Lemma keeps_setup_check_positional self N k n_kw args :
  keeps R (setup_check_positional self N k n_kw args).
Proof.
  unfold setup_check_positional. destruct (k >? n_pos_args self).
  - destruct (negb (takes_var_args self)); [apply keeps_raise|].
    apply keeps_bind; [apply keeps_mp_obj_new_tuple|]. intros t.
    apply keeps_bind; [apply keeps_state_put|]. intros _. apply keeps_ret.
  - apply keeps_bind.
    { destruct (takes_var_args self); [|apply keeps_ret].
      apply keeps_bind; [apply keeps_state_put|]. intros _. apply keeps_ret. }
    intros v. apply keeps_bind; [|intros _; apply keeps_ret].
    destruct ((n_kw =? 0) && negb (has_def_kw_args self)); [|apply keeps_ret].
    destruct (k >=? _); [|apply keeps_raise].
    apply keeps_for_iter. intros j.
    apply keeps_bind; [apply keeps_array_get|]. intros x. apply keeps_state_put.
Qed.

Lemma keeps_setup_copy_positional N k args : keeps R (setup_copy_positional N k args).
Proof.
  apply keeps_for_iter. intros j.
  apply keeps_bind; [apply keeps_array_get|]. intros x. apply keeps_state_put.
Qed.

Lemma keeps_setup_check_keywords self N kwargs n_kw args v :
  keeps R (setup_check_keywords self N kwargs n_kw args v).
Proof.
  unfold setup_check_keywords. destruct (negb (n_kw =? 0) || has_def_kw_args self).
  - apply keeps_bind.
    { destruct (takes_kw_args self); [|apply keeps_ret].
      apply keeps_bind; [apply keeps_m_new_obj|]. intros d.
      apply keeps_bind; [apply keeps_state_put|]. intros _. apply keeps_ret. }
    intros dict. apply keeps_bind; [apply keeps_for_iter, keeps_kw_body|]. intros _.
    apply keeps_bind; [apply keeps_fill_defaults|]. intros d.
    apply keeps_bind; [apply keeps_check_mandatory|]. intros _.
    apply keeps_for_iter, keeps_kwonly_body.
  - destruct (negb (n_kwonly_args self =? 0)); [apply keeps_raise|].
    destruct (takes_kw_args self); [|apply keeps_ret].
    apply keeps_bind; [apply keeps_m_new_obj|]. intros d. apply keeps_state_put.
Qed.

Lemma keeps_setup_prelude self N ip0 : keeps R (setup_prelude self N ip0).
Proof.
  unfold setup_prelude. apply keeps_bind; [apply keeps_array_get|]. intros n.
  apply keeps_bind; [apply keeps_prelude_loop|]. intros ip1 m. apply R_ip.
Qed.

(** Whatever binding preserves from step to step, it preserves from the
    zeroed frame to the end. *)
Lemma keeps_mp_setup_code_state self n_args n_kw args m :
  wpg True (mp_setup_code_state self n_args n_kw args) m
    (λ _ m', R (zeroed self m) m') (λ _ m', R (zeroed self m) m').
Proof.
  apply wp_setup.
  apply (keeps_bind (setup_check_positional self (n_state (frame m)) n_args n_kw args)).
  { apply keeps_setup_check_positional. }
  intros [v k']. apply keeps_bind; [apply keeps_setup_copy_positional|]. intros _.
  apply keeps_bind; [apply keeps_setup_check_keywords|]. intros _.
  apply keeps_setup_prelude.
Qed.

End keeps_rules.

Lemma array_get_cases {A : Type} (a : list A) i m :
  (∃ x, array_get a i m = Ok x m) ∨ array_get a i m = Undefined.
Proof.
  unfold array_get. destruct (0 <=? i); [|by right].
  destruct (a !! Z.to_nat i) as [x|]; [left; by exists x|by right].
Qed.

Lemma bind_undefined {A B : Type} (c : M A) (f : A → M B) m :
  c m = Undefined → (c ≫= f) m = Undefined.
Proof. intros H. unfold mbind, M_bind. by rewrite H. Qed.

Lemma read_prelude_cases self m :
  (∃ r, read_prelude self m = Ok r m) ∨ read_prelude self m = Undefined.
Proof.
  unfold read_prelude. cbv zeta.
  repeat (match goal with
          | |- context [(array_get ?a ?i ≫= ?f) m] =>
              let Hg := fresh "Hg" in
              destruct (array_get_cases a i m) as [[? Hg]|Hg];
              [rewrite (bind_ok _ f _ _ _ Hg)
              |right; apply (bind_undefined _ f _ Hg)]
          end).
  left. by eexists.
Qed.

Lemma fun_bc_call_no_header su so se engine self n_args n_kw args m :
  read_prelude self m = Undefined →
  fun_bc_call su so se engine self n_args n_kw args m = Undefined.
Proof. intros H. unfold fun_bc_call. by apply bind_undefined. Qed.

Lemma same_globals_setup self n_args n_kw args m :
  wpg True (mp_setup_code_state self n_args n_kw args) m
    (λ _ m', mp_globals m' = mp_globals m) (λ _ m', mp_globals m' = mp_globals m).
Proof.
  apply (keeps_mp_setup_code_state same_globals); unfold same_globals; try done.
  intros m1 m2 m3 H1 H2. congruence.
Qed.

(** X6.  [fun_bc_call] saves the active globals and restores them: however
    the call ends, by a return, by an error of argument binding or by an
    exception of the byte code, the globals are those of the caller again. *)
Theorem fun_bc_call_restores_globals (su so se : Z)
    (engine : mp_obj_t → list heap_obj → mp_obj_t → mp_code_state →
              mp_vm_return_kind_t * list heap_obj * mp_code_state)
    (self : mp_obj_fun_bc_t) (n_args n_kw : Z) (args : list mp_obj_t) (m : mem) :
  match fun_bc_call su so se engine self n_args n_kw args m with
  | Ok _ m' | Raise _ m' => mp_globals m' = mp_globals m
  | Undefined | AssertFail => True
  end.
Proof.
  destruct (read_prelude_cases self m) as [[[[N X] ip0] Hrd]|Hrd].
  2:{ by rewrite fun_bc_call_no_header. }
  rewrite (fun_bc_call_entry _ _ _ _ _ _ _ _ _ _ _ _ _ Hrd).
  set (m0 := call_entry m _ N ip0).
  pose proof (same_globals_setup self n_args n_kw args m0) as Hg. unfold wpg in Hg.
  destruct (mp_setup_code_state self n_args n_kw args m0) as [[] m3|e m3| |] eqn:Hs.
  - erewrite bind_ok by exact Hs.
    destruct (engine MP_OBJ_NULL (heap m3) (globals self) (frame m3)) as [[kind h] c] eqn:He.
    rewrite (call_body_run _ _ _ _ _ _ _ _ _ He).
    assert (Hx : mp_globals (call_exit su (uint (N * so + X * se)) m3 h c) = mp_globals m).
    { unfold call_exit. by destruct (_ >? _). }
    destruct kind; [destruct (slot c (sp c))|..|destruct (slot c (N - 1))]; done.
  - by erewrite bind_raise by exact Hs.
  - by rewrite (bind_undefined _ _ _ Hs).
  - unfold mbind, M_bind. by rewrite Hs.
Qed.

(** X7.  An error of argument binding ends the call before the byte code
    engine is started: when [fun_bc_call] raises anything but an exception
    object of the engine, it raises the same error in the same memory
    whatever the engine is. *)
Theorem binding_error_skips_engine (su so se : Z)
    (engine engine' : mp_obj_t → list heap_obj → mp_obj_t → mp_code_state →
                      mp_vm_return_kind_t * list heap_obj * mp_code_state)
    (self : mp_obj_fun_bc_t) (n_args n_kw : Z) (args : list mp_obj_t) (m : mem)
    (e : exc) (m' : mem) :
  (∀ o, e ≠ Exc_object o) →
  fun_bc_call su so se engine self n_args n_kw args m = Raise e m' →
  fun_bc_call su so se engine' self n_args n_kw args m = Raise e m'.
Proof.
  intros He Hcall.
  destruct (read_prelude_cases self m) as [[[[N X] ip0] Hrd]|Hrd].
  2:{ by rewrite fun_bc_call_no_header in Hcall. }
  rewrite (fun_bc_call_entry _ _ _ _ _ _ _ _ _ _ _ _ _ Hrd) in Hcall.
  rewrite (fun_bc_call_entry _ _ _ _ _ _ _ _ _ _ _ _ _ Hrd).
  set (m0 := call_entry m _ N ip0) in *.
  destruct (mp_setup_code_state self n_args n_kw args m0) as [[] m3|e3 m3| |] eqn:Hs.
  - exfalso. erewrite bind_ok in Hcall by exact Hs.
    destruct (engine MP_OBJ_NULL (heap m3) (globals self) (frame m3)) as [[kind h] c] eqn:Hen.
    rewrite (call_body_run _ _ _ _ _ _ _ _ _ Hen) in Hcall.
    destruct kind; [destruct (slot c (sp c))|..|destruct (slot c (N - 1))]; try done.
    injection Hcall as <- _. by eapply He.
  - erewrite bind_raise in Hcall by exact Hs. by erewrite bind_raise by exact Hs.
  - by rewrite (bind_undefined _ _ _ Hs) in Hcall.
  - unfold mbind, M_bind in Hcall. by rewrite Hs in Hcall.
Qed.

Lemma binding_error_skips_engine_witness :
  ∃ m', (∀ o, TypeError_pos_args_mismatch 0 1 ≠ Exc_object o)
        ∧ fun_bc_call 4 4 12 engine_return_local0 f_big 1 0 [MP_OBJ_NEW_SMALL_INT 1] m_idle
          = Raise (TypeError_pos_args_mismatch 0 1) m'
        ∧ fun_bc_call 4 4 12 engine_raise_local0 f_big 1 0 [MP_OBJ_NEW_SMALL_INT 1] m_idle
          = Raise (TypeError_pos_args_mismatch 0 1) m'.
Proof.
  eexists. split; [done|]. split; [vm_compute; reflexivity|].
  apply (binding_error_skips_engine 4 4 12 engine_return_local0); [done|].
  vm_compute. reflexivity.
Defined.

(** X8.  How a call completes once its arguments are bound.  The engine is
    started on the bound frame with the globals of the function and without
    an exception to inject.  On a normal return the result is the object at
    [sp]; on an exceptional return the object in the last slot of the state
    is raised; a yield stops at the assertion.  Heap and frame are as the
    engine leaves them, the globals are restored and a heap frame is
    released. *)
Theorem fun_bc_call_completion (su so se : Z)
    (engine : mp_obj_t → list heap_obj → mp_obj_t → mp_code_state →
              mp_vm_return_kind_t * list heap_obj * mp_code_state)
    (self : mp_obj_fun_bc_t) (n_args n_kw : Z) (args : list mp_obj_t) (m : mem)
    (N X ip0 : Z) (m3 : mem) (kind : mp_vm_return_kind_t) (h : list heap_obj)
    (c : mp_code_state) :
  read_prelude self m = Ok (N, X, ip0) m →
  mp_setup_code_state self n_args n_kw args
    (call_entry m (frame_alloc su (uint (N * so + X * se))) N ip0) = Ok tt m3 →
  engine MP_OBJ_NULL (heap m3) (globals self) (frame m3) = (kind, h, c) →
  fun_bc_call su so se engine self n_args n_kw args m
  = match kind with
    | MP_VM_RETURN_NORMAL =>
        match slot c (sp c) with
        | Some r => Ok r (call_exit su (uint (N * so + X * se)) m3 h c)
        | None => Undefined
        end
    | MP_VM_RETURN_EXCEPTION =>
        match slot c (N - 1) with
        | Some r => Raise (Exc_object r) (call_exit su (uint (N * so + X * se)) m3 h c)
        | None => Undefined
        end
    | MP_VM_RETURN_YIELD => AssertFail
    end.
Proof.
  intros Hrd Hs He.
  rewrite (fun_bc_call_entry _ _ _ _ _ _ _ _ _ _ _ _ _ Hrd).
  erewrite bind_ok by exact Hs. by apply call_body_run.
Qed.

Lemma fun_bc_call_completion_witness :
  read_prelude f_a m_idle = Ok (2, 0, 8) m_idle
  ∧ mp_setup_code_state f_a 1 0 [MP_OBJ_NEW_SMALL_INT 7]
      (call_entry m_idle (frame_alloc 4 (uint (2 * 4 + 0 * 12))) 2 8) = Ok tt m_bound_7
  ∧ engine_return_local0 MP_OBJ_NULL (heap m_bound_7) (globals f_a) (frame m_bound_7)
    = (MP_VM_RETURN_NORMAL, [], c_return_7)
  ∧ fun_bc_call 4 4 12 engine_return_local0 f_a 1 0 [MP_OBJ_NEW_SMALL_INT 7] m_idle
    = Ok (MP_OBJ_NEW_SMALL_INT 7)
        (call_exit 4 (uint (2 * 4 + 0 * 12)) m_bound_7 [] c_return_7).
Proof.
  split; [reflexivity|]. split; [reflexivity|]. split; [reflexivity|].
  exact (fun_bc_call_completion 4 4 12 engine_return_local0 f_a 1 0
           [MP_OBJ_NEW_SMALL_INT 7] m_idle 2 0 8 m_bound_7 MP_VM_RETURN_NORMAL []
           c_return_7 eq_refl eq_refl eq_refl).
Defined.

(** ** Binding with keywords *)



(** After the keyword loop, a positional parameter without default that is
    still empty stops the call; the error carries the number of the highest
    such parameter. *)
Lemma setup_after_kw_loop_missing self n N m j0 :
  shaped N m →
  0 ≤ n_def_args self ≤ n_pos_args self → 0 ≤ n_kwonly_args self →
  n_pos_args self + n_kwonly_args self ≤ N →
  n_def_args self ≤ Z.of_nat (length (extra_args self)) →
  0 ≤ j0 < n_pos_args self - n_def_args self →
  local m j0 = Some MP_OBJ_NULL →
  (∀ j', j0 < j' < n_pos_args self - n_def_args self → local m j' ≠ Some MP_OBJ_NULL) →
  ∃ m', setup_after_kw_loop self N m = Raise (TypeError_missing_positional j0) m'
        ∧ steady n m m'.
Proof.
  intros Hs HD HK HN Hextra Hj0 Hnull Habove.
  unfold setup_after_kw_loop.
  pose proof (fill_defaults_wp self n N (Z.to_nat (n_def_args self)) (n_pos_args self - 1) m
                Hs ltac:(lia) ltac:(lia) ltac:(lia)) as Hfill.
  replace (N - 1 - (n_pos_args self - 1)) with (N - n_pos_args self) in Hfill by lia.
  replace (Z.of_nat (Z.to_nat (n_def_args self)) - 1) with (n_def_args self - 1) in Hfill
    by lia.
  apply wp_inv in Hfill as [(d & m1 & Hrun1 & -> & Hst1 & Hh1 & Hout1 & _)|(? & ? & _ & [])].
  erewrite bind_ok by exact Hrun1.
  assert (Hs1 : shaped N m1) by by eapply steady_shaped.
  pose proof (check_mandatory_wp N (Z.to_nat (n_pos_args self - n_def_args self))
                (n_pos_args self - n_def_args self - 1) m1 Hs1 ltac:(lia) ltac:(lia))
    as Hchk.
  replace (N - 1 - (n_pos_args self - n_def_args self - 1))
    with (N - n_pos_args self + Z.of_nat (Z.to_nat (n_def_args self))) in Hchk by lia.
  replace (Z.to_nat (N - (N - n_pos_args self + Z.of_nat (Z.to_nat (n_def_args self)))))
    with (Z.to_nat (n_pos_args self - n_def_args self)) by lia.
  apply wp_inv in Hchk as [([] & m2 & _ & -> & Hall)|(e & m2 & Hrun2 & -> & j & Hj & -> & Hn & Hab)].
  - exfalso. apply (Hall j0 ltac:(lia)). by rewrite Hout1 by lia.
  - rewrite Hout1 in Hn by lia.
    assert (j = j0) as ->.
    { destruct (Z.lt_trichotomy j j0) as [Hlt|[Heq|Hgt]]; [|done|].
      - exfalso. apply (Hab j0 ltac:(lia)). by rewrite Hout1 by lia.
      - exfalso. by apply (Habove j ltac:(lia)). }
    exists m1. split; [|done]. by erewrite bind_raise by exact Hrun2.
Qed.

(** X2.  In a call with keywords whose pairs can all be bound, a positional
    parameter without default that gets no value makes the call fail with
    "missing required positional argument", and the number the error carries
    is the position, counted from 0, of the last such parameter. *)
Theorem missing_positional_reports_last (self : mp_obj_fun_bc_t) (pos : list mp_obj_t)
    (kws : list (qstr * mp_obj_t)) (m : mem) (closed : list Z) (j0 : Z) :
  call_ok self m closed →
  (Z.of_nat (length pos) ≤ n_pos_args self ∨ takes_var_args self = true) →
  fast_path self (Z.of_nat (length kws)) = false →
  kws_bindable self (Z.of_nat (length pos)) kws →
  Z.min (Z.of_nat (length pos)) (n_pos_args self) ≤ j0 < n_pos_args self - n_def_args self →
  ¬ kw_supplies self kws j0 →
  (∀ j', j0 < j' < n_pos_args self - n_def_args self → kw_supplies self kws j') →
  ∃ m', mp_setup_code_state self (Z.of_nat (length pos)) (Z.of_nat (length kws))
          (pos ++ kw_flat kws) m = Raise (TypeError_missing_positional j0) m'.
Proof.
  intros Hok Hpass Hfast (Hnd & Hvnn & Hidx) Hj0 Hnone Habove.
  pose proof (call_ok_frame _ _ _ Hok) as HPK.
  pose proof (ok_def _ _ _ Hok) as HD.
  pose proof (ok_kwonly _ _ _ Hok) as HK.
  destruct (setup_kw_path self pos kws m closed Hok Hpass Hfast)
    as (m2 & dict & Hraise & Hcont & Hst2 & Hdr & Hpos2 & Hnull2 & _).
  pose proof (call_ok_shaped _ _ _ _ _ Hok Hst2) as Hs2.
  destruct (kw_run_ok self dict (length (heap m)) (n_state (frame m)) kws m2 HPK Hs2 Hdr Hnd)
    as (m3 & Hrun & Hst3 & Hnamed & Hrest).
  { intros q v Hin. pose proof (Hidx q v Hin) as Hq.
    destruct (param_index self q) as [j|] eqn:Hj; [|done].
    apply Hnull2. apply param_index_range in Hj as [Hj _]; lia. }
  assert (Hs3 : shaped (n_state (frame m)) m3) by by eapply steady_shaped.
  destruct (setup_after_kw_loop_missing self (length (heap m)) (n_state (frame m)) m3 j0)
    as (m' & Hmiss & _); try (done || lia).
  { pose proof (ok_extra _ _ _ Hok). pose proof (b2z_nonneg (has_def_kw_args self)). lia. }
  { rewrite Hrest by done. apply Hnull2. lia. }
  { intros j' Hj'. destruct (Habove j' Hj') as (q & v & Hin & Hq).
    rewrite (Hnamed q v j' Hin Hq). intros [= ->].
    by apply (proj1 (Forall_forall _ _) Hvnn (q, MP_OBJ_NULL)). }
  exists m'. rewrite (Hcont m3 Hrun). by erewrite bind_raise by exact Hmiss.
Qed.

Lemma missing_positional_reports_last_witness :
  call_ok f_abc m_abc []
  ∧ fast_path f_abc 1 = false
  ∧ kws_bindable f_abc 0 [(MP_QSTR_c, MP_OBJ_NEW_SMALL_INT 5)]
  ∧ ¬ kw_supplies f_abc [(MP_QSTR_c, MP_OBJ_NEW_SMALL_INT 5)] 1
  ∧ ∃ m', mp_setup_code_state f_abc 0 1
            [MP_OBJ_NEW_QSTR MP_QSTR_c; MP_OBJ_NEW_SMALL_INT 5] m_abc
          = Raise (TypeError_missing_positional 1) m'.
Proof.
  assert (Hb : kws_bindable f_abc 0 [(MP_QSTR_c, MP_OBJ_NEW_SMALL_INT 5)]).
  { split; [apply NoDup_singleton|]. split; [repeat constructor; done|].
    intros q v Hin. apply list_elem_of_singleton in Hin as [= -> ->]. simpl. lia. }
  assert (Hn : ¬ kw_supplies f_abc [(MP_QSTR_c, MP_OBJ_NEW_SMALL_INT 5)] 1).
  { intros (q & v & Hin & Hq). apply list_elem_of_singleton in Hin as [= -> ->]. done. }
  split; [exact f_abc_ok|]. split; [reflexivity|]. split; [exact Hb|]. split; [exact Hn|].
  apply (missing_positional_reports_last f_abc [] [(MP_QSTR_c, MP_OBJ_NEW_SMALL_INT 5)]
           m_abc [] 1 f_abc_ok);
    first [done | left; simpl; lia | simpl; lia | intros j' Hj'; simpl in Hj'; lia].
Defined.

(** ** Binding without keywords *)




(** ** The frame after binding *)

Lemma bind_ok_inv {A B : Type} (c : M A) (f : A → M B) m b m' :
  (c ≫= f) m = Ok b m' → ∃ a m1, c m = Ok a m1 ∧ f a m1 = Ok b m'.
Proof.
  unfold mbind, M_bind. destruct (c m) as [a m1| | |]; try done. intros H. by exists a, m1.
Qed.

Lemma prelude_loop_ip self N n ip0 m ip' m' :
  prelude_loop self N n ip0 m = Ok ip' m' → ip' = ip0 + Z.of_nat n.
Proof.
  revert ip0 m. induction n as [|n IH]; intros ip0 m H.
  - injection H as <- _. lia.
  - simpl in H.
    apply bind_ok_inv in H as (l & m1 & _ & H).
    apply bind_ok_inv in H as (x & m2 & _ & H).
    apply bind_ok_inv in H as (c & m3 & _ & H).
    apply bind_ok_inv in H as ([] & m4 & _ & H).
    apply IH in H. lia.
Qed.

Lemma same_frame_fields_setup self n_args n_kw args m :
  wpg True (mp_setup_code_state self n_args n_kw args) m
    (λ _ m', same_frame_fields (zeroed self m) m')
    (λ _ m', same_frame_fields (zeroed self m) m').
Proof.
  apply (keeps_mp_setup_code_state same_frame_fields); unfold same_frame_fields; try done.
  intros m1 m2 m3 (? & ? & ? & ?) (? & ? & ? & ?). repeat split; congruence.
Qed.

(** X4.  The frame that argument binding hands to the engine: [code_info] is
    the byte code of the function, the evaluation stack and the exception
    stack are empty ([sp] and [exc_sp] one below their first element), the
    size of the state is as the caller set it, and [ip] has moved past the
    prelude, that is past the count at the old [ip] and the local numbers it
    announces. *)
Theorem binding_sets_up_frame (self : mp_obj_fun_bc_t) (n_args n_kw : Z)
    (args : list mp_obj_t) (m m' : mem) :
  mp_setup_code_state self n_args n_kw args m = Ok tt m' →
  code_info (frame m') = bytecode self
  ∧ sp (frame m') = -1
  ∧ exc_sp (frame m') = -1
  ∧ n_state (frame m') = n_state (frame m)
  ∧ ∃ n_local, 0 ≤ ip (frame m)
      ∧ bytecode self !! Z.to_nat (ip (frame m)) = Some n_local
      ∧ ip (frame m') = ip (frame m) + 1 + Z.of_nat (Z.to_nat n_local).
Proof.
  intros Hcall.
  pose proof (same_frame_fields_setup self n_args n_kw args m) as Hf.
  unfold wpg in Hf. rewrite Hcall in Hf. destruct Hf as (Hc & Hsp & Hex & Hn).
  split; [done|]. split; [done|]. split; [done|]. split; [done|].
  rewrite mp_setup_code_state_blocks in Hcall.
  apply bind_ok_inv in Hcall as ([v k'] & m1 & _ & Hcall).
  apply bind_ok_inv in Hcall as ([] & m2 & _ & Hcall).
  apply bind_ok_inv in Hcall as ([] & m3 & _ & Hcall).
  unfold setup_prelude in Hcall.
  apply bind_ok_inv in Hcall as (n_local & m4 & Hget & Hcall).
  apply bind_ok_inv in Hcall as (ip' & m5 & Hloop & Hcall).
  apply prelude_loop_ip in Hloop as ->.
  exists n_local. unfold array_get in Hget.
  destruct (Z.leb_spec 0 (ip (frame m))); [|done]. split; [done|].
  destruct (bytecode self !! Z.to_nat (ip (frame m))) as [n|]; [|done].
  injection Hget as -> _. split; [done|].
  injection Hcall as <-. done.
Qed.

Lemma binding_sets_up_frame_witness :
  mp_setup_code_state f_a 1 0 [MP_OBJ_NEW_SMALL_INT 7]
    (call_entry m_idle (Ev_alloca 8) 2 8) = Ok tt m_bound_7
  ∧ code_info (frame m_bound_7) = bytecode f_a
  ∧ sp (frame m_bound_7) = -1
  ∧ ip (frame m_bound_7) = 9.
Proof.
  split; [reflexivity|].
  destruct (binding_sets_up_frame f_a 1 0 [MP_OBJ_NEW_SMALL_INT 7]
              (call_entry m_idle (Ev_alloca 8) 2 8) m_bound_7 eq_refl)
    as (Hc & Hsp & _ & _ & n & _ & Hn & Hip).
  split; [exact Hc|]. split; [exact Hsp|]. reflexivity.
Defined.

(** ** Making a byte code function *)





(** ** Native functions *)

Lemma mp_arg_check_num_pass n_args n_kw lo hi takes_kw m :
  (n_kw = 0 ∨ takes_kw = true) → lo ≤ n_args ≤ hi →
  mp_arg_check_num n_args n_kw lo hi takes_kw m = Ok tt m.
Proof.
  intros Hkw Hn. unfold mp_arg_check_num.
  assert (negb (n_kw =? 0) && negb takes_kw = false) as ->.
  { destruct Hkw as [->| ->]; [done|by rewrite andb_false_r]. }
  destruct (Z.ltb_spec n_args lo); [lia|].
  by destruct (Z.gtb_spec n_args hi); [lia|].
Qed.

Lemma mp_arg_check_num_fail n_args n_kw lo hi m :
  (n_kw ≠ 0 ∨ n_args < lo ∨ hi < n_args) →
  mp_arg_check_num n_args n_kw lo hi false m = Raise TypeError_arg_check_num m.
Proof.
  intros H. unfold mp_arg_check_num.
  destruct (Z.eqb_spec n_kw 0) as [->|Hkw]; [|done]. simpl.
  destruct (Z.ltb_spec n_args lo); [done|].
  destruct (Z.gtb_spec n_args hi); [done|]. lia.
Qed.

(** X11.  A function object made by [mp_make_function_n] for a native
    function of [n] arguments, [n] from 0 to 3: called with exactly [n]
    positional arguments and no keywords, it runs the native function on
    these arguments; called with any other number of arguments or with a
    keyword, it raises the [TypeError] of the arity check and the native
    function is not run. *)
Theorem native_fixed_call (c : fun_native.native_code) (n : Z) (n_args n_kw : Z)
    (args : list mp_obj_t) (m : mem) :
  native_arity c = Some n →
  (n_args = n → n_kw = 0 → Z.of_nat (length args) = n →
   fun_native_call (mp_make_function_n n c) n_args n_kw args m = native_apply c args m)
  ∧ (n_args ≠ n ∨ n_kw ≠ 0 →
     fun_native_call (mp_make_function_n n c) n_args n_kw args m
     = Raise TypeError_arg_check_num m).
Proof.
  intros Hc. split.
  - intros -> -> Hlen. unfold fun_native_call. simpl.
    erewrite bind_ok by (apply mp_arg_check_num_pass; [by left|lia]).
    destruct c; simpl in Hc; try done; injection Hc as <-; simpl.
    + destruct args; simpl in Hlen; [done|lia].
    + destruct args as [|a0 [|]]; simpl in Hlen; try lia. done.
    + destruct args as [|a0 [|a1 [|]]]; simpl in Hlen; try lia. done.
    + destruct args as [|a0 [|a1 [|a2 [|]]]]; simpl in Hlen; try lia. done.
  - intros Hbad. unfold fun_native_call. simpl.
    by erewrite bind_raise by (apply mp_arg_check_num_fail; lia).
Qed.

Lemma native_fixed_call_witness :
  native_arity native_second = Some 2
  ∧ fun_native_call (mp_make_function_n 2 native_second) 2 0
      [MP_OBJ_NEW_SMALL_INT 1; MP_OBJ_NEW_SMALL_INT 2] m_idle
    = Ok (MP_OBJ_NEW_SMALL_INT 2) m_idle
  ∧ fun_native_call (mp_make_function_n 2 native_second) 1 0
      [MP_OBJ_NEW_SMALL_INT 1] m_idle
    = Raise TypeError_arg_check_num m_idle.
Proof.
  split; [reflexivity|].
  destruct (native_fixed_call native_second 2 2 0
              [MP_OBJ_NEW_SMALL_INT 1; MP_OBJ_NEW_SMALL_INT 2] m_idle eq_refl) as [Hrun _].
  destruct (native_fixed_call native_second 2 1 0
              [MP_OBJ_NEW_SMALL_INT 1] m_idle eq_refl) as [_ Hfail].
  split; [exact (Hrun eq_refl eq_refl eq_refl)|].
  apply Hfail. left. lia.
Defined.

(** X12.  A function object made by [mp_make_function_var] or by
    [mp_make_function_var_between] for a variadic native function: called
    without keywords and with a number of positional arguments within its
    bounds, it runs the native function on the count and the arguments;
    outside the bounds, or with a keyword, it raises the [TypeError] of the
    arity check.  This needs bounds that are not one number up to 3: with
    equal bounds up to 3 the call goes through the cast for a function of
    that many separate arguments. *)
Theorem native_variadic_call (MP_OBJ_FUN_ARGS_MAX : Z)
    (f : Z → list mp_obj_t → M mp_obj_t) (self : fun_native.mp_obj_fun_native_t)
    (lo hi : Z) (n_args n_kw : Z) (args : list mp_obj_t) (m : mem) :
  (self = mp_make_function_var_between lo hi (fun_native.Fun_var f)
   ∨ self = mp_make_function_var MP_OBJ_FUN_ARGS_MAX lo (fun_native.Fun_var f)
     ∧ hi = MP_OBJ_FUN_ARGS_MAX) →
  ¬ (lo ≤ 3 ∧ lo = hi) →
  (lo ≤ n_args ≤ hi → n_kw = 0 → fun_native_call self n_args n_kw args m = f n_args args m)
  ∧ (n_args < lo ∨ hi < n_args ∨ n_kw ≠ 0 →
     fun_native_call self n_args n_kw args m = Raise TypeError_arg_check_num m).
Proof.
  intros Hself Hbounds.
  assert (self = mp_make_function_var_between lo hi (fun_native.Fun_var f)) as ->.
  { by destruct Hself as [->|[-> ->]]. }
  split.
  - intros Hn ->. unfold fun_native_call. simpl.
    erewrite bind_ok by (apply mp_arg_check_num_pass; [by left|lia]).
    destruct (Z.leb_spec lo 3); [|done].
    destruct (Z.eqb_spec lo hi); [lia|done].
  - intros Hbad. unfold fun_native_call. simpl.
    by erewrite bind_raise by (apply mp_arg_check_num_fail; lia).
Qed.

Lemma native_variadic_call_witness :
  ¬ (1 ≤ 3 ∧ 1 = 2)
  ∧ fun_native_call
      (mp_make_function_var_between 1 2
         (fun_native.Fun_var (λ n_args args, mret (MP_OBJ_NEW_SMALL_INT n_args))))
      2 0 [mp_const_none; mp_const_none] m_idle
    = Ok (MP_OBJ_NEW_SMALL_INT 2) m_idle.
Proof.
  assert (Hb : ¬ (1 ≤ 3 ∧ 1 = 2)) by lia.
  split; [exact Hb|].
  destruct (native_variadic_call 65535
              (λ n_args args, mret (MP_OBJ_NEW_SMALL_INT n_args))
              (mp_make_function_var_between 1 2
                 (fun_native.Fun_var (λ n_args args, mret (MP_OBJ_NEW_SMALL_INT n_args))))
              1 2 2 0 [mp_const_none; mp_const_none] m_idle
              (or_introl eq_refl) Hb) as [Hrun _].
  apply Hrun; [lia|reflexivity].
Defined.

(** ** Viper functions: the guard *)

(** X13.  A viper function is called with exactly the number of arguments
    it was made for and without keywords, or not at all: any other call
    raises the [TypeError] of the arity check before an argument is
    converted and before the native code runs.  A viper function made for
    more than three arguments cannot be called: with that many arguments
    the call stops at the assertion. *)
Theorem viper_call_guard (obj_to_native : Z → mp_obj_t → M Z)
    (native_to_obj : Z → Z → M mp_obj_t) (order : fun_viper.arg_order)
    (self : fun_viper.mp_obj_fun_viper_t)
    (n_args n_kw : Z) (args : list mp_obj_t) (m : mem) :
  (n_args ≠ fun_viper.n_args self ∨ n_kw ≠ 0 →
   fun_viper_call obj_to_native native_to_obj order self n_args n_kw args m
   = Raise TypeError_arg_check_num m)
  ∧ (n_args = fun_viper.n_args self → n_kw = 0 → n_args < 0 ∨ 3 < n_args →
     fun_viper_call obj_to_native native_to_obj order self n_args n_kw args m = AssertFail).
Proof.
  split.
  - intros Hbad. unfold fun_viper_call.
    by erewrite bind_raise by (apply mp_arg_check_num_fail; lia).
  - intros Hn -> Hbig. unfold fun_viper_call.
    erewrite bind_ok by (apply mp_arg_check_num_pass; [by left|lia]).
    destruct (Z.eqb_spec n_args 0); [lia|]. destruct (Z.eqb_spec n_args 1); [lia|].
    destruct (Z.eqb_spec n_args 2); [lia|]. destruct (Z.eqb_spec n_args 3); [lia|].
    done.
Qed.

Lemma viper_call_guard_witness :
  fun_viper_call (λ _ _, mret 0) (λ _ _, mret mp_const_none) fun_viper.Order_210
    (fun_viper.Fun_viper 1 (λ _, mret 0) 0) 2 0 [mp_const_none; mp_const_none] m_idle
  = Raise TypeError_arg_check_num m_idle
  ∧ fun_viper_call (λ _ _, mret 0) (λ _ _, mret mp_const_none) fun_viper.Order_210
      (fun_viper.Fun_viper 4 (λ _, mret 0) 0) 4 0
      [mp_const_none; mp_const_none; mp_const_none; mp_const_none] m_idle
    = AssertFail.
Proof.
  destruct (viper_call_guard (λ _ _, mret 0) (λ _ _, mret mp_const_none) fun_viper.Order_210
              (fun_viper.Fun_viper 1 (λ _, mret 0) 0) 2 0
              [mp_const_none; mp_const_none] m_idle) as [Hbad _].
  destruct (viper_call_guard (λ _ _, mret 0) (λ _ _, mret mp_const_none) fun_viper.Order_210
              (fun_viper.Fun_viper 4 (λ _, mret 0) 0) 4 0
              [mp_const_none; mp_const_none; mp_const_none; mp_const_none] m_idle)
    as [_ Hbig].
  split.
  - apply Hbad. left. simpl. lia.
  - apply Hbig; [reflexivity|reflexivity|right; lia].
Defined.

(** ** Tuples *)

Lemma tuple_of_items o l m : tuple_items (heap m) o = Some l → tuple_of o m = Ok l m.
Proof. intros H. unfold tuple_of. by rewrite H. Qed.

Lemma is_tuple_items o l m : tuple_items (heap m) o = Some l → is_tuple o m = Ok true m.
Proof.
  unfold tuple_items, is_tuple. destruct o; try done.
  by destruct (heap m !! a) as [[]|].
Qed.

Lemma mp_obj_new_tuple_run (n : Z) (items : list mp_obj_t) (m : mem) :
  0 ≤ n ≤ Z.of_nat (length items) →
  ∃ t m',
    mp_obj_new_tuple n items m = Ok t m'
    ∧ tuple_items (heap m') t = Some (take (Z.to_nat n) items)
    ∧ (n = 0 → t = mp_const_empty_tuple ∧ m' = m)
    ∧ (0 < n → t = MP_OBJ_PTR (length (heap m))
               ∧ heap m' = heap m ++ [mp_obj_tuple_t (take (Z.to_nat n) items)]).
Proof.
  intros Hn. unfold mp_obj_new_tuple.
  destruct (Z.eqb_spec n 0) as [->|Hn0].
  - exists mp_const_empty_tuple, m. split; [done|]. split; [done|]. split; [done|lia].
  - destruct (Z.ltb_spec (Z.of_nat (length items)) n); [lia|].
    eexists _, _. split; [reflexivity|]. split; [|split; [lia|done]].
    simpl. by rewrite lookup_app_r, Nat.sub_diag by lia.
Qed.

(** X14.  [mp_obj_new_tuple] and [mp_obj_tuple_get]: the tuple made from the
    first [n] objects of an array has length [n] and these objects as its
    items, in their order.  For [n = 0] it is the shared empty tuple and
    nothing is allocated; otherwise it is one new block after the heap as it
    was. *)
Theorem tuple_new_get (n : Z) (items : list mp_obj_t) (m : mem) :
  0 ≤ n ≤ Z.of_nat (length items) →
  ∃ t m',
    mp_obj_new_tuple n items m = Ok t m'
    ∧ mp_obj_tuple_get t m' = Ok (n, take (Z.to_nat n) items) m'
    ∧ (n = 0 → t = mp_const_empty_tuple ∧ m' = m)
    ∧ (0 < n → t = MP_OBJ_PTR (length (heap m))
               ∧ heap m' = heap m ++ [mp_obj_tuple_t (take (Z.to_nat n) items)]).
Proof.
  intros Hn.
  destruct (mp_obj_new_tuple_run n items m Hn) as (t & m' & Hnew & Hitems & H0 & Hpos).
  exists t, m'. split; [done|]. split; [|done].
  unfold mp_obj_tuple_get.
  erewrite bind_ok by (by eapply is_tuple_items). simpl.
  erewrite bind_ok by (by eapply tuple_of_items).
  unfold mret, M_ret. do 2 f_equal. rewrite length_take. lia.
Qed.

Lemma tuple_new_get_witness :
  ∃ t m',
    mp_obj_new_tuple 2 [mp_const_none; MP_OBJ_NEW_SMALL_INT 5; MP_OBJ_NEW_SMALL_INT 6] m_idle
    = Ok t m'
    ∧ mp_obj_tuple_get t m' = Ok (2, [mp_const_none; MP_OBJ_NEW_SMALL_INT 5]) m'.
Proof.
  destruct (tuple_new_get 2 [mp_const_none; MP_OBJ_NEW_SMALL_INT 5; MP_OBJ_NEW_SMALL_INT 6]
              m_idle) as (t & m' & Hnew & Hget & _).
  { simpl. lia. }
  exists t, m'. split; [exact Hnew|exact Hget].
Defined.

Lemma uintw_small w x : 0 ≤ x < 2 ^ w → uintw w x = x.
Proof. intros H. unfold uintw. by apply Z.mod_small. Qed.

Lemma tuple_it_iternext_item word STOP t l m c x :
  tuple_items (heap m) t = Some l →
  Z.of_nat (length l) < 2 ^ word →
  0 ≤ c → l !! Z.to_nat c = Some x →
  tuple_it_iternext word STOP (tuple_it.Tuple_it t c) m
  = Ok (x, tuple_it.Tuple_it t (c + 1)) m.
Proof.
  intros Ht Hlen Hc Hx. unfold tuple_it_iternext. simpl.
  erewrite bind_ok by (by eapply tuple_of_items).
  apply lookup_lt_Some in Hx as Hlt.
  destruct (Z.ltb_spec c (Z.of_nat (length l))); [|lia].
  erewrite bind_ok by (by apply array_get_ok).
  rewrite uintw_small by lia. done.
Qed.

Lemma tuple_it_iternext_end word STOP t l m :
  tuple_items (heap m) t = Some l →
  tuple_it_iternext word STOP (tuple_it.Tuple_it t (Z.of_nat (length l))) m
  = Ok (STOP, tuple_it.Tuple_it t (Z.of_nat (length l))) m.
Proof.
  intros Ht. unfold tuple_it_iternext. simpl.
  erewrite bind_ok by (by eapply tuple_of_items).
  by rewrite Z.ltb_irrefl.
Qed.

Lemma tuple_it_take_S word STOP n self :
  tuple_it_take word STOP (S n) self
  = ('(o, self) ← tuple_it_iternext word STOP self;
     '(l, self) ← tuple_it_take word STOP n self;
     mret (o :: l, self)).
Proof. reflexivity. Qed.

Lemma tuple_it_take_from word STOP t l m n c :
  tuple_items (heap m) t = Some l →
  Z.of_nat (length l) < 2 ^ word →
  0 ≤ c → c + Z.of_nat n = Z.of_nat (length l) →
  tuple_it_take word STOP n (tuple_it.Tuple_it t c) m
  = Ok (drop (Z.to_nat c) l, tuple_it.Tuple_it t (Z.of_nat (length l))) m.
Proof.
  intros Ht Hlen. revert c. induction n as [|n IH]; intros c Hc Hcn.
  - simpl. unfold mret, M_ret. rewrite drop_ge by lia. do 3 f_equal. lia.
  - rewrite tuple_it_take_S.
    destruct (lookup_lt_is_Some_2 l (Z.to_nat c)) as [x Hx]; [lia|].
    erewrite bind_ok by (by eapply tuple_it_iternext_item). cbv beta iota.
    erewrite bind_ok by (apply IH; lia).
    unfold mret, M_ret. rewrite (drop_S l x (Z.to_nat c)) by done.
    by replace (Z.to_nat (c + 1)) with (S (Z.to_nat c)) by lia.
Qed.

Lemma tuple_it_take_done word STOP t l m k :
  tuple_items (heap m) t = Some l →
  tuple_it_take word STOP k (tuple_it.Tuple_it t (Z.of_nat (length l))) m
  = Ok (replicate k STOP, tuple_it.Tuple_it t (Z.of_nat (length l))) m.
Proof.
  intros Ht. induction k as [|k IH]; [done|].
  rewrite tuple_it_take_S. erewrite bind_ok by (by eapply tuple_it_iternext_end).
  cbv beta iota. by erewrite bind_ok by exact IH.
Qed.

(** X15.  The iterator of a tuple hands out the items of the tuple, each
    once and in their order, and after the last one it signals the end of
    the iteration at every call.  It changes nothing in memory but its own
    position. *)
Theorem tuple_iteration (word : Z) (MP_OBJ_STOP_ITERATION : mp_obj_t)
    (t : mp_obj_t) (l : list mp_obj_t) (m : mem) :
  tuple_items (heap m) t = Some l →
  Z.of_nat (length l) < 2 ^ word →
  ∃ it',
    tuple_it_take word MP_OBJ_STOP_ITERATION (length l) (mp_obj_tuple_getiter word t) m
    = Ok (l, it') m
    ∧ ∀ k, tuple_it_take word MP_OBJ_STOP_ITERATION k it' m
           = Ok (replicate k MP_OBJ_STOP_ITERATION, it') m.
Proof.
  intros Ht Hlen. exists (tuple_it.Tuple_it t (Z.of_nat (length l))). split.
  - unfold mp_obj_tuple_getiter, mp_obj_new_tuple_iterator.
    rewrite uintw_small by lia.
    by rewrite (tuple_it_take_from word _ t l m (length l) 0 Ht Hlen) by lia.
  - intros k. by apply tuple_it_take_done.
Qed.

Lemma tuple_iteration_witness :
  tuple_items (heap m_pair) (MP_OBJ_PTR 0%nat)
  = Some [MP_OBJ_NEW_SMALL_INT 1; MP_OBJ_NEW_SMALL_INT 2]
  ∧ ∃ it',
      tuple_it_take 32 MP_OBJ_NULL 2 (mp_obj_tuple_getiter 32 (MP_OBJ_PTR 0%nat)) m_pair
      = Ok ([MP_OBJ_NEW_SMALL_INT 1; MP_OBJ_NEW_SMALL_INT 2], it') m_pair
      ∧ tuple_it_take 32 MP_OBJ_NULL 1 it' m_pair = Ok ([MP_OBJ_NULL], it') m_pair.
Proof.
  split; [reflexivity|].
  destruct (tuple_iteration 32 MP_OBJ_NULL (MP_OBJ_PTR 0%nat)
              [MP_OBJ_NEW_SMALL_INT 1; MP_OBJ_NEW_SMALL_INT 2] m_pair eq_refl)
    as (it' & Hrun & Hdone).
  { simpl. lia. }
  exists it'. split; [exact Hrun|exact (Hdone 1%nat)].
Defined.

Lemma sint_add_l w a b : sint w (sint w a + b) = sint w (a + b).
Proof.
  unfold sint. f_equal.
  replace ((a + 2 ^ (w - 1)) mod 2 ^ w - 2 ^ (w - 1) + b + 2 ^ (w - 1))
    with ((a + 2 ^ (w - 1)) mod 2 ^ w + b) by lia.
  rewrite Zplus_mod_idemp_l. f_equal. lia.
Qed.

Lemma sint_idem w a : sint w (sint w a) = sint w a.
Proof.
  replace (sint w a) with (sint w a + 0) at 1 by lia.
  rewrite sint_add_l. f_equal. lia.
Qed.

Lemma tuple_hash_loop_pure word hash hv l a m :
  (∀ x, x ∈ l → ∀ m0, hash x m0 = Ok (hv x) m0) →
  tuple_hash_loop word hash l (sint word a) m = Ok (sint word (a + hash_sum hv l)) m.
Proof.
  revert a. induction l as [|x l IH]; intros a Hpure.
  - simpl. unfold mret, M_ret. do 2 f_equal. lia.
  - simpl. erewrite bind_ok by (apply Hpure; apply list_elem_of_here).
    rewrite sint_add_l, IH.
    + do 2 f_equal. lia.
    + intros y Hy. apply Hpure. by apply list_elem_of_further.
Qed.

Lemma hash_sum_perm hv l l' : l ≡ₚ l' → hash_sum hv l = hash_sum hv l'.
Proof.
  induction 1; simpl; lia.
Qed.

(** X16.  The hash of a tuple is the address of the empty tuple plus the
    hashes of the items, in machine arithmetic; so two tuples with the same
    items in any order have the same hash.  (The items are hashed by a
    function that leaves the memory alone.) *)
Theorem tuple_hash_order (word : Z) (mp_obj_hash : mp_obj_t → M Z)
    (addr_of_empty_tuple : Z) (hv : mp_obj_t → Z) (t t' : mp_obj_t)
    (l l' : list mp_obj_t) (m : mem) :
  tuple_items (heap m) t = Some l →
  tuple_items (heap m) t' = Some l' →
  l ≡ₚ l' →
  (∀ x, x ∈ l → ∀ m0, mp_obj_hash x m0 = Ok (hv x) m0) →
  mp_obj_tuple_hash word mp_obj_hash addr_of_empty_tuple t m
  = Ok (sint word (addr_of_empty_tuple + hash_sum hv l)) m
  ∧ mp_obj_tuple_hash word mp_obj_hash addr_of_empty_tuple t' m
    = mp_obj_tuple_hash word mp_obj_hash addr_of_empty_tuple t m.
Proof.
  intros Ht Ht' Hperm Hpure.
  assert (Hhash : ∀ o k, tuple_items (heap m) o = Some k → k ≡ₚ l →
            mp_obj_tuple_hash word mp_obj_hash addr_of_empty_tuple o m
            = Ok (sint word (addr_of_empty_tuple + hash_sum hv l)) m).
  { intros o k Ho Hk. unfold mp_obj_tuple_hash.
    erewrite bind_ok by (by eapply is_tuple_items). simpl.
    erewrite bind_ok by (by eapply tuple_of_items).
    rewrite (tuple_hash_loop_pure word mp_obj_hash hv).
    - by rewrite (hash_sum_perm hv k l).
    - intros x Hx. apply Hpure. by rewrite <- Hk. }
  split; [by apply (Hhash t l)|].
  rewrite (Hhash t l Ht) by done. by apply (Hhash t' l').
Qed.

Lemma tuple_hash_order_witness :
  mp_obj_tuple_hash 32 (λ _, mret 7) 1000 (MP_OBJ_PTR 0%nat) m_pair
  = Ok (sint 32 (1000 + hash_sum (λ _, 7) [MP_OBJ_NEW_SMALL_INT 1; MP_OBJ_NEW_SMALL_INT 2]))
       m_pair.
Proof.
  apply (tuple_hash_order 32 (λ _, mret 7) 1000 (λ _, 7) (MP_OBJ_PTR 0%nat)
           (MP_OBJ_PTR 0%nat) [MP_OBJ_NEW_SMALL_INT 1; MP_OBJ_NEW_SMALL_INT 2]
           [MP_OBJ_NEW_SMALL_INT 1; MP_OBJ_NEW_SMALL_INT 2] m_pair);
    done.
Defined.

Lemma uint_small_nonneg x : 0 ≤ x < 2 ^ 32 → uint x = x.
Proof. intros H. unfold uint. by apply Z.mod_small. Qed.

Lemma m_renew_keeps items old_n new_n :
  Z.of_nat (length items) ≤ new_n →
  Z.of_nat (length (m_renew items old_n new_n)) = new_n
  ∧ take (length items) (m_renew items old_n new_n) = items.
Proof.
  intros Hn. unfold m_renew. split.
  - rewrite length_take, length_app, length_replicate. lia.
  - rewrite take_take, Nat.min_l by lia. by rewrite take_app_length.
Qed.

(** The collecting loop: the block always has room for the next item. *)
Lemma tuple_collect_yields STOP next it l :
  ∀ m m' items alloc len pre fuel,
    yields STOP next it l m m' →
    Z.of_nat (length items) = alloc → 0 < alloc →
    Z.of_nat (length pre) = len → len ≤ alloc →
    take (length pre) items = pre →
    len + Z.of_nat (length l) < 2 ^ 31 →
    (length l < fuel)%nat →
    ∃ items' alloc',
      tuple_collect STOP next fuel it items alloc len m
      = Ok (Some (items', alloc', len + Z.of_nat (length l))) m'
      ∧ take (length pre + length l) items' = pre ++ l.
Proof.
  induction l as [|x l IH]; intros m m' items alloc len pre fuel Hy Hlen Ha Hpre Hle Htake Hbig Hfuel.
  - destruct fuel as [|fuel]; [lia|]. simpl in Hy |- *.
    erewrite bind_ok by exact Hy.
    destruct (decide (STOP ≠ STOP)); [done|].
    exists items, alloc. split.
    + unfold mret, M_ret. do 4 f_equal. lia.
    + by rewrite Nat.add_0_r, app_nil_r.
  - destruct fuel as [|fuel]; [simpl in Hfuel; lia|].
    destruct Hy as (Hx & m1 & Hnext & Hy).
    cbn [tuple_collect]. erewrite bind_ok by exact Hnext.
    destruct (decide (x ≠ STOP)); [|done].
    set (grown := if len >=? alloc
                  then (m_renew items alloc (uint (alloc * 2)), uint (alloc * 2))
                  else (items, alloc)).
    assert (Hg : Z.of_nat (length grown.1) = grown.2 ∧ len < grown.2
                 ∧ take (length pre) grown.1 = pre).
    { unfold grown. destruct (Z.geb_spec len alloc) as [Hge|Hlt]; simpl.
      - rewrite uint_small_nonneg by (simpl in Hbig; lia).
        destruct (m_renew_keeps items alloc (alloc * 2) ltac:(lia)) as [H1 H2].
        split; [done|]. split; [lia|].
        assert (Hsame : length pre = length items) by lia.
        rewrite Hsame, H2. rewrite <- Htake, Hsame. by rewrite take_ge.
      - split; [done|]. split; [lia|done]. }
    destruct Hg as (Hg1 & Hg2 & Hg3).
    assert (Hgrow : ((if len >=? alloc
                      then mret (m_renew items alloc (uint (alloc * 2)), uint (alloc * 2))
                      else mret (items, alloc)) : M (list mp_obj_t * Z)) m1 = Ok grown m1).
    { unfold grown. by destruct (len >=? alloc). }
    erewrite bind_ok by exact Hgrow.
    destruct grown as [items1 alloc1]. simpl in Hg1, Hg2, Hg3. cbv beta iota.
    assert (Hput : block_put items1 len x m1 = Ok (<[Z.to_nat len := x]> items1) m1).
    { unfold block_put. destruct (Z.leb_spec 0 len); [|lia].
      by destruct (Z.ltb_spec len (Z.of_nat (length items1))); [|lia]. }
    erewrite bind_ok by exact Hput.
    rewrite uint_small_nonneg by (simpl in Hbig; lia).
    destruct (IH m1 m' (<[Z.to_nat len := x]> items1) alloc1 (len + 1) (pre ++ [x]) fuel Hy)
      as (items' & alloc' & Hrun & Hitems).
    + rewrite length_insert. done.
    + lia.
    + rewrite length_app. simpl. lia.
    + lia.
    + rewrite length_app. simpl.
      replace (length pre + 1)%nat with (S (length pre)) by lia.
      erewrite take_S_r; last first.
      { replace (length pre) with (Z.to_nat len) by lia.
        apply list_lookup_insert_eq. lia. }
      f_equal. replace (Z.to_nat len) with (length pre) by lia.
      rewrite take_insert_ge by lia. done.
    + simpl in Hbig. lia.
    + simpl in Hfuel. lia.
    + exists items', alloc'. split.
      * rewrite Hrun.
        by replace (len + Z.of_nat (length (x :: l))) with (len + 1 + Z.of_nat (length l))
          by (simpl; lia).
      * rewrite <- app_assoc in Hitems. simpl in Hitems. rewrite <- Hitems. f_equal.
        rewrite length_app. simpl. lia.
Qed.

(** X17.  [mp_obj_tuple_make_new]: without argument it returns the shared
    empty tuple; a tuple given as argument is returned as it is, the same
    object; and from any other iterable it makes a tuple of the items the
    iterator hands out before it signals the end, in their order, however
    many they are: the block in which they are collected is doubled before
    an item would fall outside it. *)
Theorem tuple_make_new (MP_OBJ_STOP_ITERATION : mp_obj_t)
    (mp_getiter mp_iternext : mp_obj_t → M mp_obj_t) (fuel : nat) (a : mp_obj_t)
    (it : mp_obj_t) (l : list mp_obj_t) (m m0 m1 : mem) :
  mp_obj_tuple_make_new MP_OBJ_STOP_ITERATION mp_getiter mp_iternext fuel 0 0 [] m
  = Ok (Some mp_const_empty_tuple) m
  ∧ (is_tuple a m = Ok true m →
     mp_obj_tuple_make_new MP_OBJ_STOP_ITERATION mp_getiter mp_iternext fuel 1 0 [a] m
     = Ok (Some a) m)
  ∧ (is_tuple a m = Ok false m →
     mp_getiter a m = Ok it m0 →
     yields MP_OBJ_STOP_ITERATION mp_iternext it l m0 m1 →
     Z.of_nat (length l) < 2 ^ 31 →
     (length l < fuel)%nat →
     ∃ t m2,
       mp_obj_tuple_make_new MP_OBJ_STOP_ITERATION mp_getiter mp_iternext fuel 1 0 [a] m
       = Ok (Some t) m2
       ∧ tuple_items (heap m2) t = Some l
       ∧ heap m1 `prefix_of` heap m2).
Proof.
  split; [done|]. split.
  - intros Ht. unfold mp_obj_tuple_make_new.
    erewrite bind_ok by (by apply mp_arg_check_num_pass; [left|lia]).
    simpl. erewrite bind_ok by (by apply array_get_ok).
    by erewrite bind_ok by exact Ht.
  - intros Ht Hit Hy Hlen Hfuel. unfold mp_obj_tuple_make_new.
    erewrite bind_ok by (by apply mp_arg_check_num_pass; [left|lia]).
    simpl ((1 =? 0)). cbv iota.
    erewrite bind_ok by (by apply array_get_ok).
    erewrite bind_ok by exact Ht. cbv iota zeta.
    erewrite bind_ok by exact Hit.
    destruct (tuple_collect_yields MP_OBJ_STOP_ITERATION mp_iternext it l m0 m1
                (m_new 4) 4 0 [] fuel Hy) as (items' & alloc' & Hrun & Hitems);
      try (done || lia).
    erewrite bind_ok by exact Hrun. cbv beta iota.
    simpl in Hitems. rewrite Z.add_0_l.
    destruct (mp_obj_new_tuple_run (Z.of_nat (length l)) items' m1)
      as (t & m2 & Hnew & _ & H0 & Hpos).
    { split; [lia|]. apply (f_equal length) in Hitems. rewrite length_take in Hitems. lia. }
    erewrite bind_ok by exact Hnew.
    exists t, m2. split; [done|].
    rewrite Nat2Z.id in Hpos.
    destruct l as [|x l].
    + destruct (H0 eq_refl) as [-> ->]. split; [done|]. done.
    + destruct (Hpos ltac:(simpl; lia)) as [-> Hh]. rewrite Hitems in Hh. split.
      * unfold tuple_items. by rewrite Hh, lookup_app_r, Nat.sub_diag by lia.
      * rewrite Hh. by apply prefix_app_r.
Qed.

Lemma tuple_make_new_witness :
  is_tuple (MP_OBJ_PTR 0%nat) m_counter = Ok false m_counter
  ∧ yields MP_OBJ_NULL counter_next (MP_OBJ_PTR 0%nat)
      [MP_OBJ_NEW_SMALL_INT 0; MP_OBJ_NEW_SMALL_INT 1] m_counter m_counter_done
  ∧ ∃ t m2,
      mp_obj_tuple_make_new MP_OBJ_NULL (λ o, mret o) counter_next 3 1 0
        [MP_OBJ_PTR 0%nat] m_counter = Ok (Some t) m2
      ∧ tuple_items (heap m2) t
        = Some [MP_OBJ_NEW_SMALL_INT 0; MP_OBJ_NEW_SMALL_INT 1].
Proof.
  assert (Hy : yields MP_OBJ_NULL counter_next (MP_OBJ_PTR 0%nat)
                 [MP_OBJ_NEW_SMALL_INT 0; MP_OBJ_NEW_SMALL_INT 1] m_counter m_counter_done).
  { split; [done|]. eexists. split; [reflexivity|].
    split; [done|]. eexists. split; [reflexivity|]. reflexivity. }
  split; [reflexivity|]. split; [exact Hy|].
  destruct (tuple_make_new MP_OBJ_NULL (λ o, mret o) counter_next 3 (MP_OBJ_PTR 0%nat)
              (MP_OBJ_PTR 0%nat) [MP_OBJ_NEW_SMALL_INT 0; MP_OBJ_NEW_SMALL_INT 1]
              m_counter m_counter m_counter_done) as (_ & _ & Hmake).
  destruct (Hmake eq_refl eq_refl Hy) as (t & m2 & Hrun & Hitems & _).
  { simpl. lia. }
  { simpl. lia. }
  exists t, m2. split; [exact Hrun|exact Hitems].
Defined.

(** ** Ranges *)





Lemma fits_mono w w' x : 0 < w ≤ w' → fits w x → fits w' x.
Proof.
  intros Hw [H1 H2]. unfold fits.
  assert (2 ^ (w - 1) ≤ 2 ^ (w' - 1)) by (apply Z.pow_le_mono_r; lia). lia.
Qed.



Lemma range_it_iternext_end word STOP cur stop step :
  ¬ (0 < step ∧ cur < stop ∨ step < 0 ∧ cur > stop) →
  range_it_iternext word STOP (range_it.Range_it cur stop step)
  = (STOP, range_it.Range_it cur stop step).
Proof.
  intros H. unfold range_it_iternext. simpl.
  destruct (Z.ltb_spec 0 step), (Z.ltb_spec cur stop), (Z.ltb_spec step 0),
    (Z.gtb_spec cur stop); simpl; (done || lia).
Qed.







(** X19.  The step of a range is not checked.  [range_make_new] makes the
    range with step 0 that it is asked for; the iterator of such a range
    signals the end at once, whatever [start] and [stop] are; and its length
    is a division by zero, so that [range_len], every unary operator and
    every subscript of it are undefined. *)
Theorem range_zero_step (word : Z)
    (MP_OBJ_STOP_ITERATION MP_OBJ_SENTINEL mp_const_true mp_const_false : mp_obj_t)
    (MICROPY_PY_BUILTINS_SLICE : bool)
    (mp_obj_get_int : mp_obj_t → M Z) (mp_get_index : Z → mp_obj_t → M Z)
    (is_slice : mp_obj_t → M bool)
    (mp_seq_get_fast_slice_indexes : Z → mp_obj_t → M (bool * (Z * Z * Z)))
    (a0 a1 a2 : mp_obj_t) (start stop : Z) (m : mem) :
  mp_obj_get_int a0 m = Ok start m →
  mp_obj_get_int a1 m = Ok stop m →
  mp_obj_get_int a2 m = Ok 0 m →
  range_make_new mp_obj_get_int 3 0 [a0; a1; a2] m = Ok (range.Range start stop 0) m
  ∧ range_it_iternext word MP_OBJ_STOP_ITERATION (range_getiter (range.Range start stop 0))
    = (MP_OBJ_STOP_ITERATION, range_getiter (range.Range start stop 0))
  ∧ range_len word (range.Range start stop 0) = None
  ∧ (∀ op, range_unary_op word mp_const_true mp_const_false op (range.Range start stop 0)
           = None)
  ∧ (∀ index,
       range_subscr word MP_OBJ_SENTINEL MICROPY_PY_BUILTINS_SLICE mp_get_index is_slice
         mp_seq_get_fast_slice_indexes (range.Range start stop 0) index MP_OBJ_SENTINEL m
       = Undefined).
Proof.
  intros H0 H1 H2.
  assert (Hlen : range_len word (range.Range start stop 0) = None) by done.
  split; [|split; [|split; [|split]]].
  - unfold range_make_new.
    erewrite bind_ok by (by apply mp_arg_check_num_pass; [left|lia]). simpl.
    erewrite bind_ok by (by apply array_get_ok).
    erewrite bind_ok by exact H0.
    erewrite bind_ok by (by apply array_get_ok).
    erewrite bind_ok by exact H1.
    erewrite bind_ok by (by apply array_get_ok).
    by erewrite bind_ok by exact H2.
  - unfold range_getiter, mp_obj_new_range_iterator. simpl range.step.
    change (sint 32 0) with 0. apply range_it_iternext_end. lia.
  - done.
  - intros op. unfold range_unary_op. by rewrite Hlen.
  - intros index. unfold range_subscr. rewrite Hlen.
    by destruct (decide (MP_OBJ_SENTINEL = MP_OBJ_SENTINEL)).
Qed.

Lemma range_zero_step_witness :
  range_make_new (λ o, match o with MP_OBJ_NEW_SMALL_INT n => mret n | _ => undefined end)
    3 0 [MP_OBJ_NEW_SMALL_INT 1; MP_OBJ_NEW_SMALL_INT 5; MP_OBJ_NEW_SMALL_INT 0] m_idle
  = Ok (range.Range 1 5 0) m_idle
  ∧ range_len 32 (range.Range 1 5 0) = None.
Proof.
  destruct (range_zero_step 32 MP_OBJ_NULL mp_const_none mp_const_none mp_const_none false
              (λ o, match o with MP_OBJ_NEW_SMALL_INT n => mret n | _ => undefined end)
              (λ _ _, undefined) (λ _, mret false) (λ _ _, undefined)
              (MP_OBJ_NEW_SMALL_INT 1) (MP_OBJ_NEW_SMALL_INT 5) (MP_OBJ_NEW_SMALL_INT 0)
              1 5 m_idle eq_refl eq_refl eq_refl) as (Hnew & _ & Hlen & _).
  split; [exact Hnew|exact Hlen].
Defined.



(** X21.  A slice of a range is the range of the bounds and the step that
    [mp_seq_get_fast_slice_indexes] gives for the length of the range; the
    [start] and the [step] of the range that is sliced count for nothing
    else: two ranges of the same length have the same slices. *)
Theorem range_slice (word : Z) (MP_OBJ_SENTINEL : mp_obj_t)
    (mp_get_index : Z → mp_obj_t → M Z) (is_slice : mp_obj_t → M bool)
    (mp_seq_get_fast_slice_indexes : Z → mp_obj_t → M (bool * (Z * Z * Z)))
    (r r' : range.mp_obj_range_t) (index : mp_obj_t) (n : Z) (m m1 : mem)
    (ok : bool) (slice_start slice_stop slice_step : Z) :
  range_len word r = Some n →
  range_len word r' = Some n →
  is_slice index m = Ok true m →
  mp_seq_get_fast_slice_indexes n index m
  = Ok (ok, (slice_start, slice_stop, slice_step)) m1 →
  range_subscr word MP_OBJ_SENTINEL true mp_get_index is_slice
    mp_seq_get_fast_slice_indexes r index MP_OBJ_SENTINEL m
  = Ok (range.New_range (range.Range slice_start slice_stop slice_step)) m1
  ∧ range_subscr word MP_OBJ_SENTINEL true mp_get_index is_slice
      mp_seq_get_fast_slice_indexes r' index MP_OBJ_SENTINEL m
    = range_subscr word MP_OBJ_SENTINEL true mp_get_index is_slice
        mp_seq_get_fast_slice_indexes r index MP_OBJ_SENTINEL m.
Proof.
  intros Hlen Hlen' Hsl Hfast.
  assert (Hsub : ∀ r0, range_len word r0 = Some n →
            range_subscr word MP_OBJ_SENTINEL true mp_get_index is_slice
              mp_seq_get_fast_slice_indexes r0 index MP_OBJ_SENTINEL m
            = Ok (range.New_range (range.Range slice_start slice_stop slice_step)) m1).
  { intros r0 H0. unfold range_subscr.
    destruct (decide (MP_OBJ_SENTINEL = MP_OBJ_SENTINEL)); [|done].
    rewrite H0. erewrite bind_ok by exact Hsl. cbv iota.
    by erewrite bind_ok by exact Hfast. }
  split; [by apply Hsub|]. by rewrite !Hsub.
Qed.

Lemma range_slice_witness :
  range_len 32 (range.Range 0 10 1) = Some 10
  ∧ range_len 32 (range.Range 10 20 1) = Some 10
  ∧ range_subscr 32 mp_const_none true (λ _ _, undefined) (λ _, mret true)
      (λ len index, mret (true, (2, 5, 1)))
      (range.Range 10 20 1) MP_OBJ_NULL mp_const_none m_idle
    = Ok (range.New_range (range.Range 2 5 1)) m_idle.
Proof.
  split; [reflexivity|]. split; [reflexivity|].
  apply (range_slice 32 mp_const_none (λ _ _, undefined) (λ _, mret true)
           (λ len index, mret (true, (2, 5, 1)))
           (range.Range 10 20 1) (range.Range 0 10 1) MP_OBJ_NULL 10 m_idle m_idle
           true 2 5 1); reflexivity.
Defined.

(** ** Subscripts of a tuple *)

(** X22.  The subscript of a tuple.  For an index that [mp_get_index] places
    at [i], it is item [i].  For a slice with bounds [start ≤ stop] within the
    tuple it is a tuple of the items from [start] up to [stop], the shared
    empty tuple if there are none and otherwise a new one, in one block after
    the heap as it was; a slice with a step raises [NotImplementedError].  A
    subscript that is not a load is not supported: the null object is
    returned. *)
Theorem tuple_subscript (MP_OBJ_SENTINEL : mp_obj_t) (MICROPY_PY_BUILTINS_SLICE : bool)
    (mp_get_index : Z → mp_obj_t → M Z) (is_slice : mp_obj_t → M bool)
    (mp_seq_get_fast_slice_indexes : Z → mp_obj_t → M (bool * (Z * Z * Z)))
    (NotImplementedError_slice_step : exc)
    (t index : mp_obj_t) (l : list mp_obj_t) (m m1 : mem) :
  tuple_items (heap m) t = Some l →
  tuple_items (heap m1) t = Some l →
  (∀ i x,
     (if MICROPY_PY_BUILTINS_SLICE then is_slice index else mret false) m = Ok false m →
     mp_get_index (Z.of_nat (length l)) index m = Ok i m1 →
     0 ≤ i < 2 ^ 32 → l !! Z.to_nat i = Some x →
     mp_obj_tuple_subscr MP_OBJ_SENTINEL MICROPY_PY_BUILTINS_SLICE mp_get_index is_slice
       mp_seq_get_fast_slice_indexes NotImplementedError_slice_step t index
       MP_OBJ_SENTINEL m
     = Ok x m1)
  ∧ (∀ ok slice_start slice_stop slice_step,
       MICROPY_PY_BUILTINS_SLICE = true →
       is_slice index m = Ok true m →
       mp_seq_get_fast_slice_indexes (Z.of_nat (length l)) index m
       = Ok (ok, (slice_start, slice_stop, slice_step)) m1 →
       (ok = false →
        mp_obj_tuple_subscr MP_OBJ_SENTINEL MICROPY_PY_BUILTINS_SLICE mp_get_index is_slice
          mp_seq_get_fast_slice_indexes NotImplementedError_slice_step t index
          MP_OBJ_SENTINEL m
        = Raise NotImplementedError_slice_step m1)
       ∧ (ok = true →
          0 ≤ slice_start ≤ slice_stop → slice_stop ≤ Z.of_nat (length l) →
          slice_stop < 2 ^ 32 →
          ∃ res m2,
            mp_obj_tuple_subscr MP_OBJ_SENTINEL MICROPY_PY_BUILTINS_SLICE mp_get_index
              is_slice mp_seq_get_fast_slice_indexes NotImplementedError_slice_step
              t index MP_OBJ_SENTINEL m
            = Ok res m2
            ∧ tuple_items (heap m2) res
              = Some (take (Z.to_nat (slice_stop - slice_start))
                        (drop (Z.to_nat slice_start) l))
            ∧ heap m1 `prefix_of` heap m2
            ∧ (slice_start = slice_stop → res = mp_const_empty_tuple ∧ m2 = m1)
            ∧ (slice_start < slice_stop →
               res = MP_OBJ_PTR (length (heap m1))
               ∧ heap m2
                 = heap m1 ++ [mp_obj_tuple_t
                                 (take (Z.to_nat (slice_stop - slice_start))
                                    (drop (Z.to_nat slice_start) l))])))
  ∧ (∀ value, value ≠ MP_OBJ_SENTINEL →
       mp_obj_tuple_subscr MP_OBJ_SENTINEL MICROPY_PY_BUILTINS_SLICE mp_get_index is_slice
         mp_seq_get_fast_slice_indexes NotImplementedError_slice_step t index value m
       = Ok MP_OBJ_NULL m).
Proof.
  intros Ht Ht1. split; [|split].
  - intros i x Hsl Hidx Hi Hx. unfold mp_obj_tuple_subscr.
    destruct (decide (MP_OBJ_SENTINEL = MP_OBJ_SENTINEL)); [|done].
    erewrite bind_ok by (by eapply tuple_of_items).
    erewrite bind_ok by exact Hsl. cbv iota.
    erewrite bind_ok by exact Hidx.
    erewrite bind_ok by (by eapply tuple_of_items).
    rewrite uint_small_nonneg by done. apply array_get_ok; [lia|done].
  - intros ok s e st -> Hsl Hfast.
    assert (Hstart : ∀ k : bool * (Z * Z * Z) → M mp_obj_t,
              mp_obj_tuple_subscr MP_OBJ_SENTINEL true mp_get_index is_slice
                mp_seq_get_fast_slice_indexes NotImplementedError_slice_step t index
                MP_OBJ_SENTINEL m
              = (let n := uint (e - s) in
                 if negb ok then nlr_raise NotImplementedError_slice_step
                 else if n =? 0 then mret mp_const_empty_tuple
                 else
                   items ← tuple_of t;
                   if (0 <=? s) && (s + n <=? Z.of_nat (length items))
                   then m_new_obj (mp_obj_tuple_t
                                     (take (Z.to_nat n) (drop (Z.to_nat s) items)))
                   else undefined) m1).
    { intros _. unfold mp_obj_tuple_subscr.
      destruct (decide (MP_OBJ_SENTINEL = MP_OBJ_SENTINEL)); [|done].
      erewrite bind_ok by (by eapply tuple_of_items).
      erewrite bind_ok by exact Hsl. cbv iota.
      by erewrite bind_ok by exact Hfast. }
    rewrite (Hstart (λ _, mret MP_OBJ_NULL)). cbv zeta. split.
    + by intros ->.
    + intros -> Hse He H32. simpl negb. cbv iota.
      rewrite uint_small_nonneg by lia.
      destruct (Z.eqb_spec (e - s) 0) as [Hz|Hnz].
      * exists mp_const_empty_tuple, m1. split; [done|].
        rewrite Hz. split; [done|]. split; [done|]. split; [done|]. lia.
      * eexists _, _. split.
        { change (negb true) with false. cbv iota.
          erewrite bind_ok by (by eapply tuple_of_items).
          destruct (Z.leb_spec 0 s); [|lia].
          destruct (Z.leb_spec (s + (e - s)) (Z.of_nat (length l))); [|lia].
          reflexivity. }
        simpl. split.
        { by rewrite lookup_app_r, Nat.sub_diag by lia. }
        split; [by apply prefix_app_r|]. split; [lia|done].
  - intros value Hv. unfold mp_obj_tuple_subscr.
    by destruct (decide (value = MP_OBJ_SENTINEL)).
Qed.

Lemma tuple_subscript_witness :
  tuple_items (heap m_pair) (MP_OBJ_PTR 0%nat)
  = Some [MP_OBJ_NEW_SMALL_INT 1; MP_OBJ_NEW_SMALL_INT 2]
  ∧ mp_obj_tuple_subscr mp_const_none false index_small_int (λ _, mret false)
      (λ _ _, undefined) TypeError_arg_check_num (MP_OBJ_PTR 0%nat)
      (MP_OBJ_NEW_SMALL_INT 1) mp_const_none m_pair
    = Ok (MP_OBJ_NEW_SMALL_INT 2) m_pair.
Proof.
  split; [reflexivity|].
  destruct (tuple_subscript mp_const_none false index_small_int (λ _, mret false)
              (λ _ _, undefined) TypeError_arg_check_num (MP_OBJ_PTR 0%nat)
              (MP_OBJ_NEW_SMALL_INT 1) [MP_OBJ_NEW_SMALL_INT 1; MP_OBJ_NEW_SMALL_INT 2]
              m_pair m_pair eq_refl eq_refl) as (Hidx & _).
  apply (Hidx 1 (MP_OBJ_NEW_SMALL_INT 2)); [reflexivity|reflexivity|lia|reflexivity].
Defined.

(** ** [reversed] *)

Lemma reversed_take_run word STOP SENT subscr (item : Z → mp_obj_t) sq m :
  ∀ c : nat,
    Z.of_nat c < 2 ^ word →
    (∀ i, 0 ≤ i < Z.of_nat c → subscr sq (new_small_int word i) SENT m = Ok (item i) m) →
    reversed_take word STOP SENT subscr c (reversed.Reversed sq (Z.of_nat c)) m
    = Ok (map (λ j : nat, item (Z.of_nat j)) (rev (seq 0 c)), reversed.Reversed sq 0) m.
Proof.
  induction c as [|c IH]; intros Hc Hsub; [done|].
  cbn [reversed_take]. unfold reversed_iternext at 1 2. cbn [reversed.cur_index reversed.seq].
  destruct (Z.eqb_spec (Z.of_nat (S c)) 0); [lia|]. cbn [fst snd reversed.cur_index reversed.seq].
  rewrite uintw_small by lia.
  replace (Z.of_nat (S c) - 1) with (Z.of_nat c) by lia.
  erewrite bind_ok by (apply Hsub; lia).
  erewrite bind_ok by (apply IH; [lia|intros i Hi; apply Hsub; lia]).
  cbv beta iota. rewrite seq_S, rev_unit. done.
Qed.

Lemma reversed_take_end word STOP SENT subscr sq m k :
  reversed_take word STOP SENT subscr k (reversed.Reversed sq 0) m
  = Ok (replicate k STOP, reversed.Reversed sq 0) m.
Proof.
  induction k as [|k IH]; [done|].
  cbn [reversed_take]. unfold reversed_iternext at 1 2. cbn [reversed.cur_index fst snd].
  rewrite Z.eqb_refl. cbn [fst snd].
  unfold mbind at 1, M_bind at 1, mret at 1, M_ret at 1.
  by erewrite bind_ok by exact IH.
Qed.

(** X23.  [reversed] of a sequence of [n] items, whose subscripts leave the
    memory alone: the iterator asks the sequence for the items [n-1], [n-2],
    down to 0, each index as the small integer that [MP_OBJ_NEW_SMALL_INT]
    makes of it, hands them out in this order, and then signals the end at
    every call without asking the sequence again. *)
Theorem reversed_order (word : Z) (MP_OBJ_STOP_ITERATION MP_OBJ_SENTINEL : mp_obj_t)
    (mp_obj_len : mp_obj_t → M mp_obj_t) (mp_obj_get_int : mp_obj_t → M Z)
    (mp_obj_subscr : mp_obj_t → mp_obj_t → mp_obj_t → M mp_obj_t)
    (sq len : mp_obj_t) (n : nat) (item : Z → mp_obj_t) (m : mem) :
  Z.of_nat n < 2 ^ word →
  mp_obj_len sq m = Ok len m →
  mp_obj_get_int len m = Ok (Z.of_nat n) m →
  (∀ i, 0 ≤ i < Z.of_nat n →
     mp_obj_subscr sq (new_small_int word i) MP_OBJ_SENTINEL m = Ok (item i) m) →
  ∃ self self',
    reversed_make_new word mp_obj_len mp_obj_get_int 1 0 [sq] m = Ok self m
    ∧ reversed_take word MP_OBJ_STOP_ITERATION MP_OBJ_SENTINEL mp_obj_subscr n self m
      = Ok (map (λ j : nat, item (Z.of_nat j)) (rev (seq 0 n)), self') m
    ∧ ∀ k, reversed_take word MP_OBJ_STOP_ITERATION MP_OBJ_SENTINEL mp_obj_subscr k self' m
           = Ok (replicate k MP_OBJ_STOP_ITERATION, self') m.
Proof.
  intros Hn Hlen Hint Hsub.
  exists (reversed.Reversed sq (Z.of_nat n)), (reversed.Reversed sq 0).
  split; [|split].
  - unfold reversed_make_new.
    erewrite bind_ok by (by apply mp_arg_check_num_pass; [left|lia]).
    erewrite bind_ok by (by apply array_get_ok).
    erewrite bind_ok by exact Hlen.
    erewrite bind_ok by exact Hint.
    by rewrite uintw_small by lia.
  - by apply reversed_take_run.
  - intros k. apply reversed_take_end.
Qed.

Lemma reversed_order_witness :
  ∃ self self',
    reversed_make_new 32 (λ _, mret (MP_OBJ_NEW_SMALL_INT 2))
      (λ o, match o with MP_OBJ_NEW_SMALL_INT n => mret n | _ => undefined end)
      1 0 [MP_OBJ_PTR 0%nat] m_pair = Ok self m_pair
    ∧ reversed_take 32 MP_OBJ_NULL mp_const_none
        (mp_obj_tuple_subscr mp_const_none false index_small_int (λ _, mret false)
           (λ _ _, undefined) TypeError_arg_check_num)
        2 self m_pair
      = Ok ([MP_OBJ_NEW_SMALL_INT 2; MP_OBJ_NEW_SMALL_INT 1], self') m_pair.
Proof.
  destruct (reversed_order 32 MP_OBJ_NULL mp_const_none
              (λ _, mret (MP_OBJ_NEW_SMALL_INT 2))
              (λ o, match o with MP_OBJ_NEW_SMALL_INT n => mret n | _ => undefined end)
              (mp_obj_tuple_subscr mp_const_none false index_small_int (λ _, mret false)
                 (λ _ _, undefined) TypeError_arg_check_num)
              (MP_OBJ_PTR 0%nat) (MP_OBJ_NEW_SMALL_INT 2) 2
              (λ i, MP_OBJ_NEW_SMALL_INT (i + 1)) m_pair)
    as (self & self' & Hnew & Hrun & _).
  { simpl. lia. }
  { reflexivity. }
  { reflexivity. }
  { intros i Hi. assert (i = 0 ∨ i = 1) as [-> | ->] by lia; reflexivity. }
  exists self, self'. split; [exact Hnew|exact Hrun].
Defined.

Lemma fun_bc_call_frame_log_witness :
  ∃ r m',
    fun_bc_call 4 4 12 engine_return_local0 f_a 1 0 [MP_OBJ_NEW_SMALL_INT 7] m_idle
    = Ok r m'
    ∧ frame_log m' = frame_log m_idle ++ [Ev_alloca 8].
Proof.
  pose proof (fun_bc_call_frame_log 4 4 12 engine_return_local0 f_a 1 0
                [MP_OBJ_NEW_SMALL_INT 7] m_idle) as H.
  exists (MP_OBJ_NEW_SMALL_INT 7), (call_exit 4 8 m_bound_7 [] c_return_7).
  split; [reflexivity|]. exact H.
Defined.

(** ** The header of the byte code *)

Lemma lor_shiftl_add a b k :
  0 ≤ k → 0 ≤ a < 2 ^ k → Z.lor a (Z.shiftl b k) = a + b * 2 ^ k.
Proof.
  intros Hk Ha. rewrite Z.shiftl_mul_pow2 by done.
  assert (Hland : Z.land a (b * 2 ^ k) = 0).
  { apply Z.bits_inj'. intros n Hn. rewrite Z.land_spec, Z.bits_0.
    destruct (Z.lt_ge_cases n k) as [Hlt|Hge].
    - by rewrite Z.mul_pow2_bits_low, andb_false_r by done.
    - rewrite <- (Z.mod_small a (2 ^ k)) by done.
      by rewrite Z.mod_pow2_bits_high by lia. }
  rewrite <- Z.lxor_lor by done. symmetry. by apply Z.add_nocarry_lxor.
Qed.

Lemma bind_array_get_lookup {A B : Type} (a : list A) i (f : A → M B) m r m1 :
  (array_get a i ≫= f) m = Ok r m1 →
  ∃ x, 0 ≤ i ∧ a !! Z.to_nat i = Some x ∧ f x m = Ok r m1.
Proof.
  unfold mbind, M_bind, array_get. destruct (Z.leb_spec 0 i) as [Hi|Hi]; [|done].
  destruct (a !! Z.to_nat i) as [x|] eqn:Hx; [|done]. intros Hf. by exists x.
Qed.

(** X9.  The header that [fun_bc_call] reads lies within the byte code and is
    read as little-endian numbers: four bytes for the size of the code info,
    which is skipped, then two bytes for the size of the state and two for
    the size of the exception stack.  Both sizes are below 65536, so that the
    size of the frame, computed in 32 bits, does not wrap for entries of up
    to 65536 bytes together. *)
Theorem byte_code_header (self : mp_obj_fun_bc_t) (so se : Z) (m m1 : mem) (N X ip : Z) :
  Forall (λ b, 0 ≤ b < 256) (bytecode self) →
  (∀ b, bytecode self !! 3%nat = Some b → b < 128) →
  read_prelude self m = Ok (N, X, ip) m1 →
  m1 = m
  ∧ (∃ b0 b1 b2 b3 c0 c1 c2 c3,
       bytecode self !! 0%nat = Some b0 ∧ bytecode self !! 1%nat = Some b1
       ∧ bytecode self !! 2%nat = Some b2 ∧ bytecode self !! 3%nat = Some b3
       ∧ ip - 4 = b0 + 256 * b1 + 65536 * b2 + 16777216 * b3
       ∧ bytecode self !! Z.to_nat (ip - 4) = Some c0
       ∧ bytecode self !! Z.to_nat (ip - 3) = Some c1
       ∧ bytecode self !! Z.to_nat (ip - 2) = Some c2
       ∧ bytecode self !! Z.to_nat (ip - 1) = Some c3
       ∧ N = c0 + 256 * c1 ∧ X = c2 + 256 * c3)
  ∧ 4 ≤ ip ≤ Z.of_nat (length (bytecode self))
  ∧ 0 ≤ N < 65536 ∧ 0 ≤ X < 65536
  ∧ (0 ≤ so → 0 ≤ se → so + se ≤ 65536 → uint (N * so + X * se) = N * so + X * se).
Proof.
  intros Hbytes _ Hrd. pose proof (read_prelude_mem _ _ _ _ Hrd) as ->.
  unfold read_prelude in Hrd. cbv zeta in Hrd.
  apply bind_array_get_lookup in Hrd as (b0 & _ & Hb0 & Hrd).
  apply bind_array_get_lookup in Hrd as (b1 & _ & Hb1 & Hrd).
  apply bind_array_get_lookup in Hrd as (b2 & _ & Hb2 & Hrd).
  apply bind_array_get_lookup in Hrd as (b3 & _ & Hb3 & Hrd).
  apply bind_array_get_lookup in Hrd as (c0 & Hs0 & Hc0 & Hrd).
  apply bind_array_get_lookup in Hrd as (c1 & _ & Hc1 & Hrd).
  apply bind_array_get_lookup in Hrd as (c2 & _ & Hc2 & Hrd).
  apply bind_array_get_lookup in Hrd as (c3 & _ & Hc3 & Hrd).
  injection Hrd as <- <- <-.
  rewrite Forall_lookup in Hbytes.
  pose proof (Hbytes _ _ Hb0). pose proof (Hbytes _ _ Hb1).
  pose proof (Hbytes _ _ Hb2). pose proof (Hbytes _ _ Hb3).
  pose proof (Hbytes _ _ Hc0). pose proof (Hbytes _ _ Hc1).
  pose proof (Hbytes _ _ Hc2). pose proof (Hbytes _ _ Hc3).
  change (Z.to_nat 0) with 0%nat in Hb0. change (Z.to_nat (0 + 1)) with 1%nat in Hb1.
  change (Z.to_nat (0 + 2)) with 2%nat in Hb2. change (Z.to_nat (0 + 3)) with 3%nat in Hb3.
  assert (Hsz : Z.lor (Z.lor (Z.lor b0 (Z.shiftl b1 8)) (Z.shiftl b2 16)) (Z.shiftl b3 24)
                = b0 + 256 * b1 + 65536 * b2 + 16777216 * b3).
  { rewrite (lor_shiftl_add b0 b1 8) by lia.
    rewrite (lor_shiftl_add _ b2 16) by lia.
    rewrite (lor_shiftl_add _ b3 24) by lia. lia. }
  rewrite Hsz in *. set (sz := b0 + 256 * b1 + 65536 * b2 + 16777216 * b3) in *.
  assert (HN : Z.lor c0 (Z.shiftl c1 8) = c0 + 256 * c1)
    by (rewrite (lor_shiftl_add c0 c1 8) by lia; lia).
  assert (HX : Z.lor c2 (Z.shiftl c3 8) = c2 + 256 * c3)
    by (rewrite (lor_shiftl_add c2 c3 8) by lia; lia).
  rewrite HN, HX.
  apply lookup_lt_Some in Hc3 as Hlen.
  split; [done|]. split.
  { exists b0, b1, b2, b3, c0, c1, c2, c3.
    replace (0 + sz + 4 - 4) with (0 + sz) by lia.
    replace (0 + sz + 4 - 3) with (0 + sz + 1) by lia.
    replace (0 + sz + 4 - 2) with (0 + sz + 2) by lia.
    replace (0 + sz + 4 - 1) with (0 + sz + 3) by lia.
    repeat split; first [done | lia]. }
  split; [lia|]. split; [lia|]. split; [lia|].
  intros Hso Hse Hsum. unfold uint. apply Z.mod_small. nia.
Qed.

Lemma byte_code_header_witness :
  Forall (λ b, 0 ≤ b < 256) (bytecode f_a)
  ∧ read_prelude f_a m_idle = Ok (2, 0, 8) m_idle
  ∧ 4 ≤ 8 ≤ Z.of_nat (length (bytecode f_a))
  ∧ uint (2 * 4 + 0 * 12) = 2 * 4 + 0 * 12.
Proof.
  assert (Hb : Forall (λ b, 0 ≤ b < 256) (bytecode f_a)).
  { repeat constructor; lia. }
  split; [exact Hb|]. split; [reflexivity|].
  destruct (byte_code_header f_a 4 12 m_idle m_idle 2 0 8 Hb)
    as (_ & _ & Hip & _ & _ & Hsize).
  { intros b Hb3. injection Hb3 as <-. lia. }
  { reflexivity. }
  split; [exact Hip|]. apply Hsize; lia.
Defined.
